(** * The REPRL fuzzing harness of lua.c (lua-5.4.4/src/lua.c)

    A shallow embedding of the coverage bridge
    ([__sanitizer_cov_reset_edgeguards], [__sanitizer_cov_trace_pc_guard_init],
    [__sanitizer_cov_trace_pc_guard]) and of the persistent loop [do_Fuzzing]
    with the helpers it calls ([dostring], [dochunk], [docall], [report],
    [l_message], [l_print], [handle_luainit], [createargtable]), and of
    the scan of the command line that selects the fuzzing mode
    ([collectargs]) with the functions that work on its result
    ([print_usage], [runargs], [dolibrary]).

    The process is modelled as a state-and-exit monad over a [World] that
    holds what the C code reaches through globals and system calls: the
    environment, the pipes behind the four REPRL descriptors, the guard
    section of the instrumented image, the coverage region and a trace of
    the observable actions.  The Lua library itself is a collaborator: its C
    API is an interface ([LuaRuntime]) and the functions of lua.c are written
    over it. *)

From Stdlib Require Import ZArith Lia Ascii String.
From stdpp Require Import base tactics option list numbers strings.

Local Open Scope Z_scope.

(** ** Machine integers *)

Definition uint8 (x : Z) : Z := x mod 2 ^ 8.
Definition uint32 (x : Z) : Z := x mod 2 ^ 32.
Definition uint64 (x : Z) : Z := x mod 2 ^ 64.

Definition SIZE_MAX : Z := 2 ^ 64 - 1.
Definition SSIZE_MAX : Z := 2 ^ 63 - 1.

Definition EXIT_FAILURE : Z := 1.

(** Native byte order of the supported targets: least significant byte
    first.  [le_bytes n x] is the object representation of an [n]-byte
    integer, [le_value] reads one back. *)
Fixpoint le_bytes (n : nat) (x : Z) : list Z :=
  match n with
  | O => []
  | S n' => uint8 x :: le_bytes n' (Z.shiftr x 8)
  end.

Fixpoint le_value (bs : list Z) : Z :=
  match bs with
  | [] => 0
  | b :: bs' => Z.lor b (Z.shiftl (le_value bs') 8)
  end.

(** ** Observable actions *)

Inductive stream := stdout | stderr.

(** An argument of a printf-style call: [%s] (possibly a null pointer),
    [%u], or the text of the current [errno]. *)
Inductive fmt_arg :=
| ArgS (s : option string)
| ArgU (n : Z)
| ArgErrno.                                 (* strerror(errno) *)

Inductive event :=
| EvRead (fd count rv : Z)                  (* read(fd, _, count) = rv *)
| EvWrite (fd : Z) (buf : list Z) (rv : Z)  (* write(fd, buf, |buf|) = rv *)
| EvPrint (st : stream) (fmt : string) (args : list fmt_arg)
| EvFlush (st : stream)
| EvLuaNew                                  (* luaL_newstate returned a state *)
| EvLuaOut (st : stream) (text : string)    (* written by code run inside Lua *)
| EvLuaClose                                (* lua_close *)
| EvResetGuards.                            (* __sanitizer_cov_reset_edgeguards *)

(** ** The coverage region and the guard section *)

Definition REPRL_CRFD : Z := 100.
Definition REPRL_CWFD : Z := 101.
Definition REPRL_DRFD : Z := 102.
Definition REPRL_DWFD : Z := 103.

Definition SHM_SIZE : Z := 0x100000.
Definition MAX_EDGES : Z := (SHM_SIZE - 4) * 8.

(** [struct shmem_data]: the header and the flexible array [edges], which
    in a region of [SHM_SIZE] bytes has [SHM_SIZE - 4] elements.  The array
    is a function of the byte index; every access checks the bound. *)
Record shmem_data := Shmem {
  num_edges : Z;
  edges : Z -> Z
}.

Definition edges_len : Z := SHM_SIZE - 4.

(** The file-scope globals [__shmem], [__edges_start], [__edges_stop]
    together with the guard cells of the image they point into.  A pointer
    into the guard section is a position of [guards]; [None] is NULL. *)
Record cov_state := Cov {
  guards : list Z;
  edges_start : option nat;
  edges_stop : option nat;
  shmem : option shmem_data
}.

Definition set_guards (g : list Z) (c : cov_state) : cov_state :=
  Cov g (edges_start c) (edges_stop c) (shmem c).

Definition set_shmem (r : option shmem_data) (c : cov_state) : cov_state :=
  Cov (guards c) (edges_start c) (edges_stop c) r.

Definition set_range (a b : nat) (c : cov_state) : cov_state :=
  Cov (guards c) (Some a) (Some b) (shmem c).

(** What a read on a descriptor will meet next: a batch of bytes that
    arrived together, or an error.  An exhausted list is end of file. *)
Inductive rd :=
| Data (bs : list Z)
| Err.

Record World := mkWorld {
  env : string -> option string;        (* getenv *)
  shm_fd : string -> Z;                 (* shm_open(key, ...) *)
  shm_map : Z -> option shmem_data;     (* mmap(.., fd, 0); None is MAP_FAILED *)
  heap_block : shmem_data;              (* contents of the block malloc(SHM_SIZE) hands out *)
  crfd : list rd;                       (* input pending on REPRL_CRFD *)
  drfd : list rd;                       (* input pending on REPRL_DRFD *)
  cwfd : list Z;                        (* results of the next writes on REPRL_CWFD;
                                           past the list every write is complete *)
  cov : cov_state;
  live : nat;                           (* interpreter states created and not closed *)
  trace : list event;                   (* most recent last *)
  heap : list bool                      (* whether the next calls of malloc for a script
                                           buffer find memory; past the list every call
                                           does *)
}.

Definition set_cov (c : cov_state) (w : World) : World :=
  mkWorld (env w) (shm_fd w) (shm_map w) (heap_block w) (crfd w) (drfd w) (cwfd w)
          c (live w) (trace w) (heap w).

Definition set_crfd (l : list rd) (w : World) : World :=
  mkWorld (env w) (shm_fd w) (shm_map w) (heap_block w) l (drfd w) (cwfd w)
          (cov w) (live w) (trace w) (heap w).

Definition set_drfd (l : list rd) (w : World) : World :=
  mkWorld (env w) (shm_fd w) (shm_map w) (heap_block w) (crfd w) l (cwfd w)
          (cov w) (live w) (trace w) (heap w).

Definition set_cwfd (l : list Z) (w : World) : World :=
  mkWorld (env w) (shm_fd w) (shm_map w) (heap_block w) (crfd w) (drfd w) l
          (cov w) (live w) (trace w) (heap w).

Definition set_live (n : nat) (w : World) : World :=
  mkWorld (env w) (shm_fd w) (shm_map w) (heap_block w) (crfd w) (drfd w) (cwfd w)
          (cov w) n (trace w) (heap w).

Definition set_heap (h : list bool) (w : World) : World :=
  mkWorld (env w) (shm_fd w) (shm_map w) (heap_block w) (crfd w) (drfd w) (cwfd w)
          (cov w) (live w) (trace w) h.

Definition emit (e : event) (w : World) : World :=
  mkWorld (env w) (shm_fd w) (shm_map w) (heap_block w) (crfd w) (drfd w) (cwfd w)
          (cov w) (live w) (trace w ++ [e]) (heap w).

Definition emits (es : list event) (w : World) : World :=
  mkWorld (env w) (shm_fd w) (shm_map w) (heap_block w) (crfd w) (drfd w) (cwfd w)
          (cov w) (live w) (trace w ++ es) (heap w).

(** ** The process monad *)

(** How a piece of the program ends: it falls through with a value, the
    enclosing function returns to [main] (which returns the code to the
    system), the process leaves through [_exit], the interpreter never hands
    control back (crash, [os.exit], endless loop), or a memory access is
    outside its object. *)
Inductive outcome (A : Type) :=
| Ok (a : A) (w : World)
| Returned (code : Z) (w : World)
| Exited (code : Z) (w : World)
| Lost (w : World)
| Fault (w : World).

Arguments Ok {A} a w.
Arguments Returned {A} code w.
Arguments Exited {A} code w.
Arguments Lost {A} w.
Arguments Fault {A} w.

Definition M (A : Type) : Type := World -> outcome A.

Definition ret {A} (a : A) : M A := fun w => Ok a w.

Definition bind {A B} (m : M A) (k : A -> M B) : M B :=
  fun w =>
    match m w with
    | Ok a w' => k a w'
    | Returned c w' => Returned c w'
    | Exited c w' => Exited c w'
    | Lost w' => Lost w'
    | Fault w' => Fault w'
    end.

Declare Scope proc_scope.
Delimit Scope proc_scope with proc.
Notation "x <- m ;; k" := (bind m (fun x => k))
  (at level 100, m at next level, right associativity) : proc_scope.
Notation "m ;;; k" := (bind m (fun _ => k))
  (at level 100, right associativity) : proc_scope.
Local Open Scope proc_scope.

Definition act (f : World -> World) : M unit := fun w => Ok tt (f w).
Definition ask {A} (f : World -> A) : M A := fun w => Ok (f w) w.
Definition return_ {A} (code : Z) : M A := fun w => Returned code w.
Definition _exit {A} (code : Z) : M A := fun w => Exited code w.
Definition fault {A} : M A := fun w => Fault w.

Definition print (st : stream) (fmt : string) (args : list fmt_arg) : M unit :=
  act (emit (EvPrint st fmt args)).

Definition fflush (st : stream) : M unit := act (emit (EvFlush st)).

(** Line feed, for the messages that end in one. *)
Definition LF : string := String (Ascii.ascii_of_nat 10) EmptyString.

(** The double quote, which the format of CHECK puts around the
    condition. *)
Definition DQ : string := String (Ascii.ascii_of_nat 34) EmptyString.

(** The CHECK macro: on a false condition it prints the stringized
    condition between double quotes, then [ failed] and a line feed, to
    stderr and leaves through [_exit(-1)]. *)
Definition CHECK (cond : bool) (text : string) : M unit :=
  if cond then ret tt
  else (print stderr (DQ +:+ text +:+ DQ +:+ " failed" +:+ LF) [] ;;; _exit (-1)).

(** ** Coverage bridge *)

(** [__sanitizer_cov_reset_edgeguards]: the loop runs [x] from
    [__edges_start] while [x < __edges_stop && N < MAX_EDGES] and stores
    [++N] (a [uint64_t] narrowed to the 32-bit cell).  [n] counts the cells
    left before [__edges_stop]. *)
Fixpoint reset_loop (n : nat) (x : nat) (N : Z) (g : list Z) : list Z :=
  match n with
  | O => g
  | S n' =>
      if N <? MAX_EDGES
      then reset_loop n' (S x) (uint64 (N + 1)) (<[x := uint32 (uint64 (N + 1))]> g)
      else g
  end.

Definition reset_edgeguards (c : cov_state) : cov_state :=
  match edges_start c, edges_stop c with
  | Some a, Some b => set_guards (reset_loop (b - a) a 0 (guards c)) c
  | _, _ => c          (* NULL < NULL is false: the body never runs *)
  end.

Definition __sanitizer_cov_reset_edgeguards : M unit :=
  act (fun w => emit EvResetGuards (set_cov (reset_edgeguards (cov w)) w)).

(** [edges[index / 8] |= 1 << (index % 8)] on an [unsigned char] cell. *)
Definition set_edge (index : Z) (r : shmem_data) : shmem_data :=
  Shmem (num_edges r)
        (fun j => if j =? index / 8
                  then uint8 (Z.lor (edges r j) (Z.shiftl 1 (index mod 8)))
                  else edges r j).

(** The bit of edge [i] in the region. *)
Definition edge_bit (r : shmem_data) (i : Z) : bool :=
  Z.testbit (edges r (i / 8)) (i mod 8).

Inductive hit_result :=
| HitOk (c : cov_state)
| HitFault.     (* an access outside the guard section or the region *)

(** [__sanitizer_cov_trace_pc_guard(guard)]. *)
Definition __sanitizer_cov_trace_pc_guard (guard : nat) (c : cov_state) : hit_result :=
  match guards c !! guard with
  | None => HitFault
  | Some index =>
      if index =? 0 then HitOk c
      else
        match shmem c with
        | None => HitFault
        | Some r =>
            if (0 <=? index / 8) && (index / 8 <? edges_len)
            then HitOk (set_guards (<[guard := 0]> (guards c))
                                   (set_shmem (Some (set_edge index r)) c))
            else HitFault
        end
  end.

(** Lines 91-113 of the initialization: the region is the block [malloc]
    hands out when SHM_ID is not set (the world holds its contents;
    allocation failure is not modelled), the mapped segment otherwise. *)
Definition map_shared_memory (shm_key : option string) : M unit :=
  match shm_key with
  | None =>
      print stdout ("[COV] no shared memory bitmap available, skipping" +:+ LF) [] ;;;
      act (fun w => set_cov (set_shmem (Some (heap_block w)) (cov w)) w)
  | Some key =>
      fd <- ask (fun w => shm_fd w key) ;;
      if fd <=? -1
      then (print stderr ("Failed to open shared memory region: %s" +:+ LF) [ArgErrno] ;;;
            _exit (-1))
      else
        m <- ask (fun w => shm_map w fd) ;;
        match m with
        | None =>
            print stderr ("Failed to mmap shared memory region" +:+ LF) [] ;;;
            _exit (-1)
        | Some r => act (fun w => set_cov (set_shmem (Some r) (cov w)) w)
        end
  end.

(** [__shmem->num_edges = n]. *)
Definition store_num_edges (n : Z) : M unit :=
  c <- ask cov ;;
  match shmem c with
  | None => fault                       (* __shmem is NULL *)
  | Some r => act (set_cov (set_shmem (Some (Shmem n (edges r))) c))
  end.

(** [__sanitizer_cov_trace_pc_guard_init(start, stop)]. *)
Definition __sanitizer_cov_trace_pc_guard_init (start stop : nat) : M unit :=
  c <- ask cov ;;
  if bool_decide (start = stop) then ret tt
  else
    match guards c !! start with
    | None => fault
    | Some first =>
        if negb (first =? 0) then ret tt
        else if bool_decide (edges_start c <> None \/ edges_stop c <> None)
        then (print stderr ("Coverage instrumentation is only supported for a single module" +:+ LF) [] ;;;
              _exit (-1))
        else
          act (fun w => set_cov (set_range start stop (cov w)) w) ;;;
          shm_key <- ask (fun w => env w "SHM_ID") ;;
          map_shared_memory shm_key ;;;
          __sanitizer_cov_reset_edgeguards ;;;
          let n := uint32 (Z.of_nat stop - Z.of_nat start) in
          store_num_edges n ;;;
          print stdout ("[COV] edge counters initialized. Shared memory: %s with %u edges" +:+ LF)
                [ArgS shm_key; ArgU n]
    end.

(** ** Transport: read(2) and write(2) on the REPRL descriptors *)

(** The world an outcome leaves. *)
Definition world_of {A} (o : outcome A) : World :=
  match o with
  | Ok _ w | Returned _ w | Exited _ w | Lost w | Fault w => w
  end.

(** A step that leaves the count of live interpreter states as it was,
    however it ends. *)
Definition keeps_live {A} (m : M A) : Prop :=
  forall w, live (world_of (m w)) = live w.

(** The bytes that reads will deliver before the first end of file or
    error. *)
Fixpoint pending_bytes (l : list rd) : list Z :=
  match l with
  | Data (b :: bs) :: rest => (b :: bs) ++ pending_bytes rest
  | _ => []
  end.

(** The number of bytes the reads on [fd] recorded in a trace delivered. *)
Fixpoint bytes_read (fd : Z) (tr : list event) : Z :=
  match tr with
  | [] => 0
  | EvRead fd' _ rv :: tr' =>
      (if (fd' =? fd) && (0 <? rv) then rv else 0) + bytes_read fd tr'
  | _ :: tr' => bytes_read fd tr'
  end.

(** One [read(fd, buf, count)] against the pending input: the result, the
    bytes stored and what stays pending.  A batch longer than [count] is
    split.  POSIX leaves a count above [SSIZE_MAX] to the implementation
    (the result has type [ssize_t]); the kernels the harness runs on refuse
    it, and so does the model. *)
Definition read_pending (count : Z) (l : list rd) : Z * list Z * list rd :=
  if SSIZE_MAX <? count then (-1, [], l)
  else
    match l with
    | [] => (0, [], [])
    | Err :: rest => (-1, [], rest)
    | Data bs :: rest =>
        if Z.of_nat (length bs) <=? count then (Z.of_nat (length bs), bs, rest)
        else (count, take (Z.to_nat count) bs, Data (drop (Z.to_nat count) bs) :: rest)
    end.

Definition sys_read (fd : Z) (count : Z) : M (Z * list Z) :=
  fun w =>
    if fd =? REPRL_CRFD then
      let p := read_pending count (crfd w) in
      Ok (p.1.1, p.1.2) (emit (EvRead fd count p.1.1) (set_crfd p.2 w))
    else if fd =? REPRL_DRFD then
      let p := read_pending count (drfd w) in
      Ok (p.1.1, p.1.2) (emit (EvRead fd count p.1.1) (set_drfd p.2 w))
    else Ok (-1, []) (emit (EvRead fd count (-1)) w).

(** One [write(REPRL_CWFD, buf, |buf|)]: the result is the next entry of
    [cwfd] (never more than the count), or the full count once the list is
    used up. *)
Definition next_write (w : World) (count : Z) : Z :=
  match cwfd w with
  | [] => count
  | r :: _ => Z.min r count
  end.

Definition sys_write (fd : Z) (buf : list Z) : M Z :=
  fun w =>
    let count := Z.of_nat (length buf) in
    if fd =? REPRL_CWFD then
      let rv := next_write w count in
      Ok rv (emit (EvWrite fd buf rv) (set_cwfd (tail (cwfd w)) w))
    else Ok (-1) (emit (EvWrite fd buf (-1)) w).

(** Bytes [src] stored at offset [off] of the object [buf]; [None] when
    they do not fit. *)
Definition store (buf : list Z) (off : Z) (src : list Z) : option (list Z) :=
  if (0 <=? off) && (off + Z.of_nat (length src) <=? Z.of_nat (length buf))
  then Some (take (Z.to_nat off) buf ++ src ++ drop (Z.to_nat off + length src) buf)
  else None.

Definition HELO : list Z := [72; 69; 76; 79].

(** Lines 752-761 of do_Fuzzing: the greeting is written, the answer is
    read over it and compared with the greeting. *)
Definition perform_handshake : M unit :=
  let helo := HELO ++ [0] in
  wr <- sys_write REPRL_CWFD (take 4 helo) ;;
  if negb (wr =? 4)
  then (print stdout ("Invalid HELO response from parent" +:+ LF) [] ;;; return_ EXIT_FAILURE)
  else
    r <- sys_read REPRL_CRFD 4 ;;
    let helo := r.2 ++ drop (length r.2) helo in
    if negb (r.1 =? 4)
    then (print stdout ("Invalid HELO response from parent" +:+ LF) [] ;;; return_ EXIT_FAILURE)
    else if negb (bool_decide (take 4 helo = HELO))
    then (print stdout ("Invalid response from parent" +:+ LF) [] ;;; _exit (-1))
    else ret tt.

(** The multi-character constant ['cexe'] as the compilers of the harness
    value it: the characters from the most significant byte down. *)
Definition cexe : Z := 0x63657865.

(** Lines 768-776: the action word and the declared size. *)
Definition receive_header : M Z :=
  r <- sys_read REPRL_CRFD 4 ;;
  CHECK (r.1 =? 4) "read(REPRL_CRFD, &action, 4) == 4" ;;;
  let action := le_value r.2 in
  if action =? cexe then
    r <- sys_read REPRL_CRFD 8 ;;
    CHECK (r.1 =? 8) "read(REPRL_CRFD, &script_size, 8) == 8" ;;;
    ret (le_value r.2)
  else
    (print stderr ("Unknown action: %u" +:+ LF) [ArgU action] ;;; _exit (-1)).

(** The message of the loop below on a read that brings nothing. *)
Definition load_failed : event :=
  EvPrint stderr ("Failed to load script" +:+ LF) [].

(** Lines 782-790: the loop [while (remaining > 0)].  Every turn either
    uses up one entry of the pending input or brings [remaining] to 0, so
    [n] turns are enough when [n] exceeds the number of pending entries
    ([receive_payload] below); running out of turns is [Lost]. *)
Fixpoint receive_loop (n : nat) (script_src : list Z) (ptr remaining : Z)
  : M (list Z) :=
  if remaining >? 0 then
    match n with
    | O => fun w => Lost w
    | S n' =>
        r <- sys_read REPRL_DRFD remaining ;;
        let rv := r.1 in
        if rv <=? 0
        then (print stderr ("Failed to load script" +:+ LF) [] ;;; _exit (-1))
        else
          match store script_src ptr r.2 with
          | None => fault
          | Some script_src' =>
              receive_loop n' script_src' (ptr + rv) (uint64 (remaining - rv))
          end
    end
  else ret script_src.

Definition PTRDIFF_MAX : Z := 2 ^ 63 - 1.

(** [malloc(size)] for a script buffer: whether a block of [size] bytes is
    handed out ([false] is the null pointer).  The heap of the world decides;
    a size above [PTRDIFF_MAX] is refused whatever the heap holds, as the C
    library of the targets of the harness does. *)
Definition malloc_grants (w : World) (size : Z) : bool :=
  (size <=? PTRDIFF_MAX) &&
  match heap w with
  | [] => true
  | b :: _ => b
  end.

Definition sys_malloc (size : Z) : M bool :=
  fun w => Ok (malloc_grants w size) (set_heap (tail (heap w)) w).

(** Lines 778-791: the buffer of [script_size + 1] bytes (the sum is
    computed in [size_t]), cleared, filled by the loop and terminated.  The
    result of [malloc] is not tested: after a refusal, [memset] stores
    through the null pointer as soon as it has a byte to clear. *)
Definition receive_payload (script_size : Z) : M (list Z) :=
  let size := uint64 (script_size + 1) in
  granted <- sys_malloc size ;;
  if negb granted && (0 <? size) then fault           (* memset(NULL, 0, size) *)
  else
    let script_src := replicate (Z.to_nat size) 0 in
    n <- ask (fun w => S (length (drfd w))) ;;
    script_src <- receive_loop n script_src 0 script_size ;;
    match store script_src script_size [0] with
    | None => fault
    | Some script_src' => ret script_src'
    end.

Definition receive_script : M (list Z) :=
  script_size <- receive_header ;;
  receive_payload script_size.

(** ** The interpreter library *)

(** Modelled from the spec: the status the library gives for a chunk that
    ran without error (lua.h is not part of the harness file); the spec
    fixes success as 0 and failure as nonzero. *)
Definition LUA_OK : Z := 0.

(** What a call into the interpreter that runs Lua code comes to: it
    returns a status and the new state, or control never comes back; either
    way the code may have written to the standard streams. *)
Inductive pcall_result (lua_State : Type) :=
| PcallReturns (status : Z) (L : lua_State) (out : list event)
| PcallLost (out : list event).

Arguments PcallReturns {lua_State} status L out.
Arguments PcallLost {lua_State} out.

(** A C function registered with the interpreter: the number of results
    and the new state, or [None] when it does not return. *)
Definition lua_CFunction (lua_State : Type) : Type :=
  lua_State -> option (Z * lua_State).

(** The part of the C API of the library that the fuzzing path of lua.c
    calls, with the constants of lua.h it names. *)
Class LuaRuntime (lua_State : Type) := {
  LUA_TSTRING : Z;
  LUA_MINSTACK : Z;
  LUA_GCGEN : Z;
  luaL_newstate : option lua_State;       (* None is NULL *)
  lua_register : lua_State -> string -> lua_CFunction lua_State -> lua_State;
  lua_close : lua_State -> list event;    (* what finalizers wrote *)
  luaL_openlibs : lua_State -> lua_State;
  lua_gc : lua_State -> Z -> Z -> Z -> lua_State;
  lua_pushcfunction : lua_State -> lua_CFunction lua_State -> lua_State;
  lua_setglobal : lua_State -> string -> lua_State;
  lua_getglobal : lua_State -> string -> Z * lua_State;
  lua_createtable : lua_State -> Z -> Z -> lua_State;
  lua_pushstring : lua_State -> string -> lua_State;
  lua_pushfstring : lua_State -> string -> list fmt_arg -> string * lua_State;
  lua_rawseti : lua_State -> Z -> Z -> lua_State;
  lua_gettop : lua_State -> Z;
  lua_insert : lua_State -> Z -> lua_State;
  lua_remove : lua_State -> Z -> lua_State;
  lua_pop : lua_State -> Z -> lua_State;
  lua_type : lua_State -> Z -> Z;
  lua_tostring : lua_State -> Z -> option string;   (* None is NULL *)
  luaL_typename : lua_State -> Z -> string;
  luaL_callmeta : lua_State -> Z -> string -> Z * lua_State;
  luaL_traceback : lua_State -> option string -> Z -> lua_State;
  luaL_checkstack : lua_State -> Z -> string -> lua_State;
  luaL_loadbuffer : lua_State -> list Z -> string -> Z * lua_State;
  luaL_loadfile : lua_State -> option string -> Z * lua_State;
  lua_pcall : lua_State -> Z -> Z -> Z -> pcall_result lua_State
}.

(** The bytes of a C string up to its terminator, and the bytes of a
    string constant. *)
Fixpoint c_str (s : list Z) : list Z :=
  match s with
  | [] => []
  | b :: s' => if b =? 0 then [] else b :: c_str s'
  end.

Definition strlen (s : list Z) : Z := Z.of_nat (length (c_str s)).

Fixpoint bytes_of_string (s : string) : list Z :=
  match s with
  | EmptyString => []
  | String a s' => Z.of_N (Ascii.N_of_ascii a) :: bytes_of_string s'
  end.

Section Harness.

Context {lua_State : Type} {RT : LuaRuntime lua_State}.

Definition lost {A} (out : list event) : M A :=
  fun w => Lost (emits out w).

(** [progname]: LUA_PROGNAME; only [pmain] and [doREPL] assign it, and the
    fuzzing path runs neither. *)
Definition progname : option string := Some "lua".

(** Modelled from the spec: [lua_writestringerror(s, p)], the macro of the
    library for error output (lauxlib.h is not part of the harness file),
    reports the formatted text on the error output stream; the stock macro
    flushes the stream after writing, which is kept. *)
Definition lua_writestringerror (fmt : string) (p : option string) : M unit :=
  print stderr fmt [ArgS p] ;;; fflush stderr.

Definition l_message (pname : option string) (msg : option string) : M unit :=
  (match pname with
   | Some _ => lua_writestringerror "%s: " pname
   | None => ret tt
   end) ;;;
  lua_writestringerror ("%s" +:+ LF) msg.

Definition report (L : lua_State) (status : Z) : M (Z * lua_State) :=
  if negb (status =? LUA_OK) then
    let msg := lua_tostring L (-1) in
    l_message progname msg ;;;
    ret (status, lua_pop L 1)
  else ret (status, L).

Definition msghandler : lua_CFunction lua_State :=
  fun L =>
    match lua_tostring L 1 with
    | None =>
        let r := luaL_callmeta L 1 "__tostring" in
        if negb (r.1 =? 0) && (lua_type r.2 (-1) =? LUA_TSTRING)
        then Some (1, r.2)
        else
          let m := lua_pushfstring r.2 "(error object is a %s value)"
                                   [ArgS (Some (luaL_typename r.2 1))] in
          Some (1, luaL_traceback m.2 (Some m.1) 1)
    | Some msg => Some (1, luaL_traceback L (Some msg) 1)
    end.

(** [docall]; the SIGINT handler it installs around the call is outside
    the model. *)
Definition docall (L : lua_State) (narg nres : Z) : M (Z * lua_State) :=
  let base := lua_gettop L - narg in
  let L := lua_pushcfunction L msghandler in
  let L := lua_insert L base in
  match lua_pcall L narg nres base with
  | PcallReturns status L out =>
      act (emits out) ;;; ret (status, lua_remove L base)
  | PcallLost out => lost out
  end.

(** [dochunk(L, status)]: the call when the load succeeded, then [report]
    on whichever status results. *)
Definition call_loaded (r : Z * lua_State) : M (Z * lua_State) :=
  if r.1 =? LUA_OK then docall r.2 0 0 else ret r.

Definition dochunk (r : Z * lua_State) : M (Z * lua_State) :=
  r <- call_loaded r ;;
  report r.2 r.1.

Definition dofile (L : lua_State) (name : option string) : M (Z * lua_State) :=
  dochunk (luaL_loadfile L name).

Definition dostring (L : lua_State) (s : list Z) (name : string)
  : M (Z * lua_State) :=
  dochunk (luaL_loadbuffer L (take (Z.to_nat (strlen s)) s) name).

Definition createargtable (L : lua_State) (argv : list string) (argc script : Z)
  : lua_State :=
  let script := if script =? argc then 0 else script in
  let narg := argc - (script + 1) in
  let L := lua_createtable L narg (script + 1) in
  let L := foldl (fun L i => lua_rawseti (lua_pushstring L (nth i argv ""))
                                         (-2) (Z.of_nat i - script))
                 L (seq 0 (Z.to_nat argc)) in
  lua_setglobal L "arg".

(** LUA_INIT_VAR LUA_VERSUFFIX and LUA_INIT_VAR for Lua 5.4. *)
Definition LUA_INITVARVERSION : string := "LUA_INIT_5_4".
Definition LUA_INIT_VAR : string := "LUA_INIT".

Definition handle_luainit (L : lua_State) : M (Z * lua_State) :=
  w <- ask id ;;
  let name := "=" +:+ LUA_INITVARVERSION in
  let init := env w LUA_INITVARVERSION in
  let name := if init is None then "=" +:+ LUA_INIT_VAR else name in
  let init := if init is None then env w LUA_INIT_VAR else init in  (* try alternative name *)
  match init with
  | None => ret (LUA_OK, L)
  | Some (String "@"%char file) => dofile L (Some file)
  | Some text => dostring L (bytes_of_string text ++ [0]) name
  end.

Definition l_print (L : lua_State) : M lua_State :=
  let n := lua_gettop L in
  if n >? 0 then
    let L := luaL_checkstack L LUA_MINSTACK "too many results to print" in
    let L := (lua_getglobal L "print").2 in
    let L := lua_insert L 1 in
    match lua_pcall L n 0 0 with
    | PcallReturns status L out =>
        act (emits out) ;;;
        if negb (status =? LUA_OK) then
          let m := lua_pushfstring L "error calling 'print' (%s)"
                                   [ArgS (lua_tostring L (-1))] in
          l_message progname (Some m.1) ;;; ret m.2
        else ret L
    | PcallLost out => lost out
    end
  else ret L.

(** [test_crash] copies a long string to an address below a five-byte
    array of its frame: it has no defined result. *)
Definition test_crash : lua_CFunction lua_State := fun _ => None.

(** *** do_Fuzzing *)

(** Lines 793-805: a fresh state with the libraries, the [arg] table, the
    garbage-collector mode and the initialization script. *)
Definition create_state (argc : Z) (argv : list string) (script : Z) : M lua_State :=
  match luaL_newstate with
  | None =>
      l_message (argv !! 0%nat) (Some "cannot create state: not enough memory") ;;;
      return_ EXIT_FAILURE
  | Some L =>
      act (fun w => emit EvLuaNew (set_live (S (live w)) w)) ;;;
      let L := lua_register L "test_crash" test_crash in
      let L := luaL_openlibs L in
      let L := createargtable L argv argc script in
      let L := lua_gc L LUA_GCGEN 0 0 in
      r <- handle_luainit L ;;
      if negb (r.1 =? LUA_OK) then return_ EXIT_FAILURE else ret r.2
  end.

(** Lines 807-814: after the payload, its results go to [l_print] and a
    failure to [report] with the local [status]. *)
Definition print_or_report (r : Z * lua_State) (status : Z) : M lua_State :=
  if LUA_OK =? r.1
  then l_print r.2                              (* the test case ran *)
  else (r' <- report r.2 status ;; ret r'.2).   (* the test case failed *)

(** Line 816: [lua_close(L)]; what the finalizers write comes first. *)
Definition close_state (L : lua_State) : M unit :=
  act (fun w => emit EvLuaClose (set_live (pred (live w)) (emits (lua_close L) w))).

(** Lines 807-816: the payload runs, its outcome is printed or reported
    (the local [status] still holds 0 there) and the state is closed.  The
    value is [result]. *)
Definition execute (L : lua_State) (script_src : list Z) : M Z :=
  let status := 0 in
  r <- dostring L script_src "chunk" ;;
  let result := r.1 in
  L <- print_or_report r status ;;
  close_state L ;;;
  ret result.

(** [status = (result & 0xff) << 8]. *)
Definition status_word (result : Z) : Z := Z.shiftl (Z.land result 0xff) 8.

(** The event of the [fprintf] of CHECK for the condition [text]. *)
Definition check_failed (text : string) : event :=
  EvPrint stderr (DQ +:+ text +:+ DQ +:+ " failed" +:+ LF) [].

(** What CHECK prints when the answer could not be written. *)
Definition status_failed : event :=
  check_failed "write(REPRL_CWFD, &status, 4) == 4".

(** Lines 817-821: the status word, the flushes, the answer on the control
    pipe and the reset of the guards. *)
Definition send_status (result : Z) : M unit :=
  let status := status_word result in
  fflush stdout ;;;
  fflush stderr ;;;
  wr <- sys_write REPRL_CWFD (le_bytes 4 status) ;;
  CHECK (wr =? 4) "write(REPRL_CWFD, &status, 4) == 4" ;;;
  __sanitizer_cov_reset_edgeguards.

(** One turn of [while(1)]. *)
Definition fuzz_iteration (argc : Z) (argv : list string) : M unit :=
  let script := 0 in
  script_src <- receive_script ;;
  L <- create_state argc argv script ;;
  result <- execute L script_src ;;
  send_status result.

(** The loop has no exit of its own: [fuzz_loop n] is its first [n] turns,
    and [Ok] means that the process then starts the next one. *)
Fixpoint fuzz_loop (n : nat) (argc : Z) (argv : list string) : M unit :=
  match n with
  | O => ret tt
  | S n' => fuzz_iteration argc argv ;;; fuzz_loop n' argc argv
  end.

Definition do_Fuzzing (n : nat) (argc : Z) (argv : list string) : M unit :=
  perform_handshake ;;;
  fuzz_loop n argc argv.

End Harness.

(** ** A small runtime to run the model on

    A stand-in for the library with just enough behaviour to take the
    harness through its paths: the stack is a list (bottom first); a chunk
    whose text starts with [e] raises an error when called, one that starts
    with [p] prints a line, one that starts with [c] never returns, and a
    text that starts with [)] does not compile. *)
Module Toy.

Inductive slot :=
| SStr (s : string)
| SChunk (src : list Z)
| SOther.

Definition state : Type := list slot.

(** The position of stack index [i] (positive from the bottom, negative
    from the top). *)
Definition pos (L : state) (i : Z) : nat :=
  if i <? 0 then Z.to_nat (Z.of_nat (length L) + i) else Z.to_nat (i - 1).

Definition insert_top (L : state) (i : Z) : state :=
  match reverse L with
  | [] => []
  | top :: below =>
      let l := reverse below in
      take (pos L i) l ++ top :: drop (pos L i) l
  end.

Definition to_string (L : state) (i : Z) : option string :=
  match L !! pos L i with
  | Some (SStr s) => Some s
  | _ => None
  end.

Definition load (L : state) (src : list Z) : Z * state :=
  match src with
  | 41 :: _ => (3, L ++ [SStr "unexpected symbol"])
  | _ => (0, L ++ [SChunk src])
  end.

Definition pcall (L : state) (narg : Z) : pcall_result state :=
  let k := (length L - Z.to_nat narg - 1)%nat in
  match L !! k with
  | Some (SChunk (101 :: _)) => PcallReturns 2 (take k L ++ [SStr "boom"]) []
  | Some (SChunk (112 :: _)) => PcallReturns 0 (take k L) [EvLuaOut stdout "2"]
  | Some (SChunk (99 :: _)) => PcallLost []
  | _ => PcallReturns 0 (take k L) []
  end.

#[export] Instance runtime : LuaRuntime state := {|
  LUA_TSTRING := 4;
  LUA_MINSTACK := 20;
  LUA_GCGEN := 10;
  luaL_newstate := Some [];
  lua_register := fun L _ _ => L;
  lua_close := fun _ => [];
  luaL_openlibs := fun L => L;
  lua_gc := fun L _ _ _ => L;
  lua_pushcfunction := fun L _ => L ++ [SOther];
  lua_setglobal := fun L _ => take (pred (length L)) L;
  lua_getglobal := fun L _ => (6, L ++ [SOther]);
  lua_createtable := fun L _ _ => L ++ [SOther];
  lua_pushstring := fun L s => L ++ [SStr s];
  lua_pushfstring := fun L fmt _ => (fmt, L ++ [SStr fmt]);
  lua_rawseti := fun L _ _ => take (pred (length L)) L;
  lua_gettop := fun L => Z.of_nat (length L);
  lua_insert := insert_top;
  lua_remove := fun L i => delete (pos L i) L;
  lua_pop := fun L n => take (length L - Z.to_nat n) L;
  lua_type := fun L i => if to_string L i is Some _ then 4 else 0;
  lua_tostring := to_string;
  luaL_typename := fun _ _ => "table";
  luaL_callmeta := fun L _ _ => (0, L);
  luaL_traceback := fun L msg _ => L ++ [SStr (default "" msg)];
  luaL_checkstack := fun L _ _ => L;
  luaL_loadbuffer := fun L src _ => load L src;
  luaL_loadfile := fun L _ => (6, L ++ [SStr "cannot open file"]);
  lua_pcall := fun L narg _ _ => pcall L narg
|}.

(** A process with three zeroed guards in its image, no environment, a
    heap that has room, and the given traffic on the pipes. *)
Definition world (control data : list rd) (writes : list Z) : World :=
  mkWorld (fun _ => None) (fun _ => -1) (fun _ => None) (Shmem 0 (fun _ => 0))
          control data writes (Cov [0; 0; 0] None None None) 0 [] [].

(** A request for the payload [src]. *)
Definition request (src : string) : list rd :=
  [Data (le_bytes 4 cexe); Data (le_bytes 8 (Z.of_nat (String.length src)))].

(** error('boom!') / print(1+1) *)
Definition boom : string := "error('boom!')".
Definition sum : string := "print(1+1)".

End Toy.

(** ** A runtime that runs the message handler

    The stand-in of [Toy] keeps no C function; this one keeps the one that
    [lua_pushcfunction] pushed last and, when a chunk whose text starts with
    [e] is called with that function as message handler, enters it on a
    stack that holds the error object [boom] and leaves what it returns as
    the message of the call. *)
Module Handled.

Record state := State {
  stack : list Toy.slot;
  handler : option (list Toy.slot -> option (Z * list Toy.slot))
}.

Definition top_text (l : list Toy.slot) : option string :=
  match last l with
  | Some (Toy.SStr s) => Some s
  | _ => None
  end.

Definition to_string (L : state) (i : Z) : option string :=
  if i =? -1 then top_text (stack L) else Toy.to_string (stack L) i.

Definition push (x : Toy.slot) (L : state) : state :=
  State (stack L ++ [x]) (handler L).

Definition pushcfunction (L : state) (f : lua_CFunction state) : state :=
  State (stack L ++ [Toy.SOther])
        (Some (fun stk => match f (State stk None) with
                          | Some (n, L') => Some (n, stack L')
                          | None => None
                          end)).

(** What follows the message in a traceback. *)
Definition traceback : string := LF +:+ "stack traceback:".

Definition load (L : state) (src : list Z) : Z * state :=
  match src with
  | 41 :: _ => (3, push (Toy.SStr "unexpected symbol") L)
  | _ => (0, push (Toy.SChunk src) L)
  end.

Definition pcall (L : state) (msgh : Z) : pcall_result state :=
  match reverse (stack L) with
  | Toy.SChunk (101 :: _) :: hslot :: rpre =>
      match handler L with
      | Some f =>
          if msgh =? Z.of_nat (length rpre) + 1 then
            match f [Toy.SStr "boom"] with
            | Some (_, stk) =>
                PcallReturns 2 (State (reverse rpre ++ [hslot; default Toy.SOther (last stk)])
                                      None) []
            | None => PcallLost []
            end
          else PcallReturns 0 (State (reverse rpre ++ [hslot]) None) []
      | None => PcallReturns 0 (State (reverse rpre ++ [hslot]) None) []
      end
  | Toy.SChunk (112 :: _) :: rest =>
      PcallReturns 0 (State (reverse rest) (handler L)) [EvLuaOut stdout "2"]
  | _ :: rest => PcallReturns 0 (State (reverse rest) (handler L)) []
  | [] => PcallReturns 0 L []
  end.

#[export] Instance runtime : LuaRuntime state := {|
  LUA_TSTRING := 4;
  LUA_MINSTACK := 20;
  LUA_GCGEN := 10;
  luaL_newstate := Some (State [] None);
  lua_register := fun L _ _ => L;
  lua_close := fun _ => [];
  luaL_openlibs := fun L => L;
  lua_gc := fun L _ _ _ => L;
  lua_pushcfunction := pushcfunction;
  lua_setglobal := fun L _ => State (take (pred (length (stack L))) (stack L)) (handler L);
  lua_getglobal := fun L _ => (6, push Toy.SOther L);
  lua_createtable := fun L _ _ => push Toy.SOther L;
  lua_pushstring := fun L s => push (Toy.SStr s) L;
  lua_pushfstring := fun L fmt _ => (fmt, push (Toy.SStr fmt) L);
  lua_rawseti := fun L _ _ => State (take (pred (length (stack L))) (stack L)) (handler L);
  lua_gettop := fun L => Z.of_nat (length (stack L));
  lua_insert := fun L i => State (Toy.insert_top (stack L) i) (handler L);
  lua_remove := fun L i => State (delete (Toy.pos (stack L) i) (stack L)) (handler L);
  lua_pop := fun L n => State (take (length (stack L) - Z.to_nat n) (stack L)) (handler L);
  lua_type := fun L i => if to_string L i is Some _ then 4 else 0;
  lua_tostring := to_string;
  luaL_typename := fun _ _ => "table";
  luaL_callmeta := fun L _ _ => (0, L);
  luaL_traceback := fun L msg _ => push (Toy.SStr (default "" msg +:+ traceback)) L;
  luaL_checkstack := fun L _ _ => L;
  luaL_loadbuffer := fun L src _ => load L src;
  luaL_loadfile := fun L _ => (6, push (Toy.SStr "cannot open file") L);
  lua_pcall := fun L _ _ msgh => pcall L msgh
|}.

End Handled.

(** ** An image with as many guards as the region has bits *)

(** A guard section of [MAX_EDGES] zeroed cells, registered, with [r] as
    the coverage region. *)
Definition full_section : list Z := replicate (Z.to_nat MAX_EDGES) 0.

Definition full_cov (r : shmem_data) : cov_state :=
  Cov full_section (Some 0%nat) (Some (Z.to_nat MAX_EDGES)) (Some r).

(** The last cell of that section. *)
Definition last_guard : nat := Z.to_nat (MAX_EDGES - 1).

(** ** The command line *)

(** [s[k]] for a C string: its characters, then the terminator; [None] is
    a read past the terminator. *)
Definition NUL : ascii := Ascii.zero.

Definition char_at (s : string) (k : nat) : option ascii :=
  match String.get k s with
  | Some c => Some c
  | None => if Nat.eqb k (String.length s) then Some NUL else None
  end.

(** The text of [s + k]. *)
Fixpoint string_drop (k : nat) (s : string) : string :=
  match k, s with
  | S k', String _ s' => string_drop k' s'
  | _, _ => s
  end.

(* bits of various argument indicators in 'args' *)
Definition has_error : Z := 1.              (* bad option *)
Definition has_i : Z := 2.                  (* -i *)
Definition has_v : Z := 4.                  (* -v *)
Definition has_e : Z := 8.                  (* -e *)
Definition has_E : Z := 16.                 (* -E *)
Definition has_r : Z := 32.                 (* -r *)

(** The loop of [collectargs] from index [i] on, [rest] being
    [argv[i]], [argv[i+1]], ... up to the terminating null pointer.  The
    value is the mask returned and what [*first] holds then; [None] is a
    read outside a string or outside [argv]. *)
Fixpoint collectargs_from (rest : list string) (i : nat) (args : Z)
  : option (Z * nat) :=
  match rest with
  | [] => Some (args, i)                                (* no script name *)
  | a :: rest' =>
      c0 ← char_at a 0;
      if negb (Ascii.eqb c0 "-") then Some (args, i)    (* not an option *)
      else
        c1 ← char_at a 1;
        (* if (argv[i][2] != '\0') return has_error; ...; break; *)
        let flag (args : Z) :=
          c2 ← char_at a 2;
          if negb (Ascii.eqb c2 NUL) then Some (has_error, i)
          else collectargs_from rest' (S i) args in
        (* both options need an argument *)
        let with_argument (args : Z) :=
          c2 ← char_at a 2;
          if Ascii.eqb c2 NUL then                      (* no concatenated argument? *)
            match rest' with
            | [] => Some (has_error, i)                 (* no next argument *)
            | b :: rest'' =>
                b0 ← char_at b 0;
                if Ascii.eqb b0 "-" then Some (has_error, i)
                else collectargs_from rest'' (S (S i)) args
            end
          else collectargs_from rest' (S i) args in
        if Ascii.eqb c1 "-" then
          c2 ← char_at a 2;
          if negb (Ascii.eqb c2 NUL) then Some (has_error, i)
          else Some (args, S i)
        else if Ascii.eqb c1 NUL then Some (args, i)    (* script "name" is '-' *)
        else if Ascii.eqb c1 "E" then flag (Z.lor args has_E)
        else if Ascii.eqb c1 "W" then flag args
        else if Ascii.eqb c1 "i" then flag (Z.lor (Z.lor args has_i) has_v)
        else if Ascii.eqb c1 "v" then flag (Z.lor args has_v)
        else if Ascii.eqb c1 "e" then with_argument (Z.lor args has_e)
        else if Ascii.eqb c1 "l" then with_argument args
        else if Ascii.eqb c1 "r" then collectargs_from rest' (S i) (Z.lor args has_r)
        else Some (has_error, i)
  end.

(** [collectargs(argv, &first)]: [argv] holds [argv[0]] to
    [argv[argc - 1]]; with no element at all, [argv[1]] lies past the
    terminating null pointer. *)
Definition collectargs (argv : list string) : option (Z * nat) :=
  match argv with
  | [] => None
  | _ :: rest => collectargs_from rest 1 0
  end.

(** The second format of [print_usage]. *)
Definition usage_text : string :=
  "usage: %s [options] [script [args]]" +:+ LF +:+
  "Available options are:" +:+ LF +:+
  "  -e stat   execute string 'stat'" +:+ LF +:+
  "  -i        enter interactive mode after executing 'script'" +:+ LF +:+
  "  -l mod    require library 'mod' into global 'mod'" +:+ LF +:+
  "  -l g=mod  require library 'mod' into global 'g'" +:+ LF +:+
  "  -v        show version information" +:+ LF +:+
  "  -E        ignore environment variables" +:+ LF +:+
  "  -W        turn warnings on" +:+ LF +:+
  "  --        stop handling options" +:+ LF +:+
  "  -         stop handling options and execute stdin" +:+ LF.

(** [print_usage(badoption)]; [pname] is what the global [progname] holds
    at the call. *)
Definition print_usage (pname : option string) (badoption : string) : M unit :=
  lua_writestringerror "%s: " pname ;;;
  match char_at badoption 1 with
  | None => fault
  | Some c =>
      (if Ascii.eqb c "e" || Ascii.eqb c "l"
       then lua_writestringerror ("'%s' needs argument" +:+ LF) (Some badoption)
       else lua_writestringerror ("unrecognized option '%s'" +:+ LF) (Some badoption)) ;;;
      lua_writestringerror usage_text pname
  end.

(** [strchr(s, '=')]: the text before the first [=] and the text after
    it; [None] when there is none. *)
Fixpoint split_at_eq (s : string) : option (string * string) :=
  match s with
  | EmptyString => None
  | String c s' =>
      if Ascii.eqb c "=" then Some (EmptyString, s')
      else match split_at_eq s' with
           | Some p => Some (String c p.1, p.2)
           | None => None
           end
  end.

(** [lua_assert(c)], with a failed assertion counted as a fault. *)
Definition lua_assert (c : bool) : M unit := if c then ret tt else fault.

(** The call of the library that [runargs] makes beyond those of the
    fuzzing path. *)
Class LuaWarnings (lua_State : Type) := {
  lua_warning : lua_State -> string -> Z -> lua_State
}.

Section CommandLine.

Context {lua_State : Type} {RT : LuaRuntime lua_State} {RW : LuaWarnings lua_State}.

(** [dolibrary(L, globname)].  The write that ends the global name lands
    inside the argument, on its [=]; [runargs] does not read that argument
    again. *)
Definition dolibrary (L : lua_State) (globname : string) : M (Z * lua_State) :=
  let names := match split_at_eq globname with
               | None => (globname, globname)   (* module name is equal to global name *)
               | Some p => p
               end in
  let L := (lua_getglobal L "require").2 in
  let L := lua_pushstring L names.2 in
  r <- docall L 1 1 ;;                          (* call 'require(modname)' *)
  let L := if r.1 =? LUA_OK then lua_setglobal r.2 names.1 else r.2 in
  report L r.1.

(** The loop of [runargs] with [k] turns to go before [i] reaches [n],
    [rest] being [argv[i]], [argv[i+1]], ...  The value is what the function
    returns, with the state. *)
Fixpoint runargs_from (L : lua_State) (rest : list string) (k : nat) {struct rest}
  : M (Z * lua_State) :=
  match k with
  | O => ret (1, L)
  | S k' =>
      match rest with
      | [] => fault                         (* argv[i] is the null pointer *)
      | a :: rest' =>
          match char_at a 1, char_at a 0 with
          | Some option, Some c0 =>
              lua_assert (Ascii.eqb c0 "-") ;;;       (* already checked *)
              if Ascii.eqb option "e" || Ascii.eqb option "l" then
                match char_at a 2 with
                | None => fault
                | Some x =>
                    if Ascii.eqb x NUL then
                      match rest' with
                      | [] => fault                   (* lua_assert(extra != NULL) *)
                      | extra :: rest'' =>
                          r <- (if Ascii.eqb option "e"
                                then dostring L (bytes_of_string extra ++ [0]) "=(command line)"
                                else dolibrary L extra) ;;
                          if negb (r.1 =? LUA_OK) then ret (0, r.2)
                          else runargs_from r.2 rest'' (pred k')
                      end
                    else
                      r <- (if Ascii.eqb option "e"
                            then dostring L (bytes_of_string (string_drop 2 a) ++ [0])
                                          "=(command line)"
                            else dolibrary L (string_drop 2 a)) ;;
                      if negb (r.1 =? LUA_OK) then ret (0, r.2)
                      else runargs_from r.2 rest' k'
                end
              else if Ascii.eqb option "W"
              then runargs_from (lua_warning L "@on" 0) rest' k'   (* warnings on *)
              else runargs_from L rest' k'
          | _, _ => fault
          end
      end
  end.

(** [runargs(L, argv, n)]. *)
Definition runargs (L : lua_State) (argv : list string) (n : nat)
  : M (Z * lua_State) :=
  runargs_from L (drop 1 argv) (n - 1).

End CommandLine.

#[export] Instance toy_warnings : LuaWarnings Toy.state := {|
  lua_warning := fun L _ _ => L
|}.

(** The masks [collectargs] hands out when it finds no bad option: the
    error bit is clear, no bit is set beyond [has_r], and [has_i] comes
    with [has_v]. *)
Definition mask_ok (m : Z) : bool :=
  (0 <=? m) && (m <? 64) && (Z.land m has_error =? 0) &&
  ((Z.land m has_i =? 0) || negb (Z.land m has_v =? 0)).

(** [rest[k]] is an option that [collectargs] refuses: it starts with a
    dash, and when its letter is [e] or [l] it is the bare option with no
    argument after it. *)
Definition refused_option (rest : list string) (k : nat) : Prop :=
  exists bad c1,
    rest !! k = Some bad /\
    char_at bad 0 = Some "-"%char /\
    char_at bad 1 = Some c1 /\
    ((c1 = "e"%char \/ c1 = "l"%char) ->
     char_at bad 2 = Some NUL /\
     match rest !! S k with
     | None => True
     | Some b => char_at b 0 = Some "-"%char
     end).

(** Some argument among the first [k] of [rest] starts with [-r]. *)
Definition asks_for_fuzzing (rest : list string) (k : nat) : Prop :=
  exists (j : nat) a,
    (j < k)%nat /\ rest !! j = Some a /\
    char_at a 0 = Some "-"%char /\ char_at a 1 = Some "r"%char.

(** ** How a run may end *)

(** What is pending on a pipe is made of bytes. *)
Definition is_byte (b : Z) : Prop := 0 <= b < 256.

Definition bytes_only (l : list rd) : Prop :=
  Forall (fun r => match r with
                   | Data bs => Forall is_byte bs
                   | Err => True
                   end) l.

(** From a world whose pending control input satisfies [R], the step [m]
    either goes on with a value that satisfies [Q] and control input that
    still satisfies [R], or returns [EXIT_FAILURE], or leaves through
    [_exit(-1)], or stays inside the interpreter; it has no access outside
    an object. *)
Definition ensures {A} (R : list rd -> Prop) (m : M A) (Q : A -> Prop) : Prop :=
  forall w, R (crfd w) ->
    match m w with
    | Ok a w' => R (crfd w') /\ Q a
    | Returned c _ => c = EXIT_FAILURE
    | Exited c _ => c = -1
    | Lost _ => True
    | Fault _ => False
    end.

(** The one access outside an object that the loop can make: the world is
    the one right after the header of a request whose buffer [malloc]
    refused, where line 779 hands the null pointer to [memset]; nothing has
    been read from the data pipe yet. *)
Definition refused_allocation (w' : World) : Prop :=
  exists w0 L w1,
    receive_header w0 = Ok L w1 /\
    0 <= L < SIZE_MAX /\
    malloc_grants w1 (uint64 (L + 1)) = false /\
    w' = set_heap (tail (heap w1)) w1.

(** [ensures], but for a step that may allocate: it may also end in that
    access. *)
Definition ends {A} (R : list rd -> Prop) (m : M A) (Q : A -> Prop) : Prop :=
  forall w, R (crfd w) ->
    match m w with
    | Ok a w' => R (crfd w') /\ Q a
    | Returned c _ => c = EXIT_FAILURE
    | Exited c _ => c = -1
    | Lost _ => True
    | Fault w' => refused_allocation w'
    end.

(** ** Runs of the instrumented code *)

(** The guards a run passes, in order: one call of
    [__sanitizer_cov_trace_pc_guard] for each. *)
Fixpoint hits (gs : list nat) (c : cov_state) : hit_result :=
  match gs with
  | [] => HitOk c
  | g :: gs' =>
      match __sanitizer_cov_trace_pc_guard g c with
      | HitOk c' => hits gs' c'
      | HitFault => HitFault
      end
  end.

(** A process as the supervisor starts it: SHM_ID names a segment, which
    opens as descriptor 3 and maps to a cleared region; three zeroed guards
    in the image. *)
Definition supervised_world : World :=
  mkWorld (fun name => if String.eqb name "SHM_ID" then Some "shm_id_1_0" else None)
          (fun _ => 3)
          (fun fd => if fd =? 3 then Some (Shmem 0 (fun _ => 0)) else None)
          (Shmem 0 (fun _ => 0))
          [] [] [] (Cov [0; 0; 0] None None None) 0 [] [].

(** ** Requests *)

(** What the supervisor writes on the control pipe for a payload of [len]
    bytes: the four bytes [exec], then the length as a 64-bit word. *)
Definition request_for (len : Z) : list rd :=
  [Data (bytes_of_string "exec"); Data (le_bytes 8 len)].

(** The bytes that a series of payloads takes from the data pipe. *)
Definition total (lens : list Z) : Z := foldr Z.add 0 lens.

(** A step that falls through and only adds to the trace. *)
Definition returns_emitting {A} (m : M A) : Prop :=
  forall w, exists a es, m w = Ok a (emits es w).

(** The runtime of [Toy] with another allocator and another way of
    calling. *)
Definition toy_runtime_with (new : option Toy.state)
    (pcall : Toy.state -> Z -> pcall_result Toy.state) : LuaRuntime Toy.state := {|
  LUA_TSTRING := 4;
  LUA_MINSTACK := 20;
  LUA_GCGEN := 10;
  luaL_newstate := new;
  lua_register := fun L _ _ => L;
  lua_close := fun _ => [];
  luaL_openlibs := fun L => L;
  lua_gc := fun L _ _ _ => L;
  lua_pushcfunction := fun L _ => L ++ [Toy.SOther];
  lua_setglobal := fun L _ => take (pred (length L)) L;
  lua_getglobal := fun L _ => (6, L ++ [Toy.SOther]);
  lua_createtable := fun L _ _ => L ++ [Toy.SOther];
  lua_pushstring := fun L s => L ++ [Toy.SStr s];
  lua_pushfstring := fun L fmt _ => (fmt, L ++ [Toy.SStr fmt]);
  lua_rawseti := fun L _ _ => take (pred (length L)) L;
  lua_gettop := fun L => Z.of_nat (length L);
  lua_insert := Toy.insert_top;
  lua_remove := fun L i => delete (Toy.pos L i) L;
  lua_pop := fun L n => take (length L - Z.to_nat n) L;
  lua_type := fun L i => if Toy.to_string L i is Some _ then 4 else 0;
  lua_tostring := Toy.to_string;
  luaL_typename := fun _ _ => "table";
  luaL_callmeta := fun L _ _ => (0, L);
  luaL_traceback := fun L msg _ => L ++ [Toy.SStr (default "" msg)];
  luaL_checkstack := fun L _ _ => L;
  luaL_loadbuffer := fun L src _ => Toy.load L src;
  luaL_loadfile := fun L _ => (6, L ++ [Toy.SStr "cannot open file"]);
  lua_pcall := fun L narg _ _ => pcall L narg
|}.

(** A library whose calls always come back: what would not return ends
    with status 0 instead. *)
Definition calm_pcall (L : Toy.state) (narg : Z) : pcall_result Toy.state :=
  match Toy.pcall L narg with
  | PcallLost out => PcallReturns 0 L out
  | r => r
  end.

Definition calm_runtime : LuaRuntime Toy.state :=
  toy_runtime_with (Some []) calm_pcall.

(** A library that cannot allocate a state. *)
Definition exhausted_runtime : LuaRuntime Toy.state :=
  toy_runtime_with None Toy.pcall.

(** A process whose environment sets LUA_INIT to [text]. *)
Definition world_with_init (text : string) (control data : list rd) : World :=
  mkWorld (fun name => if String.eqb name "LUA_INIT" then Some text else None)
          (fun _ => -1) (fun _ => None) (Shmem 0 (fun _ => 0))
          control data [] (Cov [0; 0; 0] None None None) 0 [] [].

(** * Properties *)

(** ** Arithmetic of the machine integers *)

Lemma MAX_EDGES_value : MAX_EDGES = 8388576.
Proof. reflexivity. Qed.

Lemma uint64_small x : 0 <= x < 2 ^ 64 -> uint64 x = x.
Proof. intros; unfold uint64; apply Z.mod_small; lia. Qed.

Lemma uint32_small x : 0 <= x < 2 ^ 32 -> uint32 x = x.
Proof. intros; unfold uint32; apply Z.mod_small; lia. Qed.

Lemma counter_step N :
  0 <= N -> N < MAX_EDGES ->
  uint64 (N + 1) = N + 1 /\ uint32 (uint64 (N + 1)) = N + 1.
Proof.
  intros H0 H1. rewrite MAX_EDGES_value in H1.
  rewrite uint64_small by lia. split; [reflexivity|].
  apply uint32_small; lia.
Qed.

(** ** The guard section after a reset *)

Lemma length_reset_loop n : forall x N g, length (reset_loop n x N g) = length g.
Proof.
  induction n as [|n IH]; intros x N g; simpl; [reflexivity|].
  destruct (N <? MAX_EDGES); [|reflexivity].
  rewrite IH. apply length_insert.
Qed.

(** Outside the cells the loop reaches nothing changes. *)
Lemma reset_loop_lookup_out n : forall x N g (k : nat),
  0 <= N ->
  ~ ((x <= k < x + n)%nat /\ N + Z.of_nat (k - x) < MAX_EDGES) ->
  reset_loop n x N g !! k = g !! k.
Proof.
  induction n as [|n IH]; intros x N g k HN Hout; simpl; [reflexivity|].
  destruct (Z.ltb_spec N MAX_EDGES) as [Hlt|Hge]; [|reflexivity].
  destruct (counter_step N HN Hlt) as [E64 E32]. rewrite E32, E64.
  rewrite IH; [|lia|].
  - apply list_lookup_insert_ne. intros ->. apply Hout.
    replace (k - k)%nat with 0%nat by lia. lia.
  - intros [Hr Hb]. apply Hout. split; [lia|].
    replace (Z.of_nat (k - x)) with (1 + Z.of_nat (k - S x)) by lia. lia.
Qed.

(** The cell at distance [d] from the start of the loop receives the
    counter value of its turn. *)
Lemma reset_loop_lookup_in n : forall x N g (k : nat),
  0 <= N ->
  (x <= k < x + n)%nat ->
  N + Z.of_nat (k - x) < MAX_EDGES ->
  (k < length g)%nat ->
  reset_loop n x N g !! k = Some (N + Z.of_nat (k - x) + 1).
Proof.
  induction n as [|n IH]; intros x N g k HN Hr Hb Hk; simpl; [lia|].
  destruct (Z.ltb_spec N MAX_EDGES) as [Hlt|Hge]; [|lia].
  destruct (counter_step N HN Hlt) as [E64 E32]. rewrite E32, E64.
  destruct (decide (k = x)) as [->|Hne].
  - rewrite reset_loop_lookup_out by lia.
    rewrite list_lookup_insert_eq by lia.
    replace (x - x)%nat with 0%nat by lia. f_equal. lia.
  - rewrite IH; [| lia | lia | | rewrite length_insert; lia].
    + f_equal. replace (Z.of_nat (k - x)) with (1 + Z.of_nat (k - S x)) by lia. lia.
    + replace (Z.of_nat (k - x)) with (1 + Z.of_nat (k - S x)) in Hb by lia. lia.
Qed.

Lemma reset_registered c a b :
  edges_start c = Some a -> edges_stop c = Some b ->
  reset_edgeguards c = set_guards (reset_loop (b - a) a 0 (guards c)) c.
Proof. intros Ha Hb. unfold reset_edgeguards. rewrite Ha, Hb. reflexivity. Qed.

(** The assignment a reset makes: the first [MAX_EDGES] cells of the range
    get 1, 2, ... in order and every other cell keeps its value. *)
Lemma reset_guards_lookup c a b (k : nat) :
  edges_start c = Some a -> edges_stop c = Some b ->
  (b <= length (guards c))%nat ->
  guards (reset_edgeguards c) !! k =
    if bool_decide ((a <= k < b)%nat /\ Z.of_nat k - Z.of_nat a < MAX_EDGES)
    then Some (Z.of_nat k - Z.of_nat a + 1)
    else guards c !! k.
Proof.
  intros Ha Hb Hlen. rewrite (reset_registered c a b Ha Hb). simpl.
  case_bool_decide as Hc.
  - destruct Hc as [Hr Hm].
    rewrite reset_loop_lookup_in by lia. f_equal. lia.
  - apply reset_loop_lookup_out; [lia|]. intros [Hr Hm]. apply Hc. lia.
Qed.

(** A guard past the first MAX_EDGES of the range is not written. *)
Lemma reset_leaves_guards_past_MAX_EDGES c a b (k : nat) :
  edges_start c = Some a -> edges_stop c = Some b ->
  (b <= length (guards c))%nat ->
  MAX_EDGES <= Z.of_nat k - Z.of_nat a ->
  guards (reset_edgeguards c) !! k = guards c !! k.
Proof.
  intros Ha Hb Hlen Hk. rewrite (reset_guards_lookup c a b k Ha Hb Hlen).
  rewrite bool_decide_eq_false_2 by lia. reflexivity.
Qed.

Lemma reset_idempotent c a b :
  edges_start c = Some a -> edges_stop c = Some b ->
  (b <= length (guards c))%nat ->
  reset_edgeguards (reset_edgeguards c) = reset_edgeguards c.
Proof.
  intros Ha Hb Hlen.
  assert (Hlen' : (b <= length (guards (reset_edgeguards c)))%nat).
  { rewrite (reset_registered c a b Ha Hb). simpl. rewrite length_reset_loop. exact Hlen. }
  assert (Ha' : edges_start (reset_edgeguards c) = Some a)
    by (rewrite (reset_registered c a b Ha Hb); exact Ha).
  assert (Hb' : edges_stop (reset_edgeguards c) = Some b)
    by (rewrite (reset_registered c a b Ha Hb); exact Hb).
  assert (Hg : guards (reset_edgeguards (reset_edgeguards c)) = guards (reset_edgeguards c)).
  { apply list_eq. intros k.
    rewrite (reset_guards_lookup _ a b k Ha' Hb' Hlen').
    rewrite (reset_guards_lookup c a b k Ha Hb Hlen).
    case_bool_decide; reflexivity. }
  rewrite (reset_registered _ a b Ha' Hb') at 1.
  rewrite (reset_registered _ a b Ha' Hb') in Hg. simpl in Hg.
  unfold set_guards. rewrite Hg.
  rewrite (reset_registered c a b Ha Hb). reflexivity.
Qed.

(** C4: a reset is idempotent, and what it leaves in the registered range
    is 1, 2, ..., min(edge count, MAX_EDGES) in order, the cells past
    MAX_EDGES still holding their 0. *)
Theorem reset_edgeguards_idempotent c a b :
  edges_start c = Some a -> edges_stop c = Some b ->
  (a <= b <= length (guards c))%nat ->
  (forall k : nat, (k < b)%nat -> MAX_EDGES <= Z.of_nat k - Z.of_nat a ->
                   guards c !! k = Some 0) ->
  reset_edgeguards (reset_edgeguards c) = reset_edgeguards c /\
  forall k : nat, (a <= k < b)%nat ->
    guards (reset_edgeguards c) !! k =
      Some (if Z.of_nat k - Z.of_nat a <? Z.min (Z.of_nat b - Z.of_nat a) MAX_EDGES
            then Z.of_nat k - Z.of_nat a + 1
            else 0).
Proof.
  intros Ha Hb Hlen Hzero. split.
  - apply (reset_idempotent c a b Ha Hb). lia.
  - intros k Hk.
    rewrite (reset_guards_lookup c a b k Ha Hb) by lia.
    case_bool_decide as Hc.
    + destruct (Z.ltb_spec (Z.of_nat k - Z.of_nat a)
                           (Z.min (Z.of_nat b - Z.of_nat a) MAX_EDGES)); [reflexivity|lia].
    + destruct (Z.ltb_spec (Z.of_nat k - Z.of_nat a)
                           (Z.min (Z.of_nat b - Z.of_nat a) MAX_EDGES)); [lia|].
      apply Hzero; lia.
Qed.

Lemma reset_edgeguards_idempotent_witness :
  let c := Cov [5; 0; 7] (Some 0%nat) (Some 3%nat) None in
  reset_edgeguards (reset_edgeguards c) = reset_edgeguards c /\
  guards (reset_edgeguards c) = [1; 2; 3].
Proof.
  intros c.
  destruct (reset_edgeguards_idempotent c 0 3) as [Hidem Hseq].
  - reflexivity.
  - reflexivity.
  - simpl; lia.
  - intros k Hk Hm. rewrite MAX_EDGES_value in Hm. lia.
  - split; [exact Hidem | reflexivity].
Defined.

(** ** The guard that receives MAX_EDGES *)

Lemma length_full_section : length full_section = Z.to_nat MAX_EDGES.
Proof. unfold full_section. apply length_replicate. Qed.

Lemma full_section_last_guard r :
  guards (reset_edgeguards (full_cov r)) !! last_guard = Some MAX_EDGES.
Proof.
  rewrite (reset_guards_lookup (full_cov r) 0 (Z.to_nat MAX_EDGES) last_guard);
    [ | reflexivity | reflexivity | ].
  - pose proof MAX_EDGES_value as E.
    assert (Ei : Z.of_nat last_guard - Z.of_nat 0 + 1 = MAX_EDGES)
      by (unfold last_guard; lia).
    rewrite bool_decide_eq_true_2 by (unfold last_guard; lia).
    rewrite Ei. reflexivity.
  - change (guards (full_cov r)) with full_section.
    rewrite length_full_section. lia.
Qed.

(** C9 at the image with MAX_EDGES guards: the reset gives the last guard
    the index MAX_EDGES, which is within 1..min(guard count, MAX_EDGES),
    and the byte of that index, [edges[MAX_EDGES / 8]], is one past the
    array: its offset in the region is SHM_SIZE itself. *)
Theorem last_index_is_outside_region r :
  guards (reset_edgeguards (full_cov r)) !! last_guard = Some MAX_EDGES /\
  1 <= MAX_EDGES <= Z.min (Z.of_nat (length full_section)) MAX_EDGES /\
  MAX_EDGES / 8 = edges_len /\
  4 + MAX_EDGES / 8 = SHM_SIZE.
Proof.
  split; [apply full_section_last_guard|].
  rewrite length_full_section.
  pose proof MAX_EDGES_value as E.
  split; [lia|]. split; reflexivity.
Qed.

(** C2 at the same image: the first hit on the last guard after a reset
    finds a nonzero index and addresses a byte outside the region; no bit
    of the region is set. *)
Theorem hit_on_last_guard_leaves_region r :
  __sanitizer_cov_trace_pc_guard last_guard (reset_edgeguards (full_cov r)) = HitFault.
Proof.
  unfold __sanitizer_cov_trace_pc_guard. rewrite full_section_last_guard.
  change (MAX_EDGES =? 0) with false. cbv iota.
  rewrite (reset_registered (full_cov r) 0 (Z.to_nat MAX_EDGES)) by reflexivity.
  change (shmem (set_guards _ (full_cov r))) with (Some r). cbv iota.
  change ((0 <=? MAX_EDGES / 8) && (MAX_EDGES / 8 <? edges_len)) with false.
  reflexivity.
Qed.

(** ** A hit on a guard whose bit is in the region *)

Lemma testbit_one_shifted s m :
  0 <= s -> 0 <= m -> Z.testbit (Z.shiftl 1 s) m = (s =? m).
Proof. intros Hs Hm. rewrite Z.shiftl_1_l. apply Z.pow2_bits_eqb; lia. Qed.

Lemma edge_bit_set_edge i r j :
  edge_bit (set_edge i r) j = if j =? i then true else edge_bit r j.
Proof.
  unfold edge_bit, set_edge; simpl.
  assert (Hi : 0 <= i mod 8 < 8) by (apply Z.mod_pos_bound; lia).
  assert (Hj : 0 <= j mod 8 < 8) by (apply Z.mod_pos_bound; lia).
  pose proof (Z.div_mod i 8 ltac:(lia)) as Di.
  pose proof (Z.div_mod j 8 ltac:(lia)) as Dj.
  destruct (Z.eqb_spec (j / 8) (i / 8)) as [Eq|Nq].
  - unfold uint8. rewrite Z.mod_pow2_bits_low by lia.
    rewrite Z.lor_spec, testbit_one_shifted by lia.
    destruct (Z.eqb_spec j i) as [->|Nji].
    + rewrite Z.eqb_refl. apply orb_true_r.
    + destruct (Z.eqb_spec (i mod 8) (j mod 8)); [lia|]. apply orb_false_r.
  - destruct (Z.eqb_spec j i) as [->|Nji]; [contradiction|reflexivity].
Qed.

(** X1: after a reset, the first hit on a guard whose index is below MAX_EDGES
    sets the bit of that index and no other, keeps the header, and clears
    that guard and no other; a further hit changes nothing. *)
Theorem first_hit_records_once c a b r (k : nat) :
  edges_start c = Some a -> edges_stop c = Some b ->
  (b <= length (guards c))%nat -> shmem c = Some r ->
  (a <= k < b)%nat ->
  Z.of_nat k - Z.of_nat a + 1 < MAX_EDGES ->
  let i := Z.of_nat k - Z.of_nat a + 1 in
  exists c1 r1,
    __sanitizer_cov_trace_pc_guard k (reset_edgeguards c) = HitOk c1 /\
    shmem c1 = Some r1 /\
    num_edges r1 = num_edges r /\
    edge_bit r1 i = true /\
    (forall j, j <> i -> edge_bit r1 j = edge_bit r j) /\
    guards c1 !! k = Some 0 /\
    (forall k' : nat, k' <> k -> guards c1 !! k' = guards (reset_edgeguards c) !! k') /\
    __sanitizer_cov_trace_pc_guard k c1 = HitOk c1.
Proof.
  intros Ha Hb Hlen Hr Hk Hi i.
  pose proof MAX_EDGES_value as EM.
  assert (Hg : guards (reset_edgeguards c) !! k = Some i).
  { rewrite (reset_guards_lookup c a b k Ha Hb Hlen).
    rewrite bool_decide_eq_true_2 by lia. reflexivity. }
  assert (Hs : shmem (reset_edgeguards c) = Some r).
  { rewrite (reset_registered c a b Ha Hb). exact Hr. }
  assert (Hin : (0 <=? i / 8) && (i / 8 <? edges_len) = true).
  { apply andb_true_intro. split.
    - apply Z.leb_le. apply Z.div_pos; lia.
    - apply Z.ltb_lt. apply Z.div_lt_upper_bound; [lia|].
      change (8 * edges_len) with 8388576. lia. }
  assert (Hnz : (i =? 0) = false) by (apply Z.eqb_neq; lia).
  assert (Hklen : (k < length (guards (reset_edgeguards c)))%nat)
    by (apply lookup_lt_is_Some; rewrite Hg; eauto).
  eexists _, (set_edge i r).
  split; [unfold __sanitizer_cov_trace_pc_guard; rewrite Hg, Hnz, Hs, Hin; reflexivity|].
  simpl. repeat split.
  - rewrite edge_bit_set_edge, Z.eqb_refl. reflexivity.
  - intros j Hj. rewrite edge_bit_set_edge.
    destruct (Z.eqb_spec j i); [contradiction|reflexivity].
  - apply list_lookup_insert_eq. exact Hklen.
  - intros k' Hk'. apply list_lookup_insert_ne. congruence.
  - unfold __sanitizer_cov_trace_pc_guard; simpl.
    rewrite list_lookup_insert_eq by exact Hklen. reflexivity.
Qed.

Lemma first_hit_records_once_witness :
  let c := Cov [0; 0; 0] (Some 0%nat) (Some 3%nat) (Some (Shmem 3 (fun _ => 0))) in
  exists c1 r1,
    __sanitizer_cov_trace_pc_guard 1 (reset_edgeguards c) = HitOk c1 /\
    shmem c1 = Some r1 /\
    edge_bit r1 2 = true /\
    guards c1 !! 1%nat = Some 0 /\
    __sanitizer_cov_trace_pc_guard 1 c1 = HitOk c1.
Proof.
  intros c.
  destruct (first_hit_records_once c 0 3 (Shmem 3 (fun _ => 0)) 1)
    as (c1 & r1 & H1 & H2 & _ & H4 & _ & H6 & _ & H8);
    [reflexivity | reflexivity | simpl; lia | reflexivity | lia
    | rewrite MAX_EDGES_value; lia | ].
  exists c1, r1. repeat split; assumption.
Defined.

(** ** Running the process monad in proofs *)

Ltac proc_unfold :=
  cbv beta iota delta [bind ret act ask return_ _exit fault print fflush].

Ltac world_simpl :=
  cbn [env shm_fd shm_map heap_block crfd drfd cwfd cov live trace heap
       set_cov set_crfd set_drfd set_cwfd set_live set_heap emit emits
       guards edges_start edges_stop shmem set_guards set_shmem set_range
       num_edges edges world_of fst snd].

Ltac world_simpl_in H :=
  cbn [env shm_fd shm_map heap_block crfd drfd cwfd cov live trace heap
       set_cov set_crfd set_drfd set_cwfd set_live set_heap emit emits
       guards edges_start edges_stop shmem set_guards set_shmem set_range
       num_edges edges world_of fst snd] in H.

(** ** Initialization of the bridge *)

(** C8: for a range that is not empty and whose first guard is still 0,
    registered in a process that has no range yet, and with SHM_ID unset,
    the initialization runs to its end: the region is the block from the
    heap, the range is registered and reset, and the header holds
    [stop - start] (as the [uint32_t] it is, so the count itself whenever it
    fits 32 bits). *)
Theorem init_falls_back_to_heap w (start stop : nat) :
  start <> stop ->
  guards (cov w) !! start = Some 0 ->
  edges_start (cov w) = None -> edges_stop (cov w) = None ->
  env w "SHM_ID" = None ->
  exists w' r,
    __sanitizer_cov_trace_pc_guard_init start stop w = Ok tt w' /\
    shmem (cov w') = Some r /\
    edges r = edges (heap_block w) /\
    num_edges r = uint32 (Z.of_nat stop - Z.of_nat start) /\
    (0 <= Z.of_nat stop - Z.of_nat start < 2 ^ 32 ->
     num_edges r = Z.of_nat stop - Z.of_nat start) /\
    edges_start (cov w') = Some start /\
    edges_stop (cov w') = Some stop /\
    guards (cov w') =
      guards (reset_edgeguards (set_range start stop (cov w))) /\
    trace w' = trace w ++
      [EvPrint stdout ("[COV] no shared memory bitmap available, skipping" +:+ LF) [];
       EvResetGuards;
       EvPrint stdout
         ("[COV] edge counters initialized. Shared memory: %s with %u edges" +:+ LF)
         [ArgS None; ArgU (uint32 (Z.of_nat stop - Z.of_nat start))]].
Proof.
  intros Hne Hfirst Hs He Hkey.
  unfold __sanitizer_cov_trace_pc_guard_init, bind at 1, ask at 1.
  rewrite bool_decide_eq_false_2 by exact Hne.
  rewrite Hfirst. change (negb (0 =? 0)) with false. cbv iota.
  rewrite bool_decide_eq_false_2 by (rewrite Hs, He; intros [?|?]; congruence).
  proc_unfold. cbv delta [map_shared_memory store_num_edges
                          __sanitizer_cov_reset_edgeguards id] beta.
  world_simpl. rewrite Hkey. proc_unfold. world_simpl.
  rewrite (reset_registered _ start stop) by reflexivity. world_simpl.
  eexists _, _. split; [reflexivity|]. world_simpl.
  repeat split.
  - intros Hfit. apply uint32_small. exact Hfit.
  - rewrite <- !app_assoc. reflexivity.
Qed.

Lemma init_falls_back_to_heap_witness :
  exists w' r,
    __sanitizer_cov_trace_pc_guard_init 0 3 (Toy.world [] [] []) = Ok tt w' /\
    shmem (cov w') = Some r /\
    num_edges r = 3 /\
    guards (cov w') = [1; 2; 3].
Proof.
  destruct (init_falls_back_to_heap (Toy.world [] [] []) 0 3)
    as (w' & r & H1 & H2 & _ & _ & H5 & _ & _ & H8 & _);
    [lia | reflexivity | reflexivity | reflexivity | reflexivity | ].
  exists w', r. repeat split; [exact H1 | exact H2 | apply H5; simpl; lia | exact H8].
Defined.

(** ** Transport *)

Lemma read_pending_result count l :
  0 <= count ->
  let '(rv, bs, rest) := read_pending count l in
  (rv = -1 /\ bs = []) \/ (rv = Z.of_nat (length bs) /\ rv <= count).
Proof.
  intros Hc. unfold read_pending.
  destruct (SSIZE_MAX <? count); [left; auto|].
  destruct l as [|[bs|] rest]; [right; simpl; lia | | left; auto].
  destruct (Z.leb_spec (Z.of_nat (length bs)) count); right.
  - split; [reflexivity | lia].
  - rewrite length_take. lia.
Qed.

Lemma sys_write_cwfd buf w :
  sys_write REPRL_CWFD buf w =
    Ok (next_write w (Z.of_nat (length buf)))
       (emit (EvWrite REPRL_CWFD buf (next_write w (Z.of_nat (length buf))))
             (set_cwfd (tail (cwfd w)) w)).
Proof. reflexivity. Qed.

Lemma sys_read_crfd count w :
  sys_read REPRL_CRFD count w =
    Ok ((read_pending count (crfd w)).1.1, (read_pending count (crfd w)).1.2)
       (emit (EvRead REPRL_CRFD count (read_pending count (crfd w)).1.1)
             (set_crfd (read_pending count (crfd w)).2 w)).
Proof. reflexivity. Qed.

Lemma sys_read_drfd count w :
  sys_read REPRL_DRFD count w =
    Ok ((read_pending count (drfd w)).1.1, (read_pending count (drfd w)).1.2)
       (emit (EvRead REPRL_DRFD count (read_pending count (drfd w)).1.1)
             (set_drfd (read_pending count (drfd w)).2 w)).
Proof. reflexivity. Qed.

Lemma bind_ok {A B} (m : M A) (k : A -> M B) w a w' :
  m w = Ok a w' -> bind m k w = k a w'.
Proof. intros E. unfold bind. rewrite E. reflexivity. Qed.

Ltac handshake_case :=
  repeat match goal with
         | |- _ /\ _ => split
         | |- _ <-> _ => split
         end;
  first
    [ intros [? Hx]; discriminate Hx
    | intros; eexists; reflexivity
    | intros; exfalso; intuition congruence
    | eexists; rewrite <- ?app_assoc; reflexivity
    | intros; intuition eauto ].


(** ** The receive loop *)

(** What [store] leaves when the bytes fit. *)
Lemma store_in_range buf off src :
  0 <= off -> off + Z.of_nat (length src) <= Z.of_nat (length buf) ->
  store buf off src =
    Some (take (Z.to_nat off) buf ++ src ++ drop (Z.to_nat off + length src) buf).
Proof.
  intros H0 H1. unfold store.
  destruct (Z.leb_spec 0 off); [|lia].
  destruct (Z.leb_spec (off + Z.of_nat (length src)) (Z.of_nat (length buf))); [|lia].
  reflexivity.
Qed.

(** Two stores, one right after the other, are one store of both. *)
Lemma fill_twice (buf : list Z) (p : nat) (c d : list Z) :
  (p + length c + length d <= length buf)%nat ->
  let buf' := take p buf ++ c ++ drop (p + length c) buf in
  take (p + length c) buf' ++ d ++ drop (p + length c + length d) buf' =
  take p buf ++ (c ++ d) ++ drop (p + length (c ++ d)) buf.
Proof.
  intros Hlen buf'. subst buf'.
  assert (Hp : length (take p buf) = p) by (rewrite length_take; lia).
  rewrite (app_assoc (take p buf) c).
  rewrite take_app_length' by (rewrite length_app; lia).
  rewrite drop_app_ge by (rewrite length_app; lia).
  rewrite length_app, Hp, drop_drop, length_app.
  replace (p + length c + (p + length c + length d - (p + length c)))%nat
    with (p + (length c + length d))%nat by lia.
  rewrite <- !app_assoc. reflexivity.
Qed.

Lemma bytes_read_app fd tr1 tr2 :
  bytes_read fd (tr1 ++ tr2) = bytes_read fd tr1 + bytes_read fd tr2.
Proof.
  induction tr1 as [|e tr1 IH]; simpl; [lia|].
  destruct e; rewrite ?IH; lia.
Qed.

Lemma receive_loop_done n buf ptr w : receive_loop n buf ptr 0 w = Ok buf w.
Proof. destruct n; reflexivity. Qed.

Lemma receive_loop_step n buf ptr remaining w :
  0 < remaining ->
  receive_loop (S n) buf ptr remaining w =
    let p := read_pending remaining (drfd w) in
    let w1 := emit (EvRead REPRL_DRFD remaining p.1.1) (set_drfd p.2 w) in
    if p.1.1 <=? 0 then Exited (-1) (emit load_failed w1)
    else match store buf ptr p.1.2 with
         | None => Fault w1
         | Some buf' => receive_loop n buf' (ptr + p.1.1) (uint64 (remaining - p.1.1)) w1
         end.
Proof.
  intros Hpos. cbn [receive_loop].
  destruct (Z.gtb_spec remaining 0) as [_|]; [|lia].
  rewrite (bind_ok _ _ _ _ _ (sys_read_drfd _ _)). cbv zeta. cbn [fst snd].
  destruct ((read_pending remaining (drfd w)).1.1 <=? 0); [reflexivity|].
  destruct (store buf ptr (read_pending remaining (drfd w)).1.2); reflexivity.
Qed.

(** When the pending input holds [remaining] bytes before its first end of
    file or error, the loop stores exactly those at [ptr] and leaves the
    rest pending. *)
Lemma receive_loop_complete n : forall buf ptr remaining w,
  (length (drfd w) < n)%nat ->
  0 <= ptr -> 0 <= remaining <= SSIZE_MAX ->
  ptr + remaining <= Z.of_nat (length buf) ->
  remaining <= Z.of_nat (length (pending_bytes (drfd w))) ->
  exists w',
    receive_loop n buf ptr remaining w =
      Ok (take (Z.to_nat ptr) buf
            ++ take (Z.to_nat remaining) (pending_bytes (drfd w))
            ++ drop (Z.to_nat ptr + Z.to_nat remaining) buf) w' /\
    pending_bytes (drfd w') = drop (Z.to_nat remaining) (pending_bytes (drfd w)) /\
    bytes_read REPRL_DRFD (trace w') = bytes_read REPRL_DRFD (trace w) + remaining /\
    (remaining = 0 -> w' = w) /\
    crfd w' = crfd w /\ cwfd w' = cwfd w /\ cov w' = cov w /\ live w' = live w /\
    env w' = env w.
Proof.
  induction n as [|n IH]; intros buf ptr remaining w Hn Hptr Hrem Hfit Havail; [lia|].
  destruct (Z.eq_dec remaining 0) as [->|Hnz].
  { exists w. rewrite receive_loop_done. change (Z.to_nat 0) with 0%nat.
    rewrite take_0, Nat.add_0_r, app_nil_l, take_drop.
    repeat split; try reflexivity. lia. }
  assert (SM : SSIZE_MAX = 9223372036854775807) by reflexivity.
  rewrite receive_loop_step by lia.
  destruct (drfd w) as [|[[|b bs]|] rest] eqn:Ed; simpl in Havail; try lia.
  set (c := b :: bs) in *.
  unfold read_pending.
  destruct (Z.ltb_spec SSIZE_MAX remaining) as [|_]; [lia|].
  destruct (Z.leb_spec (Z.of_nat (length c)) remaining) as [Hle|Hgt]; cbv zeta; cbn [fst snd].
  - (* the whole batch is taken *)
    assert (Hc : 0 < Z.of_nat (length c)) by (subst c; simpl; lia).
    assert (Hcl : length c = S (length bs)) by reflexivity.
    destruct (Z.leb_spec (Z.of_nat (length c)) 0) as [|_]; [lia|].
    rewrite store_in_range by lia.
    rewrite length_app in Havail.
    rewrite uint64_small by lia.
    edestruct (IH (take (Z.to_nat ptr) buf ++ c ++ drop (Z.to_nat ptr + length c) buf)
                  (ptr + Z.of_nat (length c)) (remaining - Z.of_nat (length c))
                  (emit (EvRead REPRL_DRFD remaining (Z.of_nat (length c))) (set_drfd rest w)))
      as (w' & Hrun & Hpend & Hbytes & _ & Hframe).
    { world_simpl. simpl in Hn. lia. }
    { lia. }
    { lia. }
    { rewrite !length_app, length_take, length_drop. clearbody c. lia. }
    { world_simpl. lia. }
    exists w'. rewrite Hrun.
    world_simpl_in Hpend; world_simpl_in Hbytes; world_simpl_in Hframe; world_simpl.
    split; [|split; [|split; [|split]]].
    + f_equal.
      replace (Z.to_nat (ptr + Z.of_nat (length c))) with (Z.to_nat ptr + length c)%nat by lia.
      replace (Z.to_nat (remaining - Z.of_nat (length c)))
        with (Z.to_nat remaining - length c)%nat by lia.
      pose proof (fill_twice buf (Z.to_nat ptr) c
                    (take (Z.to_nat remaining - length c) (pending_bytes rest))) as F.
      cbv zeta in F.
      rewrite length_app, length_take in F.
      replace (length c + (Z.to_nat remaining - length c) `min` length (pending_bytes rest))%nat
        with (Z.to_nat remaining) in F by lia.
      replace ((Z.to_nat remaining - length c) `min` length (pending_bytes rest))%nat
        with (Z.to_nat remaining - length c)%nat in F by lia.
      replace (Z.to_nat ptr + length c + (Z.to_nat remaining - length c))%nat
        with (Z.to_nat ptr + Z.to_nat remaining)%nat in F by lia.
      replace (Z.to_nat ptr + length c + (Z.to_nat remaining - length c))%nat
        with (Z.to_nat ptr + Z.to_nat remaining)%nat by lia.
      rewrite F by lia.
      change (pending_bytes (Data c :: rest)) with (c ++ pending_bytes rest).
      rewrite take_app_ge by lia. reflexivity.
    + rewrite Hpend. change (pending_bytes (Data c :: rest)) with (c ++ pending_bytes rest).
      rewrite drop_app_ge by lia. f_equal. lia.
    + rewrite Hbytes, bytes_read_app. simpl.
      destruct (Z.ltb_spec 0 (Z.of_nat (length c))); [|lia].
      change (REPRL_DRFD =? REPRL_DRFD) with true. simpl. lia.
    + intros; lia.
    + exact Hframe.
  - (* the batch is longer than what is still missing *)
    destruct (Z.leb_spec remaining 0) as [|_]; [lia|].
    assert (Htl : length (take (Z.to_nat remaining) c) = Z.to_nat remaining)
      by (rewrite length_take; lia).
    rewrite store_in_range by lia.
    rewrite Z.sub_diag. change (uint64 0) with 0. rewrite receive_loop_done.
    eexists. split; [|split; [|split; [|split]]].
    + f_equal. rewrite Htl.
      change (pending_bytes (Data c :: rest)) with (c ++ pending_bytes rest).
      rewrite take_app_le by lia. reflexivity.
    + world_simpl.
      destruct (drop (Z.to_nat remaining) c) as [|b' bs'] eqn:Edrop.
      { apply (f_equal length) in Edrop. rewrite length_drop in Edrop.
        change (length (@nil Z)) with 0%nat in Edrop. lia. }
      change (pending_bytes (Data c :: rest)) with (c ++ pending_bytes rest).
      rewrite drop_app_le by lia. rewrite Edrop. reflexivity.
    + world_simpl. rewrite bytes_read_app. simpl.
      destruct (Z.ltb_spec 0 remaining); [|lia].
      change (REPRL_DRFD =? REPRL_DRFD) with true. simpl. lia.
    + intros; lia.
    + world_simpl. repeat split.
Qed.

(** When the pending input ends (end of file, empty read or error) before
    [remaining] bytes, or the count is one that read refuses, the loop
    meets a read whose result is not positive and leaves at once. *)
Lemma receive_loop_fatal n : forall buf ptr remaining w,
  (length (drfd w) < n)%nat ->
  0 <= ptr -> 0 < remaining <= SIZE_MAX ->
  SSIZE_MAX < remaining \/
    (ptr + remaining <= Z.of_nat (length buf) /\
     Z.of_nat (length (pending_bytes (drfd w))) < remaining) ->
  exists w' pre count rv,
    receive_loop n buf ptr remaining w = Exited (-1) w' /\
    rv <= 0 /\
    trace w' = pre ++ [EvRead REPRL_DRFD count rv; load_failed].
Proof.
  induction n as [|n IH]; intros buf ptr remaining w Hn Hptr Hrem Hcase; [lia|].
  assert (SM : SSIZE_MAX = 9223372036854775807) by reflexivity.
  assert (ZM : SIZE_MAX = 18446744073709551615) by reflexivity.
  rewrite receive_loop_step by lia.
  unfold read_pending.
  destruct (Z.ltb_spec SSIZE_MAX remaining) as [Hbig|Hsmall]; cbv zeta; cbn [fst snd].
  { eexists _, (trace w), remaining, (-1). split; [reflexivity|]. split; [lia|].
    world_simpl. rewrite <- app_assoc. reflexivity. }
  destruct Hcase as [|[Hfit Hshort]]; [lia|].
  destruct (drfd w) as [|[[|b bs]|] rest] eqn:Ed; cbv zeta; cbn [fst snd].
  - eexists _, (trace w), remaining, 0. split; [reflexivity|]. split; [lia|].
    world_simpl. rewrite <- app_assoc. reflexivity.
  - destruct (Z.leb_spec (Z.of_nat (length (@nil Z))) remaining) as [_|Hx];
      [|simpl in Hx; lia].
    cbn [fst snd length]. change (Z.of_nat 0 <=? 0) with true. cbv iota.
    eexists _, (trace w), remaining, 0. split; [reflexivity|]. split; [lia|].
    world_simpl. rewrite <- app_assoc. reflexivity.
  - set (c := b :: bs) in *.
    change (pending_bytes (Data c :: rest)) with (c ++ pending_bytes rest) in Hshort.
    rewrite length_app in Hshort.
    assert (Hc : 0 < Z.of_nat (length c)) by (subst c; simpl; lia).
    destruct (Z.leb_spec (Z.of_nat (length c)) remaining) as [_|]; [|lia].
    cbn [fst snd].
    destruct (Z.leb_spec (Z.of_nat (length c)) 0) as [|_]; [lia|].
    rewrite store_in_range by lia.
    rewrite uint64_small by lia.
    edestruct (IH (take (Z.to_nat ptr) buf ++ c ++ drop (Z.to_nat ptr + length c) buf)
                  (ptr + Z.of_nat (length c)) (remaining - Z.of_nat (length c))
                  (emit (EvRead REPRL_DRFD remaining (Z.of_nat (length c))) (set_drfd rest w)))
      as (w' & pre & count & rv & Hrun & Hrv & Htr).
    { world_simpl. simpl in Hn. lia. }
    { lia. }
    { lia. }
    { right. world_simpl. rewrite !length_app, length_take, length_drop. lia. }
    exists w', pre, count, rv. auto.
  - eexists _, (trace w), remaining, (-1). split; [reflexivity|]. split; [lia|].
    world_simpl. rewrite <- app_assoc. reflexivity.
Qed.

Lemma receive_loop_heap n : forall buf ptr remaining w,
  heap (world_of (receive_loop n buf ptr remaining w)) = heap w.
Proof.
  induction n as [|n IH]; intros buf ptr remaining w; cbn [receive_loop];
    destruct (remaining >? 0); try reflexivity.
  rewrite (bind_ok _ _ _ _ _ (sys_read_drfd _ _)). cbv zeta. cbn [fst snd].
  destruct ((read_pending remaining (drfd w)).1.1 <=? 0); [reflexivity|].
  destruct (store buf ptr (read_pending remaining (drfd w)).1.2); [|reflexivity].
  rewrite IH. reflexivity.
Qed.

Lemma malloc_grants_fits w size :
  malloc_grants w size = true -> size <= PTRDIFF_MAX.
Proof. unfold malloc_grants. intros H. apply andb_prop in H as [H _]. lia. Qed.

(** The payload stage once the allocation has been made. *)
Lemma receive_payload_run L w :
  receive_payload L w =
    (if negb (malloc_grants w (uint64 (L + 1))) && (0 <? uint64 (L + 1)) then fault
     else
       (script_src <- receive_loop (S (length (drfd w)))
                        (replicate (Z.to_nat (uint64 (L + 1))) 0) 0 L ;;
        match store script_src L [0] with
        | None => fault
        | Some script_src' => ret script_src'
        end))%proc (set_heap (tail (heap w)) w).
Proof.
  unfold receive_payload, bind at 1, sys_malloc.
  destruct (negb (malloc_grants w (uint64 (L + 1))) && (0 <? uint64 (L + 1)));
    reflexivity.
Qed.

(** A buffer of one byte or more that is refused: the null pointer goes to
    [memset]. *)
Lemma receive_payload_refused L w :
  0 <= L < SIZE_MAX ->
  malloc_grants w (uint64 (L + 1)) = false ->
  receive_payload L w = Fault (set_heap (tail (heap w)) w).
Proof.
  intros HL Hg.
  assert (ZM : SIZE_MAX = 18446744073709551615) by reflexivity.
  rewrite receive_payload_run, Hg, uint64_small by lia.
  replace (0 <? L + 1) with true by (symmetry; apply Z.ltb_lt; lia).
  reflexivity.
Qed.

(** No buffer of more than [PTRDIFF_MAX] bytes is handed out. *)
Lemma malloc_refuses_large w L :
  SSIZE_MAX <= L < SIZE_MAX -> malloc_grants w (uint64 (L + 1)) = false.
Proof.
  intros HL.
  assert (SM : SSIZE_MAX = 9223372036854775807) by reflexivity.
  assert (ZM : SIZE_MAX = 18446744073709551615) by reflexivity.
  assert (PM : PTRDIFF_MAX = 9223372036854775807) by reflexivity.
  unfold malloc_grants. rewrite uint64_small by lia.
  replace (L + 1 <=? PTRDIFF_MAX) with false by (symmetry; apply Z.leb_gt; lia).
  reflexivity.
Qed.



(** ** The status word *)

Lemma land_ff_range x : 0 <= Z.land x 0xff < 256.
Proof.
  change 0xff with (Z.ones 8). rewrite Z.land_ones by lia.
  apply Z.mod_pos_bound. lia.
Qed.

Lemma status_word_value result : status_word result = Z.land result 0xff * 256.
Proof. unfold status_word. rewrite Z.shiftl_mul_pow2 by lia. reflexivity. Qed.

Lemma status_word_bytes result :
  le_bytes 4 (status_word result) = [0; Z.land result 0xff; 0; 0].
Proof.
  pose proof (land_ff_range result) as Hb.
  rewrite status_word_value. cbn [le_bytes]. unfold uint8.
  rewrite !Z.shiftr_div_pow2 by lia. change (2 ^ 8) with 256.
  rewrite Z.mod_mul by lia.
  rewrite Z.div_mul by lia.
  rewrite (Z.mod_small (Z.land result 255) 256) by lia.
  rewrite (Z.div_small (Z.land result 255) 256) by lia.
  reflexivity.
Qed.

(** What lines 817-821 do, in one step. *)
Lemma send_status_run result w :
  send_status result w =
    let wr := next_write w 4 in
    let w1 := emit (EvWrite REPRL_CWFD [0; Z.land result 0xff; 0; 0] wr)
                   (set_cwfd (tail (cwfd w))
                             (emit (EvFlush stderr) (emit (EvFlush stdout) w))) in
    if wr =? 4
    then Ok tt (emit EvResetGuards (set_cov (reset_edgeguards (cov w)) w1))
    else Exited (-1) (emit status_failed w1).
Proof.
  unfold send_status, fflush.
  rewrite (bind_ok _ _ w tt (emit (EvFlush stdout) w)) by reflexivity.
  rewrite (bind_ok _ _ _ tt (emit (EvFlush stderr) (emit (EvFlush stdout) w))) by reflexivity.
  rewrite (bind_ok _ _ _ _ _ (sys_write_cwfd _ _)).
  rewrite status_word_bytes.
  change (Z.of_nat (length [0; Z.land result 255; 0; 0])) with 4.
  change (next_write (emit (EvFlush stderr) (emit (EvFlush stdout) w)) 4)
    with (next_write w 4).
  cbv zeta. destruct (next_write w 4 =? 4); reflexivity.
Qed.

(** Whatever the result of the payload, the four bytes written after the
    two flushes are those of [(result & 0xff) << 8]. *)
Lemma status_word_layout result w :
  (exists tl,
     trace (world_of (send_status result w)) =
       trace w ++ [EvFlush stdout; EvFlush stderr;
                   EvWrite REPRL_CWFD [0; Z.land result 0xff; 0; 0] (next_write w 4)]
               ++ tl) /\
  le_bytes 4 (status_word result) = [0; Z.land result 0xff; 0; 0] /\
  Z.land (status_word result) 0xff = 0 /\
  Z.land (Z.shiftr (status_word result) 8) 0xff = Z.land result 0xff /\
  (result = LUA_OK -> status_word result = 0) /\
  (0 < result < 256 -> status_word result <> 0).
Proof.
  pose proof (land_ff_range result) as Hb.
  split; [|split; [apply status_word_bytes|]].
  - rewrite send_status_run. cbv zeta.
    destruct (next_write w 4 =? 4); world_simpl; eexists;
      rewrite <- !app_assoc; reflexivity.
  - rewrite status_word_value.
    assert (Hx : Z.land result 0xff = result mod 256).
    { change 0xff with (Z.ones 8). apply Z.land_ones. lia. }
    remember (Z.land result 0xff) as x eqn:Ex.
    change 0xff with (Z.ones 8). rewrite !Z.land_ones by lia.
    rewrite Z.shiftr_div_pow2 by lia. change (2 ^ 8) with 256.
    rewrite Z.mod_mul, Z.div_mul by lia.
    split; [reflexivity|]. split; [apply Z.mod_small; lia|].
    split.
    + intros ->. subst x. reflexivity.
    + intros Hr. rewrite Hx, Z.mod_small by lia. lia.
Qed.

(** C1 as the claim has it fails: the payload [error('boom!')] raises an
    error (status 2, reported on stderr), and the word written back is
    0x0200, whose low byte is 0. *)
Lemma failed_payload_low_byte_is_zero :
  exists w',
    fuzz_iteration (RT := Toy.runtime) 1 ["lua"]
      (Toy.world (Toy.request Toy.boom) [Data (bytes_of_string Toy.boom)] []) = Ok tt w' /\
    trace w' =
      [EvRead REPRL_CRFD 4 4; EvRead REPRL_CRFD 8 8; EvRead REPRL_DRFD 14 14;
       EvLuaNew;
       EvPrint stderr "%s: " [ArgS (Some "lua")]; EvFlush stderr;
       EvPrint stderr ("%s" +:+ LF) [ArgS (Some "boom")]; EvFlush stderr;
       EvLuaClose; EvFlush stdout; EvFlush stderr;
       EvWrite REPRL_CWFD [0; 2; 0; 0] 4; EvResetGuards] /\
    nth 0 [0; 2; 0; 0] 0 = 0 /\
    Z.land (le_value [0; 2; 0; 0]) 0xff = 0.
Proof. eexists. split; [vm_compute; reflexivity|]. repeat split. Qed.

(** ** Steps that neither create nor close an interpreter state *)

Create HintDb live.

Lemma keeps_live_ret {A} (a : A) : keeps_live (ret a).
Proof. intros w. reflexivity. Qed.

Lemma keeps_live_bind {A B} (m : M A) (k : A -> M B) :
  keeps_live m -> (forall a, keeps_live (k a)) -> keeps_live (bind m k).
Proof.
  intros Hm Hk w. unfold bind. specialize (Hm w).
  destruct (m w) as [a w'| | | |]; simpl in Hm |- *; try exact Hm.
  rewrite (Hk a w'). exact Hm.
Qed.

Lemma keeps_live_ask {A} (f : World -> A) : keeps_live (ask f).
Proof. intros w. reflexivity. Qed.

Lemma keeps_live_emit e : keeps_live (act (emit e)).
Proof. intros w. reflexivity. Qed.

Lemma keeps_live_emits es : keeps_live (act (emits es)).
Proof. intros w. reflexivity. Qed.

Lemma keeps_live_print st fmt args : keeps_live (print st fmt args).
Proof. intros w. reflexivity. Qed.

Lemma keeps_live_fflush st : keeps_live (fflush st).
Proof. intros w. reflexivity. Qed.

Lemma keeps_live_return {A} c : keeps_live (@return_ A c).
Proof. intros w. reflexivity. Qed.

Lemma keeps_live_exit {A} c : keeps_live (@_exit A c).
Proof. intros w. reflexivity. Qed.

Lemma keeps_live_fault {A} : keeps_live (@fault A).
Proof. intros w. reflexivity. Qed.

Lemma keeps_live_sys_read fd count : keeps_live (sys_read fd count).
Proof.
  intros w. unfold sys_read.
  destruct (fd =? REPRL_CRFD); [reflexivity|].
  destruct (fd =? REPRL_DRFD); reflexivity.
Qed.

Lemma keeps_live_sys_write fd buf : keeps_live (sys_write fd buf).
Proof. intros w. unfold sys_write. destruct (fd =? REPRL_CWFD); reflexivity. Qed.

Lemma keeps_live_reset : keeps_live __sanitizer_cov_reset_edgeguards.
Proof. intros w. reflexivity. Qed.

#[export] Hint Resolve keeps_live_ret keeps_live_ask keeps_live_emit keeps_live_emits
  keeps_live_print keeps_live_fflush keeps_live_return keeps_live_exit
  keeps_live_fault keeps_live_sys_read keeps_live_sys_write keeps_live_reset : live.

(** Goes through the binds and the branches of a step and closes the
    leaves with the hints. *)
Ltac keeps_live_step :=
  repeat first
    [ solve [auto with live]
    | apply keeps_live_bind; [|intros ?]
    | match goal with
      | |- keeps_live (if ?c then _ else _) => destruct c
      | |- keeps_live (match ?x with _ => _ end) => destruct x
      end ].

Lemma keeps_live_CHECK c text : keeps_live (CHECK c text).
Proof. unfold CHECK. keeps_live_step. Qed.

Lemma keeps_live_receive_header : keeps_live receive_header.
Proof. unfold receive_header. pose proof keeps_live_CHECK. keeps_live_step. Qed.

Lemma keeps_live_receive_loop n : forall buf ptr remaining,
  keeps_live (receive_loop n buf ptr remaining).
Proof.
  induction n as [|n IH]; intros buf ptr remaining; cbn [receive_loop].
  - destruct (remaining >? 0); [intros w; reflexivity | auto with live].
  - keeps_live_step.
Qed.

Lemma keeps_live_receive_script : keeps_live receive_script.
Proof.
  unfold receive_script, receive_payload.
  pose proof keeps_live_receive_header. pose proof keeps_live_receive_loop.
  keeps_live_step.
Qed.

Lemma keeps_live_send_status result : keeps_live (send_status result).
Proof. unfold send_status. pose proof keeps_live_CHECK. keeps_live_step. Qed.

Section HarnessFacts.

Context {lua_State : Type} {RT : LuaRuntime lua_State}.

Lemma keeps_live_lost {A} out : keeps_live (@lost A out).
Proof. intros w. reflexivity. Qed.

Lemma keeps_live_l_message pname msg : keeps_live (l_message pname msg).
Proof. unfold l_message, lua_writestringerror. keeps_live_step. Qed.

Lemma keeps_live_report (L : lua_State) status : keeps_live (report L status).
Proof. unfold report. pose proof keeps_live_l_message. keeps_live_step. Qed.

Lemma keeps_live_docall (L : lua_State) narg nres : keeps_live (docall L narg nres).
Proof. unfold docall. pose proof @keeps_live_lost. keeps_live_step. Qed.

Lemma keeps_live_dochunk (r : Z * lua_State) : keeps_live (dochunk r).
Proof.
  unfold dochunk, call_loaded.
  pose proof keeps_live_docall. pose proof keeps_live_report. keeps_live_step.
Qed.

Lemma keeps_live_dostring (L : lua_State) s name : keeps_live (dostring L s name).
Proof. apply keeps_live_dochunk. Qed.

Lemma keeps_live_handle_luainit (L : lua_State) : keeps_live (handle_luainit L).
Proof.
  unfold handle_luainit, dofile, dostring. pose proof keeps_live_dochunk.
  apply keeps_live_bind; [auto with live|intros w0].
  destruct (if env w0 LUA_INITVARVERSION is None then env w0 LUA_INIT_VAR
            else env w0 LUA_INITVARVERSION) as [[|a s]|]; auto with live.
  destruct (Ascii.ascii_dec a "@") as [->|Hne]; [auto|].
  destruct a as [[] [] [] [] [] [] [] []]; auto; contradiction.
Qed.

Lemma keeps_live_l_print (L : lua_State) : keeps_live (l_print L).
Proof.
  unfold l_print. pose proof @keeps_live_lost. pose proof keeps_live_l_message.
  keeps_live_step.
Qed.

Lemma keeps_live_print_or_report (r : Z * lua_State) status :
  keeps_live (print_or_report r status).
Proof.
  unfold print_or_report.
  pose proof keeps_live_l_print. pose proof keeps_live_report. keeps_live_step.
Qed.

End HarnessFacts.

Lemma emit_as_emits e w : emit e w = emits [e] w.
Proof. reflexivity. Qed.

Lemma emits_emits es1 es2 w : emits es2 (emits es1 w) = emits (es1 ++ es2) w.
Proof. unfold emits. cbn. rewrite app_assoc. reflexivity. Qed.

Lemma bind_ok_inv {A B} (m : M A) (k : A -> M B) w b w' :
  bind m k w = Ok b w' -> exists a w1, m w = Ok a w1 /\ k a w1 = Ok b w'.
Proof.
  unfold bind. destruct (m w) as [a w1| | | |]; intros E; try discriminate.
  exists a, w1. auto.
Qed.

Lemma keeps_live_ok {A} (m : M A) w a w' :
  keeps_live m -> m w = Ok a w' -> live w' = live w.
Proof. intros Hm E. specialize (Hm w). rewrite E in Hm. exact Hm. Qed.

Section LoopFacts.

Context {lua_State : Type} {RT : LuaRuntime lua_State}.

Lemma create_state_live argc argv script w (L : lua_State) w' :
  create_state argc argv script w = Ok L w' -> live w' = S (live w).
Proof.
  unfold create_state. destruct luaL_newstate as [L0|].
  - intros E.
    apply bind_ok_inv in E as (? & w1 & E1 & E).
    apply bind_ok_inv in E as (r & w2 & E2 & E).
    apply (keeps_live_ok _ _ _ _ (keeps_live_handle_luainit _)) in E2.
    injection E1 as Hw1. subst w1.
    destruct (negb (r.1 =? LUA_OK)); [discriminate|].
    injection E as _ Hw'. subst w'. rewrite E2. reflexivity.
  - intros E. apply bind_ok_inv in E as (? & w1 & _ & E). discriminate.
Qed.

Lemma execute_live (L : lua_State) src w result w' :
  execute L src w = Ok result w' -> live w' = pred (live w).
Proof.
  unfold execute. intros E.
  apply bind_ok_inv in E as (r & w1 & E1 & E).
  apply bind_ok_inv in E as (L2 & w2 & E2 & E).
  apply bind_ok_inv in E as (? & w3 & E3 & E).
  apply (keeps_live_ok _ _ _ _ (keeps_live_dostring _ _ _)) in E1.
  apply (keeps_live_ok _ _ _ _ (keeps_live_print_or_report _ _)) in E2.
  injection E3 as Hw3. subst w3. injection E as _ Hw'. subst w'.
  world_simpl. congruence.
Qed.

(** An iteration that reaches its end has closed the state it created. *)
Lemma fuzz_iteration_live argc argv w w' :
  fuzz_iteration (RT := RT) argc argv w = Ok tt w' -> live w' = live w.
Proof.
  unfold fuzz_iteration. intros E.
  apply bind_ok_inv in E as (src & w1 & E1 & E).
  apply bind_ok_inv in E as (L & w2 & E2 & E).
  apply bind_ok_inv in E as (result & w3 & E3 & E).
  apply (keeps_live_ok _ _ _ _ keeps_live_receive_script) in E1.
  apply create_state_live in E2. apply execute_live in E3.
  apply (keeps_live_ok _ _ _ _ (keeps_live_send_status _)) in E.
  rewrite E, E3, E2, E1. reflexivity.
Qed.

Lemma fuzz_loop_live n : forall argc argv w w',
  fuzz_loop (RT := RT) n argc argv w = Ok tt w' -> live w' = live w.
Proof.
  induction n as [|n IH]; intros argc argv w w' E; cbn [fuzz_loop] in E.
  - injection E as Hw'. subst w'. reflexivity.
  - apply bind_ok_inv in E as ([] & w1 & E1 & E).
    apply fuzz_iteration_live in E1. apply IH in E. congruence.
Qed.

(** Lines 807-821 once the payload has returned and its results or its
    error have been handled. *)
Lemma execute_and_respond (L : lua_State) src w r w1 L2 w2 :
  dostring L src "chunk" w = Ok r w1 ->
  print_or_report r 0 w1 = Ok L2 w2 ->
  bind (execute L src) send_status w =
    send_status r.1
      (emit EvLuaClose (set_live (pred (live w2)) (emits (lua_close L2) w2))).
Proof.
  intros E1 E2. unfold execute, bind.
  rewrite E1. cbv beta iota. rewrite E2. reflexivity.
Qed.

Lemma execute_result (L : lua_State) src w result w' :
  execute L src w = Ok result w' ->
  exists r w1 L2 w2,
    dostring L src "chunk" w = Ok r w1 /\
    print_or_report r 0 w1 = Ok L2 w2 /\
    result = r.1 /\
    w' = emit EvLuaClose (set_live (pred (live w2)) (emits (lua_close L2) w2)).
Proof.
  unfold execute. intros E.
  apply bind_ok_inv in E as (r & w1 & E1 & E).
  apply bind_ok_inv in E as (L2 & w2 & E2 & E).
  apply bind_ok_inv in E as (? & w3 & E3 & E).
  injection E3 as Hw3. injection E as Hr Hw'. subst.
  exists r, w1, L2, w2. auto.
Qed.

(** C1, as the code has it: whatever the result of the payload, the four
    bytes written after the two flushes are those of
    [(result & 0xff) << 8]: the low byte is 0 and the second byte is the low
    byte of the result, so the word is 0 for LUA_OK and nonzero for every
    status from 1 to 255; and every iteration that reaches its end has
    written that word for the status [dostring] gave for its payload. *)
Theorem status_word_carries_result_in_second_byte result w :
  (exists tl,
     trace (world_of (send_status result w)) =
       trace w ++ [EvFlush stdout; EvFlush stderr;
                   EvWrite REPRL_CWFD [0; Z.land result 0xff; 0; 0] (next_write w 4)]
               ++ tl) /\
  le_bytes 4 (status_word result) = [0; Z.land result 0xff; 0; 0] /\
  Z.land (status_word result) 0xff = 0 /\
  Z.land (Z.shiftr (status_word result) 8) 0xff = Z.land result 0xff /\
  (result = LUA_OK -> status_word result = 0) /\
  (0 < result < 256 -> status_word result <> 0) /\
  (forall argc argv w0 w',
     fuzz_iteration (RT := RT) argc argv w0 = Ok tt w' ->
     exists (L : lua_State) src w1 r w2 w3,
       dostring L src "chunk" w1 = Ok r w2 /\
       execute L src w1 = Ok r.1 w3 /\
       trace w' = trace w3 ++
                  [EvFlush stdout; EvFlush stderr;
                   EvWrite REPRL_CWFD [0; Z.land r.1 0xff; 0; 0] 4; EvResetGuards]).
Proof.
  destruct (status_word_layout result w) as (H1 & H2 & H3 & H4 & H5 & H6).
  repeat (split; [assumption|]).
  intros argc argv w0 w' E. unfold fuzz_iteration in E.
  apply bind_ok_inv in E as (src & wa & _ & E).
  apply bind_ok_inv in E as (L & w1 & _ & E).
  apply bind_ok_inv in E as (res & w3 & Eexec & E).
  destruct (execute_result _ _ _ _ _ Eexec) as (r & w2 & _ & _ & Edo & _ & -> & _).
  rewrite send_status_run in E. cbv zeta in E.
  destruct (Z.eqb_spec (next_write w3 4) 4) as [Hw|]; [|discriminate].
  injection E as E. subst w'. rewrite Hw.
  exists L, src, w1, r, w2, w3. split; [exact Edo|]. split; [exact Eexec|].
  world_simpl. rewrite <- !app_assoc. reflexivity.
Qed.

(** C6: once the payload has returned, with or without error, the state
    is closed, then stdout and stderr are flushed, then the status word is
    written, and only then are the guards reset (a write that fails ends
    the process instead); the count of live states goes down by one, and
    an iteration that reaches its end leaves as many live states as it
    found, so none is carried into the next one. *)
Theorem state_closed_before_status_before_reset (L : lua_State) src w r w1 L2 w2 :
  dostring L src "chunk" w = Ok r w1 ->
  print_or_report r 0 w1 = Ok L2 w2 ->
  let wr := next_write w2 4 in
  let closing :=
    lua_close L2 ++ [EvLuaClose; EvFlush stdout; EvFlush stderr;
                     EvWrite REPRL_CWFD (le_bytes 4 (status_word r.1)) wr] in
  let run := bind (execute L src) send_status w in
  (wr = 4 ->
     exists w', run = Ok tt w' /\
                trace w' = trace w2 ++ closing ++ [EvResetGuards] /\
                live w' = pred (live w2) /\
                cov w' = reset_edgeguards (cov w2)) /\
  (wr <> 4 ->
     exists w', run = Exited (-1) w' /\
                trace w' = trace w2 ++ closing ++ [status_failed] /\
                live w' = pred (live w2)) /\
  (forall argc argv w0 w0',
     fuzz_iteration (RT := RT) argc argv w0 = Ok tt w0' ->
     live w0' = live w0 /\
     exists pre (L' : lua_State) result,
       trace w0' = pre ++ lua_close L' ++
                   [EvLuaClose; EvFlush stdout; EvFlush stderr;
                    EvWrite REPRL_CWFD (le_bytes 4 (status_word result)) 4;
                    EvResetGuards]).
Proof.
  intros E1 E2 wr closing run. subst run closing.
  rewrite (execute_and_respond L src w r w1 L2 w2 E1 E2).
  rewrite send_status_run, status_word_bytes. cbv zeta.
  change (next_write (emit EvLuaClose _) 4) with wr.
  split; [|split].
  - intros Hw. apply Z.eqb_eq in Hw. rewrite Hw. eexists.
    split; [reflexivity|]. world_simpl.
    split; [|split; reflexivity].
    rewrite <- !app_assoc. reflexivity.
  - intros Hw. apply Z.eqb_neq in Hw. rewrite Hw. eexists.
    split; [reflexivity|]. world_simpl.
    split; [|reflexivity].
    rewrite <- !app_assoc. reflexivity.
  - intros argc argv w0 w0' E. split; [exact (fuzz_iteration_live _ _ _ _ E)|].
    unfold fuzz_iteration in E.
    apply bind_ok_inv in E as (src' & wa & _ & E).
    apply bind_ok_inv in E as (La & wb & _ & E).
    apply bind_ok_inv in E as (res & wc & Eexec & E).
    destruct (execute_result _ _ _ _ _ Eexec) as (r' & wd & L' & we & _ & _ & _ & ->).
    rewrite send_status_run in E. cbv zeta in E.
    destruct (Z.eqb_spec (next_write (emit EvLuaClose
                (set_live (pred (live we)) (emits (lua_close L') we))) 4) 4) as [Hw|];
      [|discriminate].
    injection E as E. subst w0'. rewrite Hw.
    exists (trace we), L', res. rewrite status_word_bytes.
    world_simpl. rewrite <- !app_assoc. reflexivity.
Qed.

Lemma l_message_run p msg w :
  l_message (Some p) msg w =
    Ok tt (emits [EvPrint stderr "%s: " [ArgS (Some p)]; EvFlush stderr;
                  EvPrint stderr ("%s" +:+ LF) [ArgS msg]; EvFlush stderr] w).
Proof.
  unfold l_message, lua_writestringerror, print, fflush, bind, act.
  cbv beta iota. rewrite !emit_as_emits, !emits_emits. reflexivity.
Qed.

End LoopFacts.

(** ** The theorems above at concrete runs *)

Lemma state_closed_before_status_before_reset_witness :
  exists w',
    bind (execute (RT := Toy.runtime) [] (bytes_of_string Toy.sum ++ [0])) send_status
         (set_live 1 (Toy.world [] [] [])) = Ok tt w' /\
    trace w' = [EvLuaOut stdout "2"; EvLuaClose; EvFlush stdout; EvFlush stderr;
                EvWrite REPRL_CWFD [0; 0; 0; 0] 4; EvResetGuards] /\
    live w' = 0%nat.
Proof.
  edestruct (state_closed_before_status_before_reset (RT := Toy.runtime)
               [] (bytes_of_string Toy.sum ++ [0]) (set_live 1 (Toy.world [] [] [])))
    as [Hok _]; [reflexivity | reflexivity | ].
  destruct Hok as (w' & Hrun & Htr & Hlive & _); [reflexivity|].
  exists w'. split; [exact Hrun|]. split; [exact Htr | exact Hlive].
Defined.

(** ** Reports of failed payloads *)

Section Reports.

Context {lua_State : Type} {RT : LuaRuntime lua_State}.

(** The contract of the library on which the report of an error rests
    (lua.h and lauxlib.h are not part of the harness file): [luaL_traceback]
    pushes the message followed by a traceback; a value of type string has a
    text; a load that fails leaves a message; and a call that fails leaves
    as its message what the message handler installed at [msgh] returned for
    the error object (its one result, read after the handler slot is
    removed) when the status is one for which the library runs the handler
    ([runs_handler]: the status of a runtime error), and a message of the
    library's own for the others (no memory, an error inside the
    handler). *)
Variable traceback_text : lua_State -> Z -> string.

Variable runs_handler : Z -> bool.

Hypothesis traceback_pushes : forall (L : lua_State) msg level,
  lua_tostring (luaL_traceback L (Some msg) level) (-1) =
    Some (msg +:+ traceback_text L level).

Hypothesis string_has_text : forall (L : lua_State) i,
  lua_type L i = LUA_TSTRING -> exists s, lua_tostring L i = Some s.

Hypothesis failed_load_leaves_message : forall (L : lua_State) src name,
  (luaL_loadbuffer L src name).1 <> LUA_OK ->
  exists msg, lua_tostring (luaL_loadbuffer L src name).2 (-1) = Some msg.

Hypothesis failed_call_leaves_message :
  forall (L0 : lua_State) (h : lua_CFunction lua_State) narg nres status L' out,
    lua_pcall (lua_insert (lua_pushcfunction L0 h) (lua_gettop L0 - narg))
              narg nres (lua_gettop L0 - narg) = PcallReturns status L' out ->
    status <> LUA_OK ->
    if runs_handler status
    then exists Le n Lh,
           h Le = Some (n, Lh) /\
           (n = 1 -> lua_tostring (lua_remove L' (lua_gettop L0 - narg)) (-1) =
                     lua_tostring Lh (-1))
    else exists msg,
           lua_tostring (lua_remove L' (lua_gettop L0 - narg)) (-1) = Some msg.

(** [msghandler] returns one value, a string, for every error object: the
    text of the object followed by a traceback when the object is a string;
    what its [__tostring] metamethod produced when that is a string; and
    otherwise the text that names the type of the object, followed by a
    traceback. *)
Lemma msghandler_gives_a_string (Le : lua_State) :
  exists Lh s,
    msghandler Le = Some (1, Lh) /\
    lua_tostring Lh (-1) = Some s /\
    (forall m, lua_tostring Le 1 = Some m ->
       Lh = luaL_traceback Le (Some m) 1 /\ s = m +:+ traceback_text Le 1) /\
    (lua_tostring Le 1 = None ->
     let r := luaL_callmeta Le 1 "__tostring" in
     if negb (r.1 =? 0) && (lua_type r.2 (-1) =? LUA_TSTRING)
     then Lh = r.2
     else
       let m := lua_pushfstring r.2 "(error object is a %s value)"
                                [ArgS (Some (luaL_typename r.2 1))] in
       Lh = luaL_traceback m.2 (Some m.1) 1 /\ s = m.1 +:+ traceback_text m.2 1).
Proof.
  unfold msghandler. destruct (lua_tostring Le 1) as [msg|] eqn:Emsg.
  - eexists _, _. split; [reflexivity|]. split; [apply traceback_pushes|].
    split; [intros m [= <-]; split; reflexivity|discriminate].
  - destruct (negb ((luaL_callmeta Le 1 "__tostring").1 =? 0) &&
              (lua_type (luaL_callmeta Le 1 "__tostring").2 (-1) =? LUA_TSTRING)) eqn:Emeta.
    + pose proof Emeta as Emeta'.
      apply andb_prop in Emeta' as [_ Ety]. apply Z.eqb_eq in Ety.
      destruct (string_has_text _ _ Ety) as [s Hs].
      exists (luaL_callmeta Le 1 "__tostring").2, s.
      split; [reflexivity|]. split; [exact Hs|]. split; [discriminate|].
      intros _. reflexivity.
    + eexists _, _. split; [reflexivity|]. split; [apply traceback_pushes|].
      split; [discriminate|]. intros _. split; reflexivity.
Qed.

(** A payload that ends with a status other than LUA_OK leaves a message on
    top of the stack; after a load that succeeded and with a status for
    which the library runs the handler, the message is what [msghandler]
    made of the error object. *)
Lemma failed_payload_leaves_message (L : lua_State) src w r w1 :
  call_loaded (luaL_loadbuffer L src "chunk") w = Ok r w1 ->
  r.1 <> LUA_OK ->
  exists msg,
    lua_tostring r.2 (-1) = Some msg /\
    ((luaL_loadbuffer L src "chunk").1 = LUA_OK -> runs_handler r.1 = true ->
     exists Le Lh, msghandler Le = Some (1, Lh) /\ lua_tostring Lh (-1) = Some msg).
Proof.
  unfold call_loaded.
  destruct ((luaL_loadbuffer L src "chunk").1 =? LUA_OK) eqn:Eload.
  - unfold docall.
    destruct (lua_pcall _ 0 0 _) as [status L' out|out] eqn:Ecall;
      proc_unfold; [|discriminate].
    intros [= <- <-] Hfail. cbn [fst snd] in *.
    pose proof (failed_call_leaves_message _ _ _ _ _ _ _ Ecall Hfail) as Hc.
    destruct (runs_handler status) eqn:Hrun.
    + destruct Hc as (Le & n & Lh & Hh & Hres).
      destruct (msghandler_gives_a_string Le) as (Lh' & s & Hh' & Hs & _).
      rewrite Hh' in Hh. injection Hh as <- <-.
      exists s. split; [rewrite (Hres eq_refl); exact Hs|].
      intros _ _. exists Le, Lh'. split; [exact Hh'|exact Hs].
    + destruct Hc as [msg Hmsg]. exists msg. split; [exact Hmsg|]. discriminate.
  - intros [= <- <-] Hfail.
    destruct (failed_load_leaves_message _ _ _ Hfail) as [msg Hmsg].
    exists msg. split; [exact Hmsg|].
    intros Hok. apply Z.eqb_neq in Eload. contradiction.
Qed.


End Reports.

(** The runtime that runs the message handler keeps the contract. *)
Section HandledContract.

#[local] Existing Instance Handled.runtime.

Lemma handled_traceback_pushes (L : Handled.state) msg (level : Z) :
  lua_tostring (luaL_traceback L (Some msg) level) (-1) =
    Some (msg +:+ Handled.traceback).
Proof.
  cbn. unfold Handled.to_string, Handled.top_text. cbn.
  rewrite last_snoc. reflexivity.
Qed.

Lemma handled_string_has_text (L : Handled.state) i :
  lua_type L i = LUA_TSTRING -> exists s, lua_tostring L i = Some s.
Proof.
  cbn. destruct (Handled.to_string L i) as [s|]; [eauto|discriminate].
Qed.

Lemma handled_failed_load_leaves_message (L : Handled.state) src (name : string) :
  (luaL_loadbuffer L src name).1 <> LUA_OK ->
  exists msg, lua_tostring (luaL_loadbuffer L src name).2 (-1) = Some msg.
Proof.
  cbn. unfold Handled.load.
  repeat case_match; cbn; intros Hne; try (exfalso; apply Hne; reflexivity).
  unfold Handled.to_string, Handled.top_text. cbn. rewrite last_snoc. eauto.
Qed.

Lemma handled_top_after_remove rpre hslot x :
  Handled.top_text
    (delete (Toy.pos (reverse rpre ++ [hslot; x]) (Z.of_nat (length rpre) + 1))
            (reverse rpre ++ [hslot; x])) =
  Handled.top_text [x].
Proof.
  unfold Toy.pos.
  replace (Z.of_nat (length rpre) + 1 <? 0) with false by (symmetry; apply Z.ltb_ge; lia).
  replace (Z.to_nat (Z.of_nat (length rpre) + 1 - 1))
    with (length (reverse rpre)) by (rewrite length_reverse; lia).
  rewrite delete_middle. unfold Handled.top_text.
  change (reverse rpre ++ [x]) with (reverse rpre ++ [x]).
  rewrite last_snoc. reflexivity.
Qed.

Lemma handled_failed_call_leaves_message
    (L0 : Handled.state) (h : lua_CFunction Handled.state) narg nres status L' out :
  lua_pcall (lua_insert (lua_pushcfunction L0 h) (lua_gettop L0 - narg))
            narg nres (lua_gettop L0 - narg) = PcallReturns status L' out ->
  status <> LUA_OK ->
  if status =? 2
  then exists Le n Lh,
         h Le = Some (n, Lh) /\
         (n = 1 -> lua_tostring (lua_remove L' (lua_gettop L0 - narg)) (-1) =
                   lua_tostring Lh (-1))
  else exists msg,
         lua_tostring (lua_remove L' (lua_gettop L0 - narg)) (-1) = Some msg.
Proof.
  cbn [lua_pcall lua_insert lua_pushcfunction lua_gettop lua_remove lua_tostring
       Handled.runtime].
  unfold Handled.pcall, Handled.pushcfunction.
  cbn [Handled.stack Handled.handler].
  destruct (reverse (Toy.insert_top (Handled.stack L0 ++ [Toy.SOther])
                                    (Z.of_nat (length (Handled.stack L0)) - narg)))
    as [|top rest] eqn:Estk.
  { intros [= <- <- <-] Hne. exfalso. apply Hne. reflexivity. }
  destruct top as [s|[|c src]|];
    try (intros [= <- <- <-] Hne; exfalso; apply Hne; reflexivity).
  destruct (c =? 101) eqn:Ec.
  2:{ destruct c as [|p|p]; try discriminate Ec;
        try (intros [= <- <- <-] Hne; exfalso; apply Hne; reflexivity).
      repeat (destruct p as [p|p|]; try discriminate Ec;
        try (destruct (Z.pos _ =? 112); intros [= <- <- <-] Hne; exfalso; apply Hne; reflexivity);
        try (intros [= <- <- <-] Hne; exfalso; apply Hne; reflexivity)). }
  apply Z.eqb_eq in Ec. subst c.
  destruct rest as [|hslot rpre];
    [intros [= <- <- <-] Hne; exfalso; apply Hne; reflexivity|].
  destruct (Z.of_nat (length (Handled.stack L0)) - narg =? Z.of_nat (length rpre) + 1) eqn:Eb;
    [|intros [= <- <- <-] Hne; exfalso; apply Hne; reflexivity].
  apply Z.eqb_eq in Eb.
  destruct (h (Handled.State [Toy.SStr "boom"] None)) as [[n Lh]|] eqn:Eh; [|discriminate].
  intros [= <- <- <-] _. change (2 =? 2) with true. cbv iota.
  exists (Handled.State [Toy.SStr "boom"] None), n, Lh. split; [exact Eh|].
  intros _. unfold Handled.to_string. cbn [Z.eqb Handled.stack]. rewrite Eb.
  change (Z.opp 1 =? -1) with true. cbv iota.
  rewrite handled_top_after_remove. unfold Handled.top_text.
  destruct (last (Handled.stack Lh)) as [[s| |]|]; reflexivity.
Qed.

End HandledContract.


(** The header stage reads the control pipe only. *)
Lemma receive_header_leaves_data_pipe w n w1 :
  receive_header w = Ok n w1 -> drfd w1 = drfd w.
Proof.
  unfold receive_header. intros E.
  apply bind_ok_inv in E as (r & wa & E1 & E).
  rewrite sys_read_crfd in E1. injection E1 as Hr Hwa.
  apply bind_ok_inv in E as (? & wb & E2 & E).
  assert (Hb : drfd wb = drfd wa).
  { unfold CHECK in E2. destruct (r.1 =? 4).
    - injection E2 as Hwb. subst wb. reflexivity.
    - apply bind_ok_inv in E2 as (? & ? & _ & E2). discriminate. }
  destruct (le_value r.2 =? cexe).
  - apply bind_ok_inv in E as (r' & wc & E3 & E).
    rewrite sys_read_crfd in E3. injection E3 as Hr' Hwc.
    apply bind_ok_inv in E as (? & wd & E4 & E).
    assert (Hd : drfd wd = drfd wc).
    { unfold CHECK in E4. destruct (r'.1 =? 8).
      - injection E4 as Hwd. subst wd. reflexivity.
      - apply bind_ok_inv in E4 as (? & ? & _ & E4). discriminate. }
    injection E as _ Hw1. subst w1 wc wa. rewrite Hd. world_simpl. rewrite Hb. reflexivity.
  - apply bind_ok_inv in E as (? & ? & _ & E). discriminate.
Qed.

(** ** The request without a payload *)

Section EmptyPayload.

Context {lua_State : Type} {RT : LuaRuntime lua_State}.

(** C10: a request that declares length 0 makes the payload stage return
    the one-byte buffer holding the terminator, once its one byte is
    allocated, with no event and no read on the data pipe; the iteration
    then loads the chunk of no bytes and calls it under the message handler,
    and when the library loads and runs that chunk with LUA_OK and the
    answer can be written, it writes the all-zero status word after what
    the call printed, and the loop goes on. *)
Theorem empty_payload_runs_without_reading
    argc argv w w1 (L : lua_State) w2 L1 L2 out L3 w4 :
  receive_header w = Ok 0 w1 ->
  malloc_grants w1 1 = true ->
  create_state argc argv 0 (set_heap (tail (heap w1)) w1) = Ok L w2 ->
  luaL_loadbuffer L [] "chunk" = (LUA_OK, L1) ->
  lua_pcall (lua_insert (lua_pushcfunction L1 msghandler) (lua_gettop L1 - 0))
            0 0 (lua_gettop L1 - 0) = PcallReturns LUA_OK L2 out ->
  l_print (lua_remove L2 (lua_gettop L1 - 0)) (emits out w2) = Ok L3 w4 ->
  next_write w4 4 = 4 ->
  let wp := set_heap (tail (heap w1)) w1 in
  receive_payload 0 w1 = Ok [0] wp /\
  receive_script w = Ok [0] wp /\
  trace wp = trace w1 /\
  drfd wp = drfd w /\
  dostring L [0] "chunk" w2 =
    Ok (LUA_OK, lua_remove L2 (lua_gettop L1 - 0)) (emits out w2) /\
  exists w',
    fuzz_iteration argc argv w = Ok tt w' /\
    trace w' = trace w4 ++ lua_close L3 ++
               [EvLuaClose; EvFlush stdout; EvFlush stderr;
                EvWrite REPRL_CWFD [0; 0; 0; 0] 4; EvResetGuards] /\
    forall n, fuzz_loop (S n) argc argv w = fuzz_loop n argc argv w'.
Proof.
  intros Ehdr Hheap Enew Eload Ecall Eprint Hw wp.
  assert (Epay : receive_payload 0 w1 = Ok [0] wp).
  { unfold receive_payload, sys_malloc, bind.
    change (uint64 (0 + 1)) with 1. rewrite Hheap. reflexivity. }
  assert (Erecv : receive_script w = Ok [0] wp).
  { unfold receive_script. rewrite (bind_ok _ _ _ _ _ Ehdr). exact Epay. }
  assert (Edo : dostring L [0] "chunk" w2 =
                Ok (LUA_OK, lua_remove L2 (lua_gettop L1 - 0)) (emits out w2)).
  { unfold dostring, dochunk.
    change (take (Z.to_nat (strlen [0])) [0]) with (@nil Z).
    rewrite Eload. unfold call_loaded. cbn [fst snd].
    change (LUA_OK =? LUA_OK) with true. cbv iota.
    unfold docall. cbv zeta. rewrite Ecall. proc_unfold. reflexivity. }
  assert (Epr : print_or_report (LUA_OK, lua_remove L2 (lua_gettop L1 - 0)) 0 (emits out w2)
                = Ok L3 w4).
  { unfold print_or_report. exact Eprint. }
  pose proof (execute_and_respond L [0] w2 _ _ _ _ Edo Epr) as Erun.
  rewrite send_status_run in Erun. cbv zeta in Erun.
  change (next_write (emit EvLuaClose _) 4) with (next_write w4 4) in Erun.
  rewrite Hw in Erun. change (4 =? 4) with true in Erun. cbv iota in Erun.
  cbn [fst] in Erun.
  assert (Eit : fuzz_iteration argc argv w =
                bind (execute L [0]) send_status w2).
  { unfold fuzz_iteration.
    rewrite (bind_ok _ _ _ _ _ Erecv), (bind_ok _ _ _ _ _ Enew). reflexivity. }
  rewrite Erun in Eit.
  split; [exact Epay|]. split; [exact Erecv|]. split; [reflexivity|].
  split; [exact (receive_header_leaves_data_pipe _ _ _ Ehdr)|].
  split; [exact Edo|].
  eexists. split; [exact Eit|]. split.
  - world_simpl. rewrite <- !app_assoc. reflexivity.
  - intros n. cbn [fuzz_loop].
    apply (bind_ok (fuzz_iteration argc argv) (fun _ => fuzz_loop n argc argv) w tt).
    exact Eit.
Qed.

End EmptyPayload.

Lemma empty_payload_runs_without_reading_witness :
  exists w',
    fuzz_iteration (RT := Toy.runtime) 1 ["lua"] (Toy.world (Toy.request "") [] []) = Ok tt w' /\
    dostring (RT := Toy.runtime) [] [0] "chunk" (Toy.world [] [] []) =
      Ok (0, []) (Toy.world [] [] []) /\
    trace w' = [EvRead REPRL_CRFD 4 4; EvRead REPRL_CRFD 8 8; EvLuaNew; EvLuaClose;
                EvFlush stdout; EvFlush stderr;
                EvWrite REPRL_CWFD [0; 0; 0; 0] 4; EvResetGuards].
Proof.
  edestruct (empty_payload_runs_without_reading (RT := Toy.runtime)
               1 ["lua"] (Toy.world (Toy.request "") [] []))
    as (_ & _ & _ & _ & _ & w' & Hrun & Htr & _);
    [vm_compute; reflexivity | reflexivity | vm_compute; reflexivity
    | reflexivity | reflexivity | vm_compute; reflexivity | reflexivity | ].
  exists w'. split; [exact Hrun|]. split; [reflexivity | exact Htr].
Defined.

(** ** The command line *)

Lemma char_at_lt s : forall k c,
  char_at s k = Some c -> c <> NUL -> (k < String.length s)%nat.
Proof.
  induction s as [|x s IH]; intros [|k] c H Hc.
  - cbn in H. congruence.
  - cbn in H. discriminate.
  - cbn. lia.
  - cbn. apply Nat.succ_lt_mono with (n := k), (IH k c); [|exact Hc].
    exact H.
Qed.

Lemma char_at_le s : forall k,
  (k <= String.length s)%nat -> exists c, char_at s k = Some c.
Proof.
  induction s as [|x s IH]; intros [|k] Hk; cbn in Hk.
  - eexists; reflexivity.
  - lia.
  - eexists; reflexivity.
  - apply (IH k). lia.
Qed.

Lemma char_at_next s k c :
  char_at s k = Some c -> c <> NUL -> exists c', char_at s (S k) = Some c'.
Proof.
  intros H Hc. apply char_at_le. apply (char_at_lt s k c H Hc).
Qed.

(** One argument taken apart far enough for every read of [collectargs]
    and [runargs] to compute. *)
Ltac split_argument a :=
  let c0 := fresh "c0" in
  let c1 := fresh "c1" in
  let c2 := fresh "c2" in
  let a3 := fresh "a3" in
  destruct a as [|c0 [|c1 [|c2 a3]]].

Ltac split_chars :=
  repeat match goal with
         | |- context [Ascii.eqb ?x ?y] =>
             destruct (Ascii.eqb_spec x y);
             [ try (exfalso; unfold NUL, Ascii.zero in *; congruence); subst
             | try (exfalso; congruence) ];
             cbn [negb orb andb]
         end.

Lemma collectargs_from_total n : forall rest i args,
  (length rest <= n)%nat ->
  exists r first,
    collectargs_from rest i args = Some (r, first) /\
    (i <= first <= i + length rest)%nat.
Proof.
  induction n as [|n IH]; intros rest i args Hn.
  - destruct rest; [|cbn in Hn; lia]. exists args, i. split; [reflexivity|cbn; lia].
  - destruct rest as [|a rest]; [exists args, i; split; [reflexivity|cbn; lia]|].
    cbn [length] in Hn.
    assert (Hrec : forall args', exists r first,
               collectargs_from rest (S i) args' = Some (r, first) /\
               (i <= first <= i + length (a :: rest))%nat).
    { intros args'. destruct (IH rest (S i) args') as (r & f & E & Hf); [lia|].
      exists r, f. split; [exact E|cbn [length]; lia]. }
    assert (Hrec2 : forall b rest'' args', rest = b :: rest'' -> exists r first,
               collectargs_from rest'' (S (S i)) args' = Some (r, first) /\
               (i <= first <= i + length (a :: rest))%nat).
    { intros b rest'' args' ->. cbn [length] in Hn.
      destruct (IH rest'' (S (S i)) args') as (r & f & E & Hf); [lia|].
      exists r, f. split; [exact E|cbn [length]; lia]. }
    assert (Hstop : forall (r : Z) (k : nat), (i <= k <= S i)%nat -> exists r' first,
               Some (r, k) = Some (r', first) /\
               (i <= first <= i + length (a :: rest))%nat).
    { intros r k Hk. exists r, k. split; [reflexivity|cbn [length]; lia]. }
    split_argument a; cbn [collectargs_from char_at String.get String.length Nat.eqb mbind option_bind];
      split_chars; try discriminate;
      try (apply Hstop; lia); try apply Hrec.
    all: destruct rest as [|b rest'']; [apply Hstop; lia|].
    all: destruct b as [|b0 b']; cbn [char_at String.get String.length Nat.eqb mbind option_bind];
      split_chars; try (apply Hstop; lia); try (eapply Hrec2; reflexivity).
Qed.

Lemma below_64 (P : Z -> bool) :
  forallb P (map Z.of_nat (seq 0 64)) = true ->
  forall m, 0 <= m < 64 -> P m = true.
Proof.
  intros H m Hm. rewrite forallb_forall in H. apply H.
  apply in_map_iff. exists (Z.to_nat m). split; [lia|].
  apply in_seq. lia.
Qed.

Lemma mask_ok_range m : mask_ok m = true -> 0 <= m < 64.
Proof. unfold mask_ok. intros H. repeat (apply andb_prop in H as [H ?]). lia. Qed.

Lemma mask_ok_lor m k :
  mask_ok m = true ->
  In k [has_E; has_v; has_e; has_r; Z.lor has_i has_v] ->
  mask_ok (Z.lor m k) = true.
Proof.
  intros Hm Hk. pose proof (mask_ok_range m Hm) as Hr. revert Hm.
  assert (Hall : forallb (fun k => forallb (fun m => implb (mask_ok m) (mask_ok (Z.lor m k)))
                                          (map Z.of_nat (seq 0 64)))
                         [has_E; has_v; has_e; has_r; Z.lor has_i has_v] = true)
    by (vm_compute; reflexivity).
  rewrite forallb_forall in Hall. specialize (Hall k Hk).
  pose proof (below_64 _ Hall m Hr) as Hi. cbv beta in Hi.
  intros Hm. rewrite Hm in Hi. exact Hi.
Qed.

Ltac ca_unfold :=
  cbn [collectargs_from char_at String.get String.length Nat.eqb mbind option_bind].

Lemma collectargs_from_mask n : forall rest i args r first,
  (length rest <= n)%nat ->
  mask_ok args = true ->
  collectargs_from rest i args = Some (r, first) ->
  r = has_error \/ mask_ok r = true.
Proof.
  induction n as [|n IH]; intros rest i args r first Hn Hm.
  - destruct rest; [|cbn in Hn; lia]. cbn. intros [= <- <-]. right; exact Hm.
  - destruct rest as [|a rest]; [cbn; intros [= <- <-]; right; exact Hm|].
    cbn [length] in Hn.
    assert (Hrec : forall args', mask_ok args' = true ->
               collectargs_from rest (S i) args' = Some (r, first) ->
               r = has_error \/ mask_ok r = true).
    { intros args' Hm'. apply IH; [lia|exact Hm']. }
    assert (Hrec2 : forall b rest'' args', rest = b :: rest'' -> mask_ok args' = true ->
               collectargs_from rest'' (S (S i)) args' = Some (r, first) ->
               r = has_error \/ mask_ok r = true).
    { intros b rest'' args' -> Hm'. cbn [length] in Hn. apply IH; [lia|exact Hm']. }
    assert (Hlor : forall k, In k [has_E; has_v; has_e; has_r; Z.lor has_i has_v] ->
                             mask_ok (Z.lor args k) = true)
      by (intros k; apply mask_ok_lor, Hm).
    assert (Hiv : Z.lor (Z.lor args has_i) has_v = Z.lor args (Z.lor has_i has_v))
      by (symmetry; apply Z.lor_assoc).
    assert (Hstop : forall k : nat, Some (args, k) = Some (r, first) ->
                                    r = has_error \/ mask_ok r = true)
      by (intros k [= <- <-]; right; exact Hm).
    assert (Herr : forall k : nat, Some (has_error, k) = Some (r, first) ->
                                   r = has_error \/ mask_ok r = true)
      by (intros k [= <- <-]; left; reflexivity).
    split_argument a; ca_unfold; split_chars; try discriminate;
      try exact (Hstop _); try exact (Herr _);
      try (rewrite ?Hiv; apply Hrec; apply Hlor; cbn; tauto);
      try (apply Hrec; exact Hm).
    all: destruct rest as [|b rest'']; [exact (Herr _)|].
    all: destruct b as [|b0 b']; ca_unfold; split_chars; try exact (Herr _);
      try (eapply Hrec2; [reflexivity|]; first [exact Hm | apply Hlor; cbn; tauto]).
Qed.

Lemma refused_option_cons a rest k :
  refused_option rest k -> refused_option (a :: rest) (S k).
Proof. intros (bad & c1 & H). exists bad, c1. exact H. Qed.

Lemma collectargs_from_error n : forall rest i args r first,
  (length rest <= n)%nat ->
  mask_ok args = true ->
  collectargs_from rest i args = Some (r, first) ->
  r = has_error ->
  (i <= first)%nat /\ refused_option rest (first - i).
Proof.
  induction n as [|n IH]; intros rest i args r first Hn Hm.
  - destruct rest; [|cbn in Hn; lia]. cbn. intros [= <- <-] ->. discriminate Hm.
  - destruct rest as [|a rest]; [cbn; intros [= <- <-] ->; discriminate Hm|].
    cbn [length] in Hn.
    assert (Hrec : forall args', mask_ok args' = true ->
               collectargs_from rest (S i) args' = Some (r, first) ->
               r = has_error ->
               (i <= first)%nat /\ refused_option (a :: rest) (first - i)).
    { intros args' Hm' E Hr. destruct (IH rest (S i) args' r first) as [Hle Hbad]; auto; [lia|].
      split; [lia|]. replace (first - i)%nat with (S (first - S i)) by lia.
      apply refused_option_cons, Hbad. }
    assert (Hrec2 : forall b rest'' args', rest = b :: rest'' -> mask_ok args' = true ->
               collectargs_from rest'' (S (S i)) args' = Some (r, first) ->
               r = has_error ->
               (i <= first)%nat /\ refused_option (a :: rest) (first - i)).
    { intros b rest'' args' -> Hm' E Hr. cbn [length] in Hn.
      destruct (IH rest'' (S (S i)) args' r first) as [Hle Hbad]; auto; [lia|].
      split; [lia|]. replace (first - i)%nat with (S (S (first - S (S i)))) by lia.
      apply refused_option_cons, refused_option_cons, Hbad. }
    assert (Hlor : forall k, In k [has_E; has_v; has_e; has_r; Z.lor has_i has_v] ->
                             mask_ok (Z.lor args k) = true)
      by (intros k; apply mask_ok_lor, Hm).
    assert (Hiv : Z.lor (Z.lor args has_i) has_v = Z.lor args (Z.lor has_i has_v))
      by (symmetry; apply Z.lor_assoc).
    assert (Hstop : forall k : nat, Some (args, k) = Some (r, first) -> r = has_error ->
                                    (i <= first)%nat /\ refused_option (a :: rest) (first - i))
      by (intros k [= <- <-] ->; discriminate Hm).
    assert (Herr : refused_option (a :: rest) 0 ->
                   Some (has_error, i) = Some (r, first) -> r = has_error ->
                   (i <= first)%nat /\ refused_option (a :: rest) (first - i)).
    { intros Hbad [= <- <-] _. split; [lia|]. rewrite Nat.sub_diag. exact Hbad. }
    split_argument a; ca_unfold; split_chars; try discriminate;
      try exact (Hstop _);
      try (rewrite ?Hiv; apply Hrec; apply Hlor; cbn; tauto);
      try (apply Hrec; exact Hm);
      try (apply Herr; eexists _, _; split; [reflexivity|]; split; [reflexivity|];
           split; [reflexivity|]; intros [?|?]; congruence).
    all: destruct rest as [|b rest''];
      [apply Herr; eexists _, _; cbn; repeat split; reflexivity|].
    all: destruct b as [|b0 b']; ca_unfold; split_chars;
      try (apply Herr; eexists _, _; cbn; repeat split; reflexivity);
      try (eapply Hrec2; [reflexivity|]; first [exact Hm | apply Hlor; cbn; tauto]).
Qed.

Lemma asks_for_fuzzing_cons a rest k :
  asks_for_fuzzing rest k -> asks_for_fuzzing (a :: rest) (S k).
Proof.
  intros (j & b & Hj & Hb). exists (S j), b. split; [lia|exact Hb].
Qed.

Lemma has_r_lor args m :
  In m [has_E; has_v; has_e; Z.lor has_i has_v] ->
  Z.land (Z.lor args m) has_r = Z.land args has_r.
Proof.
  intros Hm. rewrite Z.land_lor_distr_l.
  replace (Z.land m has_r) with 0; [apply Z.lor_0_r|].
  cbn in Hm. destruct Hm as [<-|[<-|[<-|[<-|[]]]]]; reflexivity.
Qed.

Lemma has_r_set args : Z.land (Z.lor args has_r) has_r <> 0.
Proof.
  rewrite Z.land_lor_distr_l. intros H. apply Z.lor_eq_0_iff in H as [_ H].
  discriminate H.
Qed.

Lemma collectargs_from_has_r n : forall rest i args r first,
  (length rest <= n)%nat ->
  collectargs_from rest i args = Some (r, first) ->
  Z.land r has_r <> 0 ->
  (i <= first)%nat /\
  (Z.land args has_r <> 0 \/ asks_for_fuzzing rest (first - i)).
Proof.
  induction n as [|n IH]; intros rest i args r first Hn.
  - destruct rest; [|cbn in Hn; lia]. cbn. intros [= <- <-] H. split; [lia|left; exact H].
  - destruct rest as [|a rest]; [cbn; intros [= <- <-] H; split; [lia|left; exact H]|].
    cbn [length] in Hn.
    assert (Hrec : forall args',
               (Z.land args' has_r <> 0 ->
                Z.land args has_r <> 0 \/ asks_for_fuzzing [a] 1) ->
               collectargs_from rest (S i) args' = Some (r, first) ->
               Z.land r has_r <> 0 ->
               (i <= first)%nat /\
               (Z.land args has_r <> 0 \/ asks_for_fuzzing (a :: rest) (first - i))).
    { intros args' Hargs E Hr.
      destruct (IH rest (S i) args' r first) as [Hle [H|H]]; auto; [lia| |].
      - split; [lia|]. destruct (Hargs H) as [H'|(j & b & Hj & Hb & Hc)]; [left; exact H'|].
        right. exists j, b. split; [lia|]. split; [|exact Hc].
        destruct j; [exact Hb|lia].
      - split; [lia|]. right. replace (first - i)%nat with (S (first - S i)) by lia.
        apply asks_for_fuzzing_cons, H. }
    assert (Hrec2 : forall b rest'' args', rest = b :: rest'' ->
               Z.land args' has_r = Z.land args has_r ->
               collectargs_from rest'' (S (S i)) args' = Some (r, first) ->
               Z.land r has_r <> 0 ->
               (i <= first)%nat /\
               (Z.land args has_r <> 0 \/ asks_for_fuzzing (a :: rest) (first - i))).
    { intros b rest'' args' -> Hargs E Hr. cbn [length] in Hn.
      destruct (IH rest'' (S (S i)) args' r first) as [Hle [H|H]]; auto; [lia| |].
      - split; [lia|]. left. rewrite <- Hargs. exact H.
      - split; [lia|]. right.
        replace (first - i)%nat with (S (S (first - S (S i)))) by lia.
        apply asks_for_fuzzing_cons, asks_for_fuzzing_cons, H. }
    assert (Hiv : Z.lor (Z.lor args has_i) has_v = Z.lor args (Z.lor has_i has_v))
      by (symmetry; apply Z.lor_assoc).
    assert (Hstop : forall k : nat, (i <= k)%nat -> Some (args, k) = Some (r, first) ->
               Z.land r has_r <> 0 ->
               (i <= first)%nat /\
               (Z.land args has_r <> 0 \/ asks_for_fuzzing (a :: rest) (first - i)))
      by (intros k Hk [= <- <-] H; split; [lia|left; exact H]).
    assert (Herr : forall k : nat, Some (has_error, k) = Some (r, first) ->
               Z.land r has_r <> 0 ->
               (i <= first)%nat /\
               (Z.land args has_r <> 0 \/ asks_for_fuzzing (a :: rest) (first - i)))
      by (intros k [= <- <-] H; exfalso; apply H; reflexivity).
    split_argument a; ca_unfold; split_chars; try discriminate;
      try (apply Hstop; lia); try exact (Herr _);
      try (rewrite ?Hiv; apply Hrec; rewrite has_r_lor by (cbn; tauto); tauto);
      try (apply Hrec; tauto);
      try (apply Hrec; intros _; right; eexists 0%nat, _; split; [lia|];
           repeat split; reflexivity).
    all: destruct rest as [|b rest'']; [exact (Herr _)|].
    all: destruct b as [|b0 b']; ca_unfold; split_chars; try exact (Herr _);
      try (eapply Hrec2; [reflexivity|];
           first [reflexivity | apply has_r_lor; cbn; tauto]).
Qed.

Lemma collectargs_from_keeps_has_r n : forall rest i args r first,
  (length rest <= n)%nat ->
  Z.land args has_r <> 0 ->
  collectargs_from rest i args = Some (r, first) ->
  r = has_error \/ Z.land r has_r <> 0.
Proof.
  induction n as [|n IH]; intros rest i args r first Hn Hm.
  - destruct rest; [|cbn in Hn; lia]. cbn. intros [= <- <-]. right; exact Hm.
  - destruct rest as [|a rest]; [cbn; intros [= <- <-]; right; exact Hm|].
    cbn [length] in Hn.
    assert (Hrec : forall args', Z.land args' has_r <> 0 ->
               collectargs_from rest (S i) args' = Some (r, first) ->
               r = has_error \/ Z.land r has_r <> 0).
    { intros args' Hm'. apply IH; [lia|exact Hm']. }
    assert (Hrec2 : forall b rest'' args', rest = b :: rest'' -> Z.land args' has_r <> 0 ->
               collectargs_from rest'' (S (S i)) args' = Some (r, first) ->
               r = has_error \/ Z.land r has_r <> 0).
    { intros b rest'' args' -> Hm'. cbn [length] in Hn. apply IH; [lia|exact Hm']. }
    assert (Hiv : Z.lor (Z.lor args has_i) has_v = Z.lor args (Z.lor has_i has_v))
      by (symmetry; apply Z.lor_assoc).
    assert (Hstop : forall k : nat, Some (args, k) = Some (r, first) ->
                                    r = has_error \/ Z.land r has_r <> 0)
      by (intros k [= <- <-]; right; exact Hm).
    assert (Herr : forall k : nat, Some (has_error, k) = Some (r, first) ->
                                   r = has_error \/ Z.land r has_r <> 0)
      by (intros k [= <- <-]; left; reflexivity).
    split_argument a; ca_unfold; split_chars; try discriminate;
      try exact (Hstop _); try exact (Herr _);
      try (rewrite ?Hiv; apply Hrec; rewrite has_r_lor by (cbn; tauto); exact Hm);
      try (apply Hrec; exact Hm);
      try (apply Hrec; apply has_r_set).
    all: destruct rest as [|b rest'']; [exact (Herr _)|].
    all: destruct b as [|b0 b']; ca_unfold; split_chars; try exact (Herr _);
      try (eapply Hrec2; [reflexivity|];
           first [exact Hm | rewrite has_r_lor by (cbn; tauto); exact Hm]).
Qed.

Lemma collectargs_from_first rest i args r first :
  collectargs_from rest i args = Some (r, first) ->
  (i <= first <= i + length rest)%nat.
Proof.
  intros E. destruct (collectargs_from_total (length rest) rest i args) as (r' & f & E' & H);
    [lia|].
  rewrite E in E'. injection E' as <- <-. exact H.
Qed.

Lemma take_cons_eq {A} (a : A) (l l' : list A) (k : nat) :
  take (S k) l' = take (S k) (a :: l) ->
  exists l1, l' = a :: l1 /\ take k l1 = take k l.
Proof.
  destruct l' as [|a' l1]; cbn; [discriminate|].
  intros [= -> H]. exists l1. split; [reflexivity|exact H].
Qed.

Lemma collectargs_from_stable n : forall rest i args r first,
  (length rest <= n)%nat ->
  collectargs_from rest i args = Some (r, first) ->
  r <> has_error ->
  (first < i + length rest)%nat ->
  forall rest', take (S (first - i)) rest' = take (S (first - i)) rest ->
  collectargs_from rest' i args = Some (r, first).
Proof.
  induction n as [|n IH]; intros rest i args r first Hn.
  - destruct rest; [|cbn in Hn; lia]. cbn. intros [= <- <-] _ H. lia.
  - destruct rest as [|a rest]; [cbn; intros [= <- <-] _ H; lia|].
    cbn [length] in Hn.
    assert (Hrec : forall args',
               (forall l, collectargs_from (a :: l) i args = collectargs_from l (S i) args') ->
               collectargs_from rest (S i) args' = Some (r, first) ->
               r <> has_error ->
               (first < i + length (a :: rest))%nat ->
               forall rest', take (S (first - i)) rest' = take (S (first - i)) (a :: rest) ->
               collectargs_from rest' i args = Some (r, first)).
    { intros args' Hstep E Hr Hf rest' Ht.
      pose proof (collectargs_from_first _ _ _ _ _ E) as Hb.
      replace (first - i)%nat with (S (first - S i)) in Ht by lia.
      apply take_cons_eq in Ht as (l1 & -> & Ht).
      rewrite Hstep. apply (IH rest); auto; [lia|cbn [length] in Hf; lia]. }
    assert (Hrec2 : forall b rest'' args', rest = b :: rest'' ->
               (forall l, collectargs_from (a :: b :: l) i args =
                          collectargs_from l (S (S i)) args') ->
               collectargs_from rest'' (S (S i)) args' = Some (r, first) ->
               r <> has_error ->
               (first < i + length (a :: rest))%nat ->
               forall rest', take (S (first - i)) rest' = take (S (first - i)) (a :: rest) ->
               collectargs_from rest' i args = Some (r, first)).
    { intros b rest'' args' -> Hstep E Hr Hf rest' Ht. cbn [length] in Hn, Hf.
      pose proof (collectargs_from_first _ _ _ _ _ E) as Hb.
      replace (first - i)%nat with (S (S (first - S (S i)))) in Ht by lia.
      apply take_cons_eq in Ht as (l1 & -> & Ht).
      apply take_cons_eq in Ht as (l2 & -> & Ht).
      rewrite Hstep. apply (IH rest''); auto; lia. }
    assert (Hstop : forall k : nat,
               (forall l, collectargs_from (a :: l) i args = Some (args, k)) ->
               Some (args, k) = Some (r, first) ->
               r <> has_error ->
               (first < i + length (a :: rest))%nat ->
               forall rest', take (S (first - i)) rest' = take (S (first - i)) (a :: rest) ->
               collectargs_from rest' i args = Some (r, first)).
    { intros k Hstep [= <- <-] _ _ rest' Ht.
      destruct rest' as [|a' l1]; [discriminate Ht|]. cbn in Ht. injection Ht as -> _.
      apply Hstep. }
    assert (Herr : forall k : nat,
               Some (has_error, k) = Some (r, first) ->
               r <> has_error ->
               (first < i + length (a :: rest))%nat ->
               forall rest', take (S (first - i)) rest' = take (S (first - i)) (a :: rest) ->
               collectargs_from rest' i args = Some (r, first))
      by (intros k [= <- <-] H; congruence).
    split_argument a; ca_unfold; split_chars; try discriminate;
      try exact (Herr _);
      try (apply Hstop; intros; ca_unfold; split_chars; reflexivity);
      try (apply Hrec; intros; ca_unfold; split_chars; reflexivity).
    all: destruct rest as [|b rest'']; [exact (Herr _)|].
    all: destruct b as [|b0 b']; ca_unfold; split_chars; try exact (Herr _);
      try (eapply Hrec2; [reflexivity|]; intros; ca_unfold; split_chars; reflexivity).
Qed.

(** ** How a run may end *)

Create HintDb ways.

Lemma ensures_ret {A} R (a : A) (Q : A -> Prop) : Q a -> ensures R (ret a) Q.
Proof. intros H w HR. cbn. auto. Qed.

Lemma ensures_ret_any {A} R (a : A) : ensures R (ret a) (fun _ => True).
Proof. apply ensures_ret. exact I. Qed.

Lemma ensures_bind {A B} R (m : M A) (k : A -> M B) (Q1 : A -> Prop) (Q : B -> Prop) :
  ensures R m Q1 -> (forall a, Q1 a -> ensures R (k a) Q) -> ensures R (bind m k) Q.
Proof.
  intros Hm Hk w HR. specialize (Hm w HR). unfold bind.
  destruct (m w) as [a w'| | | |]; auto.
  destruct Hm as [HR' Ha]. apply (Hk a Ha w' HR').
Qed.

Lemma ensures_seq {A B} R (m : M A) (k : A -> M B) (Q : B -> Prop) :
  ensures R m (fun _ => True) -> (forall a, ensures R (k a) Q) -> ensures R (bind m k) Q.
Proof. intros Hm Hk. apply (ensures_bind R m k (fun _ => True)); auto. Qed.

Lemma ensures_weaken {A} R (m : M A) (Q1 Q2 : A -> Prop) :
  (forall a, Q1 a -> Q2 a) -> ensures R m Q1 -> ensures R m Q2.
Proof.
  intros HQ Hm w HR. specialize (Hm w HR). destruct (m w); auto.
  destruct Hm; auto.
Qed.

Lemma ensures_act R (f : World -> World) :
  (forall w, crfd (f w) = crfd w) -> ensures R (act f) (fun _ => True).
Proof. intros Hf w HR. cbn. rewrite Hf. auto. Qed.

Lemma ensures_ask {A} R (f : World -> A) : ensures R (ask f) (fun _ => True).
Proof. intros w HR. cbn. auto. Qed.

Lemma ensures_print R st fmt args : ensures R (print st fmt args) (fun _ => True).
Proof. apply ensures_act. reflexivity. Qed.

Lemma ensures_fflush R st : ensures R (fflush st) (fun _ => True).
Proof. apply ensures_act. reflexivity. Qed.

Lemma ensures_return {A} R (Q : A -> Prop) : ensures R (return_ EXIT_FAILURE) Q.
Proof. intros w HR. reflexivity. Qed.

Lemma ensures_exit {A} R (Q : A -> Prop) : ensures R (_exit (-1)) Q.
Proof. intros w HR. reflexivity. Qed.

Lemma ensures_CHECK R c text : ensures R (CHECK c text) (fun _ => c = true).
Proof.
  unfold CHECK. destruct c.
  - apply ensures_ret. reflexivity.
  - apply ensures_seq; [apply ensures_print|intros _; apply ensures_exit].
Qed.

Lemma ensures_CHECK_any R c text : ensures R (CHECK c text) (fun _ => True).
Proof. apply (ensures_weaken R _ (fun _ => c = true)); [auto|apply ensures_CHECK]. Qed.

Lemma ensures_sys_write R fd buf : ensures R (sys_write fd buf) (fun _ => True).
Proof.
  intros w HR. unfold sys_write. destruct (fd =? REPRL_CWFD); cbn; auto.
Qed.

Lemma ensures_sys_read_drfd R count : ensures R (sys_read REPRL_DRFD count) (fun _ => True).
Proof. intros w HR. rewrite sys_read_drfd. cbn. auto. Qed.

Lemma ensures_reset R : ensures R __sanitizer_cov_reset_edgeguards (fun _ => True).
Proof. apply ensures_act. reflexivity. Qed.

#[export] Hint Resolve ensures_ret_any ensures_ask ensures_print ensures_fflush
  ensures_return ensures_exit ensures_CHECK_any ensures_sys_write ensures_sys_read_drfd
  ensures_reset : ways.

Ltac ensures_step :=
  repeat first
    [ solve [auto with ways]
    | apply ensures_seq; [|intros ?]
    | match goal with
      | |- ensures _ (if ?c then _ else _) _ => destruct c
      | |- ensures _ (match ?x with _ => _ end) _ => destruct x
      end ].

Lemma ensures_send_status R result : ensures R (send_status result) (fun _ => True).
Proof. unfold send_status. ensures_step. Qed.

Section HarnessWays.

Context {lua_State : Type} {RT : LuaRuntime lua_State}.
Variable R : list rd -> Prop.

Lemma ensures_lost {A} out : ensures R (@lost A out) (fun _ => True).
Proof. intros w HR. exact I. Qed.

Lemma ensures_emits es : ensures R (act (emits es)) (fun _ => True).
Proof. apply ensures_act. reflexivity. Qed.

Lemma ensures_lua_writestringerror fmt p :
  ensures R (lua_writestringerror fmt p) (fun _ => True).
Proof. unfold lua_writestringerror. ensures_step. Qed.

Hint Resolve ensures_lost ensures_emits ensures_lua_writestringerror : ways.

Lemma ensures_l_message pname msg : ensures R (l_message pname msg) (fun _ => True).
Proof. unfold l_message. ensures_step. Qed.

Hint Resolve ensures_l_message : ways.

Lemma ensures_report (L : lua_State) status : ensures R (report L status) (fun _ => True).
Proof. unfold report. ensures_step. Qed.

Lemma ensures_docall (L : lua_State) narg nres :
  ensures R (docall L narg nres) (fun _ => True).
Proof. unfold docall. ensures_step. Qed.

Hint Resolve ensures_report ensures_docall : ways.

Lemma ensures_dochunk (r : Z * lua_State) : ensures R (dochunk r) (fun _ => True).
Proof. unfold dochunk, call_loaded. ensures_step. Qed.

Hint Resolve ensures_dochunk : ways.

Lemma ensures_dostring (L : lua_State) s name :
  ensures R (dostring L s name) (fun _ => True).
Proof. unfold dostring. auto with ways. Qed.

Lemma ensures_dofile (L : lua_State) name : ensures R (dofile L name) (fun _ => True).
Proof. unfold dofile. auto with ways. Qed.

Hint Resolve ensures_dostring ensures_dofile : ways.

Lemma ensures_handle_luainit (L : lua_State) :
  ensures R (handle_luainit L) (fun _ => True).
Proof.
  unfold handle_luainit. apply ensures_seq; [auto with ways|]. intros w.
  destruct (env w LUA_INITVARVERSION) as [[|c s]|];
    [| |destruct (env w LUA_INIT_VAR) as [[|c s]|]]; auto with ways.
  all: match goal with
       | |- ensures _ (match ?c with Ascii.Ascii _ _ _ _ _ _ _ _ => _ end) _ =>
           destruct c as [[] [] [] [] [] [] [] []]; auto with ways
       end.
Qed.

Lemma ensures_l_print (L : lua_State) : ensures R (l_print L) (fun _ => True).
Proof. unfold l_print. ensures_step. Qed.

Hint Resolve ensures_handle_luainit ensures_l_print : ways.

Lemma ensures_print_or_report (r : Z * lua_State) status :
  ensures R (print_or_report r status) (fun _ => True).
Proof. unfold print_or_report. ensures_step. Qed.

Lemma ensures_create_state argc argv script :
  ensures R (create_state argc argv script) (fun _ => True).
Proof.
  unfold create_state. destruct luaL_newstate; [|ensures_step].
  apply ensures_seq; [apply ensures_act; reflexivity|intros _].
  ensures_step.
Qed.

Lemma ensures_close_state (L : lua_State) : ensures R (close_state L) (fun _ => True).
Proof. apply ensures_act. reflexivity. Qed.

Hint Resolve ensures_print_or_report ensures_create_state ensures_close_state : ways.

Lemma ensures_execute (L : lua_State) src : ensures R (execute L src) (fun _ => True).
Proof. unfold execute. ensures_step. Qed.

End HarnessWays.

(** ** The words on the control pipe *)

Lemma lor_shiftl_8 b v :
  0 <= b < 256 -> 0 <= v -> Z.lor b (Z.shiftl v 8) = b + v * 256.
Proof.
  intros Hb Hv.
  assert (Hdisj : Z.land b (Z.shiftl v 8) = 0).
  { apply Z.bits_inj'. intros n Hn. rewrite Z.land_spec, Z.bits_0.
    destruct (Z.lt_ge_cases n 8) as [Hlt|Hge].
    - rewrite Z.shiftl_spec_low by lia. apply andb_false_r.
    - replace (Z.testbit b n) with false; [reflexivity|].
      symmetry. destruct (Z.eq_dec b 0) as [->|Hnz]; [apply Z.bits_0|].
      apply Z.bits_above_log2; [lia|].
      apply Z.lt_le_trans with 8; [|exact Hge].
      apply Z.log2_lt_pow2; lia. }
  rewrite <- Z.lxor_lor by exact Hdisj.
  rewrite <- Z.add_nocarry_lxor by exact Hdisj.
  rewrite Z.shiftl_mul_pow2 by lia. reflexivity.
Qed.

Lemma le_value_range bs :
  Forall is_byte bs -> 0 <= le_value bs < 2 ^ (8 * Z.of_nat (length bs)).
Proof.
  induction 1 as [|b bs Hb _ IH]; [cbn; lia|].
  cbn [le_value length]. rewrite lor_shiftl_8 by (unfold is_byte in Hb; lia).
  replace (8 * Z.of_nat (S (length bs))) with (8 * Z.of_nat (length bs) + 8) by lia.
  rewrite Z.pow_add_r by lia. unfold is_byte in Hb.
  change (2 ^ 8) with 256. nia.
Qed.

Lemma le_value_le_bytes n : forall x,
  le_value (le_bytes n x) = x mod 2 ^ (8 * Z.of_nat n).
Proof.
  induction n as [|n IH]; intros x.
  - cbn. symmetry. apply Z.mod_1_r.
  - cbn [le_bytes le_value]. rewrite IH. unfold uint8.
    assert (Hp : 0 < 2 ^ (8 * Z.of_nat n)) by (apply Z.pow_pos_nonneg; lia).
    rewrite lor_shiftl_8.
    + replace (8 * Z.of_nat (S n)) with (8 + 8 * Z.of_nat n) by lia.
      rewrite Z.pow_add_r by lia. rewrite Z.rem_mul_r by lia.
      rewrite Z.shiftr_div_pow2 by lia. lia.
    + apply Z.mod_pos_bound. lia.
    + apply Z.mod_pos_bound. exact Hp.
Qed.

Lemma length_le_bytes n : forall x, length (le_bytes n x) = n.
Proof. induction n as [|n IH]; intros x; cbn; [reflexivity|]. rewrite IH. reflexivity. Qed.

Lemma receive_header_run L w l1 l2 :
  0 <= L < 2 ^ 64 ->
  read_pending 4 (crfd w) = (4, bytes_of_string "exec", l1) ->
  read_pending 8 l1 = (8, le_bytes 8 L, l2) ->
  receive_header w =
    Ok L (emit (EvRead REPRL_CRFD 8 8)
               (set_crfd l2 (emit (EvRead REPRL_CRFD 4 4) (set_crfd l1 w)))).
Proof.
  intros HL H1 H2. unfold receive_header.
  rewrite (bind_ok _ _ _ _ _ (sys_read_crfd 4 w)). rewrite H1. cbn [fst snd].
  rewrite (bind_ok _ _ _ tt _ eq_refl).
  change (le_value (bytes_of_string "exec") =? cexe) with true. cbv iota.
  rewrite (bind_ok _ _ _ _ _ (sys_read_crfd 8 _)). world_simpl. rewrite H2. cbn [fst snd].
  rewrite (bind_ok _ _ _ tt _ eq_refl).
  rewrite le_value_le_bytes. change (8 * Z.of_nat 8) with 64.
  rewrite Z.mod_small by lia. reflexivity.
Qed.

Lemma read_pending_bytes count l :
  0 <= count ->
  bytes_only l ->
  bytes_only (read_pending count l).2 /\
  Forall is_byte (read_pending count l).1.2 /\
  ((read_pending count l).1.1 = Z.of_nat (length (read_pending count l).1.2) \/
   (read_pending count l).1.1 = -1).
Proof.
  intros Hcount Hl. unfold read_pending.
  destruct (SSIZE_MAX <? count) eqn:Hc; [cbn; auto|].
  destruct Hl as [|[bs|] rest Hbs Hrest]; cbn; auto.
  - split; [constructor|]. auto.
  - destruct (Z.of_nat (length bs) <=? count) eqn:Hlen; cbn.
    + auto.
    + apply Z.leb_gt in Hlen.
      split; [constructor; [apply Forall_drop, Hbs|exact Hrest]|].
      split; [apply Forall_take, Hbs|].
      left. rewrite length_take. lia.
Qed.

Lemma ensures_sys_read_crfd count :
  0 <= count ->
  ensures bytes_only (sys_read REPRL_CRFD count)
          (fun r => Forall is_byte r.2 /\ (r.1 = Z.of_nat (length r.2) \/ r.1 = -1)).
Proof.
  intros Hcount w HR. rewrite sys_read_crfd. cbn.
  destruct (read_pending_bytes count (crfd w) Hcount HR) as (H1 & H2 & H3). auto.
Qed.

Lemma ensures_perform_handshake :
  ensures bytes_only perform_handshake (fun _ => True).
Proof.
  unfold perform_handshake. apply ensures_seq; [auto with ways|intros wr].
  destruct (negb (wr =? 4)); [ensures_step|].
  apply (ensures_bind _ _ _ _ _ (ensures_sys_read_crfd 4 ltac:(lia))).
  intros r _. ensures_step.
Qed.

Lemma ensures_receive_header :
  ensures bytes_only receive_header (fun L => 0 <= L <= SIZE_MAX).
Proof.
  unfold receive_header.
  apply (ensures_bind _ _ _ _ _ (ensures_sys_read_crfd 4 ltac:(lia))). intros r _.
  apply ensures_seq; [auto with ways|intros _].
  destruct (le_value r.2 =? cexe); [|ensures_step].
  apply (ensures_bind _ _ _ _ _ (ensures_sys_read_crfd 8 ltac:(lia))).
  intros s [Hbytes Hrv].
  apply (ensures_bind _ _ _ _ _ (ensures_CHECK _ _ _)). intros _ Hc.
  apply ensures_ret. apply Z.eqb_eq in Hc.
  destruct Hrv as [Hrv|Hrv]; [|lia].
  pose proof (le_value_range s.2 Hbytes) as Hr.
  replace (8 * Z.of_nat (length s.2)) with 64 in Hr by lia.
  unfold SIZE_MAX. lia.
Qed.

Lemma receive_payload_outcome L w :
  0 <= L <= SIZE_MAX ->
  (exists s w', receive_payload L w = Ok s w' /\ crfd w' = crfd w) \/
  (exists w', receive_payload L w = Exited (-1) w') \/
  (L < SIZE_MAX /\ malloc_grants w (uint64 (L + 1)) = false /\
   receive_payload L w = Fault (set_heap (tail (heap w)) w)).
Proof.
  intros HL.
  assert (SM : SSIZE_MAX = 9223372036854775807) by reflexivity.
  assert (ZM : SIZE_MAX = 18446744073709551615) by reflexivity.
  assert (PM : PTRDIFF_MAX = 9223372036854775807) by reflexivity.
  destruct (Z.eq_dec L SIZE_MAX) as [Hmax|Hmax].
  { right. left. rewrite receive_payload_run. subst L.
    change (uint64 (SIZE_MAX + 1)) with 0. rewrite andb_false_r.
    destruct (receive_loop_fatal (S (length (drfd w)))
                (replicate (Z.to_nat 0) 0) 0 SIZE_MAX (set_heap (tail (heap w)) w))
      as (w' & pre & count & rv & Hrun & _); try lia.
    { cbn [drfd set_heap]. lia. }
    exists w'. unfold bind. rewrite Hrun. reflexivity. }
  destruct (malloc_grants w (uint64 (L + 1))) eqn:Hg.
  2:{ right. right. split; [lia|]. split; [reflexivity|].
      apply receive_payload_refused; [lia|exact Hg]. }
  pose proof (malloc_grants_fits _ _ Hg) as Hfit.
  rewrite uint64_small in Hfit by lia.
  rewrite receive_payload_run, Hg. cbn [negb andb].
  set (w0 := set_heap (tail (heap w)) w).
  assert (Hd0 : drfd w0 = drfd w) by reflexivity.
  assert (Hc0 : crfd w0 = crfd w) by reflexivity.
  destruct (Z_le_gt_dec L (Z.of_nat (length (pending_bytes (drfd w))))) as [Ha|Ha].
  - left. rewrite uint64_small by lia.
    replace (Z.to_nat (L + 1)) with (S (Z.to_nat L)) by lia.
    destruct (receive_loop_complete (S (length (drfd w)))
                (replicate (S (Z.to_nat L)) 0) 0 L w0)
      as (w' & Hrun & _ & _ & _ & Hcrfd & _); try lia.
    { rewrite Hd0. lia. }
    { rewrite length_replicate. lia. }
    { rewrite Hd0. exact Ha. }
    rewrite (bind_ok _ _ _ _ _ Hrun).
    rewrite store_in_range;
      [eexists _, w'; split; [reflexivity|rewrite Hcrfd; exact Hc0]|lia|].
    rewrite !length_app, length_take, length_drop, length_take, length_replicate.
    rewrite Hd0. cbn [length]. lia.
  - right. left.
    destruct (receive_loop_fatal (S (length (drfd w)))
                (replicate (Z.to_nat (uint64 (L + 1))) 0) 0 L w0)
      as (w' & pre & count & rv & Hrun & _); try lia.
    { rewrite Hd0. lia. }
    { right. rewrite length_replicate, uint64_small, Hd0 by lia. lia. }
    exists w'. unfold bind. rewrite Hrun. reflexivity.
Qed.

Lemma ends_of_ensures {A} R (m : M A) Q : ensures R m Q -> ends R m Q.
Proof.
  intros Hm w HR. specialize (Hm w HR). destruct (m w); auto. contradiction.
Qed.

Lemma ends_bind {A B} R (m : M A) (k : A -> M B) (Q1 : A -> Prop) (Q : B -> Prop) :
  ends R m Q1 -> (forall a, Q1 a -> ends R (k a) Q) -> ends R (bind m k) Q.
Proof.
  intros Hm Hk w HR. specialize (Hm w HR). unfold bind.
  destruct (m w) as [a w'| | | |]; auto.
  destruct Hm as [HR' Ha]. apply (Hk a Ha w' HR').
Qed.

Lemma ends_seq {A B} R (m : M A) (k : A -> M B) (Q : B -> Prop) :
  ends R m (fun _ => True) -> (forall a, ends R (k a) Q) -> ends R (bind m k) Q.
Proof. intros Hm Hk. apply (ends_bind R m k (fun _ => True)); auto. Qed.

(** The request stage faults only in the [memset] of a refused buffer. *)
Lemma ends_receive_script : ends bytes_only receive_script (fun _ => True).
Proof.
  intros w HR. pose proof (ensures_receive_header w HR) as Hh.
  unfold receive_script, bind.
  destruct (receive_header w) as [L w1| | | |] eqn:Ehdr; auto; [|contradiction].
  destruct Hh as [HR1 HL].
  destruct (receive_payload_outcome L w1 HL)
    as [(s & w' & -> & Hc)|[(w' & ->)|(Hlt & Hg & ->)]].
  - rewrite Hc. auto.
  - reflexivity.
  - exists w, L, w1. split; [exact Ehdr|]. split; [lia|]. split; [exact Hg|reflexivity].
Qed.

Section LoopWays.

Context {lua_State : Type} {RT : LuaRuntime lua_State}.

Lemma ends_fuzz_iteration argc argv :
  ends bytes_only (fuzz_iteration (RT := RT) argc argv) (fun _ => True).
Proof.
  unfold fuzz_iteration.
  apply ends_seq; [apply ends_receive_script|intros src].
  apply ends_of_ensures.
  apply ensures_seq; [apply ensures_create_state|intros L].
  apply ensures_seq; [apply ensures_execute|intros result].
  apply ensures_send_status.
Qed.

Lemma ends_fuzz_loop n argc argv :
  ends bytes_only (fuzz_loop (RT := RT) n argc argv) (fun _ => True).
Proof.
  induction n as [|n IH]; cbn [fuzz_loop];
    [apply ends_of_ensures, ensures_ret_any|].
  apply ends_seq; [apply ends_fuzz_iteration|intros _; exact IH].
Qed.

End LoopWays.

Section CommandLineWays.

Context {lua_State : Type} {RT : LuaRuntime lua_State} {RW : LuaWarnings lua_State}.
Variable R : list rd -> Prop.

Lemma ensures_dolibrary (L : lua_State) globname :
  ensures R (dolibrary L globname) (fun _ => True).
Proof.
  unfold dolibrary. apply ensures_seq; [apply ensures_docall|intros r].
  apply ensures_report.
Qed.

Lemma ensures_lua_assert : ensures R (lua_assert true) (fun _ => True).
Proof. apply ensures_ret_any. Qed.

Lemma runargs_from_0 (L : lua_State) rest : runargs_from L rest 0 = ret (1, L).
Proof. destruct rest; reflexivity. Qed.

Ltac ra_unfold :=
  cbn [runargs_from char_at String.get String.length Nat.eqb string_drop pred].

Ltac ra_step H :=
  intros; ra_unfold; split_chars;
  repeat first
    [ rewrite runargs_from_0
    | apply ensures_lua_assert
    | apply ensures_ret_any
    | apply ensures_dostring
    | apply ensures_dolibrary
    | apply H
    | apply ensures_seq; [|intros ?]
    | match goal with
      | |- ensures _ (if ?c then _ else _) _ => destruct c
      end ].

Lemma runargs_from_safe n : forall rest i args r first,
  (length rest <= n)%nat ->
  collectargs_from rest i args = Some (r, first) ->
  r <> has_error ->
  forall L : lua_State, ensures R (runargs_from L rest (first - i)) (fun _ => True).
Proof.
  induction n as [|n IH]; intros rest i args r first Hn.
  - destruct rest; [|cbn in Hn; lia]. cbn. intros [= <- <-] _ L.
    rewrite Nat.sub_diag. apply ensures_ret_any.
  - destruct rest as [|a rest];
      [cbn; intros [= <- <-] _ L; rewrite Nat.sub_diag; apply ensures_ret_any|].
    cbn [length] in Hn.
    assert (Hrec : forall args',
               (forall k', (forall L : lua_State,
                               ensures R (runargs_from L rest k') (fun _ => True)) ->
                           forall L : lua_State,
                             ensures R (runargs_from L (a :: rest) (S k')) (fun _ => True)) ->
               collectargs_from rest (S i) args' = Some (r, first) ->
               r <> has_error ->
               forall L : lua_State,
                 ensures R (runargs_from L (a :: rest) (first - i)) (fun _ => True)).
    { intros args' Hstep E Hr L.
      pose proof (collectargs_from_first _ _ _ _ _ E) as Hb.
      replace (first - i)%nat with (S (first - S i)) by lia.
      apply Hstep. apply (IH rest (S i) args' r first); auto. lia. }
    assert (Hrec2 : forall b rest'' args', rest = b :: rest'' ->
               (forall k', (forall L : lua_State,
                               ensures R (runargs_from L rest'' k') (fun _ => True)) ->
                           forall L : lua_State,
                             ensures R (runargs_from L (a :: b :: rest'') (S (S k')))
                                     (fun _ => True)) ->
               collectargs_from rest'' (S (S i)) args' = Some (r, first) ->
               r <> has_error ->
               forall L : lua_State,
                 ensures R (runargs_from L (a :: rest) (first - i)) (fun _ => True)).
    { intros b rest'' args' -> Hstep E Hr L. cbn [length] in Hn.
      pose proof (collectargs_from_first _ _ _ _ _ E) as Hb.
      replace (first - i)%nat with (S (S (first - S (S i)))) by lia.
      apply Hstep. apply (IH rest'' (S (S i)) args' r first); auto. lia. }
    assert (Hstop : forall k : nat,
               (forall L : lua_State,
                  ensures R (runargs_from L (a :: rest) (k - i)) (fun _ => True)) ->
               Some (args, k) = Some (r, first) ->
               r <> has_error ->
               forall L : lua_State,
                 ensures R (runargs_from L (a :: rest) (first - i)) (fun _ => True))
      by (intros k H [= <- <-] _; exact H).
    assert (Herr : forall k : nat,
               Some (has_error, k) = Some (r, first) ->
               r <> has_error ->
               forall L : lua_State,
                 ensures R (runargs_from L (a :: rest) (first - i)) (fun _ => True))
      by (intros k [= <- <-] H; congruence).
    split_argument a; ca_unfold; split_chars; try discriminate;
      try exact (Herr _);
      try (apply Hstop; intros; rewrite Nat.sub_diag; apply ensures_ret_any);
      try (apply Hstop; replace (S i - i)%nat with 1%nat by lia;
           let H := fresh in (assert (H : True) by exact I); ra_step H);
      try (apply Hrec; let H := fresh in intros ? H; ra_step H).
    all: destruct rest as [|b rest'']; [exact (Herr _)|].
    all: destruct b as [|b0 b']; ca_unfold; split_chars; try exact (Herr _);
      try (eapply Hrec2; [reflexivity|]; let H := fresh in intros ? H; ra_step H).
Qed.

End CommandLineWays.

(** X2: [collectargs] reads no character past the terminator of an
    argument and no element of [argv] past its terminating null pointer,
    whatever the command line (with at least the program name) is, and the
    index it leaves in [*first] is between 1 and [argc]. *)
Theorem collectargs_reads_in_bounds argv :
  argv <> [] ->
  exists args first,
    collectargs argv = Some (args, first) /\ (1 <= first <= length argv)%nat.
Proof.
  destruct argv as [|prog rest]; [congruence|]. intros _.
  destruct (collectargs_from_total (length rest) rest 1 0) as (r & f & E & Hf); [lia|].
  exists r, f. split; [exact E|]. cbn [length]. lia.
Qed.

Lemma collectargs_reads_in_bounds_witness :
  exists args first,
    collectargs ["lua"; "-e"; "x=1"; "-i"; "s.lua"; "-r"] = Some (args, first) /\
    (1 <= first <= 6)%nat.
Proof. apply (collectargs_reads_in_bounds ["lua"; "-e"; "x=1"; "-i"; "s.lua"; "-r"]). discriminate. Defined.

(** X3: the mask [collectargs] returns is either exactly [has_error] or
    a combination of the five option bits with the error bit clear, so the
    test [args == has_error] of [pmain] misses no refused option; and in
    such a mask [has_i] never comes without [has_v]. *)
Theorem collectargs_error_is_exclusive argv args first :
  collectargs argv = Some (args, first) ->
  args = has_error \/
  (Z.land args has_error = 0 /\ 0 <= args < 64 /\
   (Z.land args has_i <> 0 -> Z.land args has_v <> 0)).
Proof.
  destruct argv as [|prog rest]; [discriminate|]. cbn [collectargs]. intros E.
  destruct (collectargs_from_mask (length rest) rest 1 0 args first) as [H|H];
    [lia|reflexivity|exact E|left; exact H|right].
  pose proof (mask_ok_range args H) as Hr. unfold mask_ok in H.
  apply andb_prop in H as [H Hiv]. apply andb_prop in H as [_ He].
  split; [apply Z.eqb_eq, He|]. split; [exact Hr|].
  intros Hi. apply orb_prop in Hiv as [Hiv|Hiv].
  - apply Z.eqb_eq in Hiv. contradiction.
  - apply negb_true_iff, Z.eqb_neq in Hiv. exact Hiv.
Qed.

Lemma collectargs_error_is_exclusive_witness :
  6 = has_error \/
  (Z.land 6 has_error = 0 /\ 0 <= 6 < 64 /\ (Z.land 6 has_i <> 0 -> Z.land 6 has_v <> 0)).
Proof.
  apply (collectargs_error_is_exclusive ["lua"; "-i"; "s.lua"] 6 2). reflexivity.
Defined.

Lemma print_usage_run pname bad c1 w :
  char_at bad 1 = Some c1 ->
  print_usage pname bad w =
    Ok tt (emits [EvPrint stderr "%s: " [ArgS pname]; EvFlush stderr;
                  EvPrint stderr
                    ((if Ascii.eqb c1 "e" || Ascii.eqb c1 "l"
                      then "'%s' needs argument"
                      else "unrecognized option '%s'") +:+ LF)
                    [ArgS (Some bad)];
                  EvFlush stderr;
                  EvPrint stderr usage_text [ArgS pname]; EvFlush stderr] w).
Proof.
  intros H. unfold print_usage. rewrite H.
  unfold lua_writestringerror, print, fflush, act, bind, emit, emits.
  destruct (Ascii.eqb c1 "e" || Ascii.eqb c1 "l"); cbn -[usage_text LF];
    rewrite <- !app_assoc; reflexivity.
Qed.

(** X4: when [collectargs] reports a bad option, [*first] is the index of
    an argument that is there and starts with a dash, so
    [print_usage(argv[script])] reads inside it; and the message says
    "needs argument" only for a bare [-e] or [-l] that is followed by no
    argument or by another option. *)
Theorem usage_names_the_refused_option argv first pname w :
  collectargs argv = Some (has_error, first) ->
  exists bad c1,
    argv !! first = Some bad /\
    char_at bad 0 = Some "-"%char /\
    char_at bad 1 = Some c1 /\
    ((c1 = "e"%char \/ c1 = "l"%char) ->
     char_at bad 2 = Some NUL /\
     match argv !! S first with
     | None => True
     | Some b => char_at b 0 = Some "-"%char
     end) /\
    print_usage pname bad w =
      Ok tt (emits [EvPrint stderr "%s: " [ArgS pname]; EvFlush stderr;
                    EvPrint stderr
                      ((if Ascii.eqb c1 "e" || Ascii.eqb c1 "l"
                        then "'%s' needs argument"
                        else "unrecognized option '%s'") +:+ LF)
                      [ArgS (Some bad)];
                    EvFlush stderr;
                    EvPrint stderr usage_text [ArgS pname]; EvFlush stderr] w).
Proof.
  destruct argv as [|prog rest]; [discriminate|]. cbn [collectargs]. intros E.
  destruct (collectargs_from_error (length rest) rest 1 0 has_error first)
    as [Hle (bad & c1 & Hbad & H0 & H1 & Hel)]; [lia|reflexivity|exact E|reflexivity|].
  exists bad, c1.
  replace first with (S (first - 1)) by lia.
  cbn [lookup list_lookup]. repeat split; try assumption.
  - apply Hel; assumption.
  - apply Hel; assumption.
  - apply print_usage_run, H1.
Qed.

Lemma usage_names_the_refused_option_witness :
  exists bad c1,
    ["lua"; "-v"; "-e"; "-i"] !! 2%nat = Some bad /\
    char_at bad 0 = Some "-"%char /\
    char_at bad 1 = Some c1 /\
    ((c1 = "e"%char \/ c1 = "l"%char) ->
     char_at bad 2 = Some NUL /\
     match ["lua"; "-v"; "-e"; "-i"] !! 3%nat with
     | None => True
     | Some b => char_at b 0 = Some "-"%char
     end) /\
    print_usage (Some "lua") bad (Toy.world [] [] []) =
      Ok tt (emits [EvPrint stderr "%s: " [ArgS (Some "lua")]; EvFlush stderr;
                    EvPrint stderr
                      ((if Ascii.eqb c1 "e" || Ascii.eqb c1 "l"
                        then "'%s' needs argument"
                        else "unrecognized option '%s'") +:+ LF)
                      [ArgS (Some bad)];
                    EvFlush stderr;
                    EvPrint stderr usage_text [ArgS (Some "lua")]; EvFlush stderr]
                   (Toy.world [] [] [])).
Proof.
  apply (usage_names_the_refused_option ["lua"; "-v"; "-e"; "-i"] 2).
  reflexivity.
Defined.

(** X5: what follows the script name plays no part in the options: when
    [collectargs] stops without error before the end of [argv], it gives the
    same mask and the same index for every command line that agrees with
    this one up to and including [argv[first]]. *)
Theorem script_arguments_do_not_change_the_options argv args first tail :
  collectargs argv = Some (args, first) ->
  args <> has_error ->
  (first < length argv)%nat ->
  collectargs (take (S first) argv ++ tail) = Some (args, first).
Proof.
  destruct argv as [|prog rest]; [discriminate|]. cbn [collectargs length]. intros E Ha Hf.
  pose proof (collectargs_from_first _ _ _ _ _ E) as Hb.
  cbn [take app]. cbn [collectargs].
  apply (collectargs_from_stable (length rest) rest 1 0 args first);
    [lia|exact E|exact Ha|lia|].
  rewrite take_app_le by (rewrite length_take; lia).
  rewrite take_take. f_equal. lia.
Qed.

Lemma script_arguments_do_not_change_the_options_witness :
  collectargs (take 4 ["lua"; "-e"; "x=1"; "s.lua"; "-r"] ++ ["t.lua"; "-z"]) =
    Some (8, 3%nat).
Proof.
  apply (script_arguments_do_not_change_the_options
           ["lua"; "-e"; "x=1"; "s.lua"; "-r"] 8 3 ["t.lua"; "-z"]).
  - reflexivity.
  - discriminate.
  - cbn. lia.
Defined.

(** X6: the bit [has_r], on which [main] enters [do_Fuzzing], is set only
    when an argument before [argv[first]] starts with [-r]: nothing after
    the script name, and no argument of [-e] or [-l], selects the fuzzing
    mode.  And when [argv[1]] starts with [-r] the bit is set unless a later
    option is refused. *)
Theorem fuzzing_mode_needs_an_r_option argv args first :
  collectargs argv = Some (args, first) ->
  (Z.land args has_r <> 0 ->
   exists (k : nat) a,
     (1 <= k < first)%nat /\ argv !! k = Some a /\
     char_at a 0 = Some "-"%char /\ char_at a 1 = Some "r"%char) /\
  (forall a, argv !! 1%nat = Some a ->
             char_at a 0 = Some "-"%char -> char_at a 1 = Some "r"%char ->
             args = has_error \/ Z.land args has_r <> 0).
Proof.
  destruct argv as [|prog rest]; [discriminate|]. cbn [collectargs]. intros E. split.
  - intros Hr.
    destruct (collectargs_from_has_r (length rest) rest 1 0 args first)
      as [Hle [H|(j & a & Hj & Ha & Hc)]]; [lia|exact E|exact Hr| |].
    + exfalso. apply H. reflexivity.
    + exists (S j), a. split; [lia|]. split; [exact Ha|exact Hc].
  - intros a Ha H0 H1. destruct rest as [|a' rest]; [discriminate|].
    cbn in Ha. injection Ha as ->. revert E.
    destruct a as [|c0 [|c1 a2]]; cbn in H0, H1; try discriminate.
    injection H0 as ->. injection H1 as ->. ca_unfold. cbn [Ascii.eqb Bool.eqb negb andb].
    intros E.
    apply (collectargs_from_keeps_has_r (length rest) rest 2 (Z.lor 0 has_r) args first);
      [lia|discriminate|exact E].
Qed.

Lemma fuzzing_mode_needs_an_r_option_witness :
  (Z.land 36 has_r <> 0 ->
   exists (k : nat) a,
     (1 <= k < 3)%nat /\ ["lua"; "-r"; "-v"; "-"; "-r"] !! k = Some a /\
     char_at a 0 = Some "-"%char /\ char_at a 1 = Some "r"%char) /\
  (forall a, ["lua"; "-r"; "-v"; "-"; "-r"] !! 1%nat = Some a ->
             char_at a 0 = Some "-"%char -> char_at a 1 = Some "r"%char ->
             36 = has_error \/ Z.land 36 has_r <> 0).
Proof.
  apply (fuzzing_mode_needs_an_r_option ["lua"; "-r"; "-v"; "-"; "-r"] 36 3). reflexivity.
Defined.

Section CommandLineFacts.

Context {lua_State : Type} {RT : LuaRuntime lua_State} {RW : LuaWarnings lua_State}.

(** X7: [runargs], called as [pmain] calls it with the index that
    [collectargs] left and a mask that is not [has_error], finds what its
    assertions say was already checked: every argument it handles starts
    with a dash and every [-e] or [-l] has its argument, attached or in the
    next element of [argv], so that no read leaves [argv] or a string. *)
Theorem runargs_finds_what_collectargs_checked argv args first (L : lua_State) w :
  collectargs argv = Some (args, first) ->
  args <> has_error ->
  forall w', runargs L argv first w <> Fault w'.
Proof.
  destruct argv as [|prog rest]; [discriminate|]. cbn [collectargs]. intros E Ha w' Hf.
  pose proof (runargs_from_safe (fun _ => True) (length rest) rest 1 0 args first
                ltac:(lia) E Ha L w I) as H.
  unfold runargs in Hf. cbn [drop] in Hf. rewrite drop_0 in Hf.
  rewrite Hf in H. exact H.
Qed.

End CommandLineFacts.

Lemma runargs_finds_what_collectargs_checked_witness :
  (forall w', runargs (RT := Toy.runtime) [] ["lua"; "-e"; "x=1"; "-lm"; "-W"; "s.lua"] 5
                      (Toy.world [] [] []) <> Fault w') /\
  (exists w', runargs (RT := Toy.runtime) [] ["lua"; "-v"; "-e"] 3
                      (Toy.world [] [] []) = Fault w').
Proof.
  split.
  - apply (runargs_finds_what_collectargs_checked (RT := Toy.runtime)
             ["lua"; "-e"; "x=1"; "-lm"; "-W"; "s.lua"] 8 5).
    + reflexivity.
    + discriminate.
  - eexists. vm_compute. reflexivity.
Defined.

Section LoopEnds.

Context {lua_State : Type} {RT : LuaRuntime lua_State}.


End LoopEnds.


(** X9: the header of a request, as the supervisor frames it, is read
    back exactly: when the first read brings the four bytes [exec] (the
    object representation of the constant ['cexe']) and the second the eight
    bytes of a 64-bit length [L], least significant first, the header stage
    returns [L], having made these two reads on the control pipe and nothing
    else. *)
Theorem receive_header_reads_the_length L w l1 l2 :
  0 <= L < 2 ^ 64 ->
  read_pending 4 (crfd w) = (4, bytes_of_string "exec", l1) ->
  read_pending 8 l1 = (8, le_bytes 8 L, l2) ->
  receive_header w =
    Ok L (emit (EvRead REPRL_CRFD 8 8)
               (set_crfd l2 (emit (EvRead REPRL_CRFD 4 4) (set_crfd l1 w)))).
Proof. apply receive_header_run. Qed.

Lemma receive_header_reads_the_length_witness :
  receive_header (Toy.world [Data (bytes_of_string "exec" ++ le_bytes 8 300 ++ [7])] [] []) =
    Ok 300 (emit (EvRead REPRL_CRFD 8 8)
             (set_crfd [Data [7]]
                (emit (EvRead REPRL_CRFD 4 4)
                   (set_crfd [Data (le_bytes 8 300 ++ [7])]
                      (Toy.world [Data (bytes_of_string "exec" ++ le_bytes 8 300 ++ [7])]
                                 [] []))))).
Proof.
  apply (receive_header_reads_the_length 300); [lia|reflexivity|reflexivity].
Defined.

(** X10: the header reads are not retried.  A first batch on the control
    pipe of fewer than four bytes ends the process through the CHECK of the
    first read, which prints the condition between double quotes followed
    by the word failed, whatever is pending behind it (the payload loop, in
    contrast, gathers its bytes over several reads); and four bytes that are
    not the action ['cexe'] end it with the message for an unknown action,
    before the length is read. *)
Theorem header_failures_are_fatal w :
  (forall bs rest,
     crfd w = Data bs :: rest -> (length bs < 4)%nat ->
     receive_header w =
       Exited (-1)
         (emit (EvPrint stderr (DQ +:+ "read(REPRL_CRFD, &action, 4) == 4" +:+ DQ
                               +:+ " failed" +:+ LF) [])
               (emit (EvRead REPRL_CRFD 4 (Z.of_nat (length bs))) (set_crfd rest w)))) /\
  (forall tag l1,
     read_pending 4 (crfd w) = (4, tag, l1) -> le_value tag <> cexe ->
     receive_header w =
       Exited (-1)
         (emit (EvPrint stderr ("Unknown action: %u" +:+ LF) [ArgU (le_value tag)])
               (emit (EvRead REPRL_CRFD 4 4) (set_crfd l1 w)))).
Proof.
  split.
  - intros bs rest Hc Hlen. unfold receive_header.
    rewrite (bind_ok _ _ _ _ _ (sys_read_crfd 4 w)). rewrite Hc.
    unfold read_pending. change (SSIZE_MAX <? 4) with false. cbv iota.
    replace (Z.of_nat (length bs) <=? 4) with true by (symmetry; apply Z.leb_le; lia).
    cbn [fst snd].
    replace (Z.of_nat (length bs) =? 4) with false by (symmetry; apply Z.eqb_neq; lia).
    reflexivity.
  - intros tag l1 H1 Hne. unfold receive_header.
    rewrite (bind_ok _ _ _ _ _ (sys_read_crfd 4 w)). rewrite H1. cbn [fst snd].
    rewrite (bind_ok _ _ _ tt _ eq_refl).
    replace (le_value tag =? cexe) with false by (symmetry; apply Z.eqb_neq; exact Hne).
    reflexivity.
Qed.

(** ** Runs of the instrumented code *)

Lemma hit_frame g c c' :
  __sanitizer_cov_trace_pc_guard g c = HitOk c' ->
  edges_start c' = edges_start c /\ edges_stop c' = edges_stop c /\
  length (guards c') = length (guards c) /\
  (forall k : nat, k <> g -> guards c' !! k = guards c !! k) /\
  (forall r, shmem c = Some r ->
     exists r', shmem c' = Some r' /\ num_edges r' = num_edges r /\
                forall i, edge_bit r i = true -> edge_bit r' i = true) /\
  (shmem c = None -> c' = c).
Proof.
  unfold __sanitizer_cov_trace_pc_guard.
  destruct (guards c !! g) as [index|] eqn:Hg; [|discriminate].
  destruct (index =? 0) eqn:Hz.
  - intros [= <-]. repeat split; auto. intros r Hr. exists r. auto.
  - destruct (shmem c) as [r|] eqn:Hr; [|discriminate].
    destruct ((0 <=? index / 8) && (index / 8 <? edges_len)); [|discriminate].
    intros [= <-]. cbn. repeat split.
    + apply length_insert.
    + intros k Hk. apply list_lookup_insert_ne. auto.
    + intros r0 [= <-]. exists (set_edge index r). repeat split.
      intros i Hi. rewrite edge_bit_set_edge. destruct (i =? index); auto.
    + discriminate.
Qed.

(** X11: before the instrumentation is initialized every guard cell is
    zero, and then a run of any length over cells of the section changes
    nothing and does not touch the region, although [__shmem] is still
    null. *)
Theorem hits_before_initialization_do_nothing gs c :
  Forall (fun x => x = 0) (guards c) ->
  Forall (fun g : nat => (g < length (guards c))%nat) gs ->
  hits gs c = HitOk c.
Proof.
  intros Hz Hgs. induction Hgs as [|g gs Hg _ IH]; [reflexivity|].
  cbn [hits]. unfold __sanitizer_cov_trace_pc_guard.
  destruct (lookup_lt_is_Some_2 _ _ Hg) as [x Hx]. rewrite Hx.
  rewrite Forall_lookup in Hz. rewrite (Hz g x Hx). cbn. exact IH.
Qed.

Lemma hits_before_initialization_do_nothing_witness :
  hits [2; 0; 2; 1]%nat (Cov [0; 0; 0] None None None) = HitOk (Cov [0; 0; 0] None None None).
Proof.
  apply hits_before_initialization_do_nothing.
  - repeat constructor.
  - cbn. repeat constructor.
Defined.

Lemma hits_frame gs : forall c c',
  hits gs c = HitOk c' ->
  edges_start c' = edges_start c /\ edges_stop c' = edges_stop c /\
  length (guards c') = length (guards c) /\
  (forall k : nat, ~ In k gs -> guards c' !! k = guards c !! k) /\
  (forall r, shmem c = Some r ->
     exists r', shmem c' = Some r' /\ num_edges r' = num_edges r /\
                forall i, edge_bit r i = true -> edge_bit r' i = true).
Proof.
  induction gs as [|g gs IH]; intros c c'; cbn [hits].
  - intros [= <-]. repeat split; auto. intros r Hr. exists r. auto.
  - destruct (__sanitizer_cov_trace_pc_guard g c) as [c1|] eqn:H1; [|discriminate].
    intros H. apply hit_frame in H1 as (Ha & Hb & Hl & Hk & Hr & _).
    apply IH in H as (Ha' & Hb' & Hl' & Hk' & Hr').
    repeat split; try congruence.
    + intros k Hin. rewrite Hk', Hk; auto.
      * intros ->. apply Hin. left. reflexivity.
      * intros Hin'. apply Hin. right. exact Hin'.
    + intros r Hs. destruct (Hr r Hs) as (r1 & Hs1 & Hn1 & Hb1).
      destruct (Hr' r1 Hs1) as (r2 & Hs2 & Hn2 & Hb2).
      exists r2. repeat split; [exact Hs2|congruence|]. auto.
Qed.

(** X12: whatever a run has hit, the reset at the end of an iteration
    brings the guard section back to the numbering it had after the previous
    reset, so that every iteration starts from the same guards: for a run
    over the cells that the reset numbers (the first [MAX_EDGES] of the
    registered range), resetting after the run gives the same section as the
    reset before it. *)
Theorem reset_after_hits_restores_the_guards c a b gs c1 :
  edges_start c = Some a -> edges_stop c = Some b ->
  (b <= length (guards c))%nat ->
  Forall (fun g : nat => (a <= g < b)%nat /\ Z.of_nat g - Z.of_nat a < MAX_EDGES) gs ->
  hits gs (reset_edgeguards c) = HitOk c1 ->
  guards (reset_edgeguards c1) = guards (reset_edgeguards c).
Proof.
  intros Ha Hb Hlen Hgs Hrun.
  assert (Hl0 : length (guards (reset_edgeguards c)) = length (guards c)).
  { rewrite (reset_registered c a b Ha Hb). cbn. apply length_reset_loop. }
  assert (Ha0 : edges_start (reset_edgeguards c) = Some a)
    by (rewrite (reset_registered c a b Ha Hb); exact Ha).
  assert (Hb0 : edges_stop (reset_edgeguards c) = Some b)
    by (rewrite (reset_registered c a b Ha Hb); exact Hb).
  apply hits_frame in Hrun as (Ha1 & Hb1 & Hl1 & Hk1 & _).
  rewrite Ha0 in Ha1. rewrite Hb0 in Hb1.
  apply list_eq. intros k.
  rewrite (reset_guards_lookup c1 a b k Ha1 Hb1) by lia.
  rewrite <- (reset_idempotent c a b Ha Hb Hlen) at 1.
  rewrite (reset_guards_lookup (reset_edgeguards c) a b k Ha0 Hb0) by lia.
  case_bool_decide as Hin; [reflexivity|].
  apply Hk1. intros Hk. rewrite Forall_forall in Hgs. apply Hin, Hgs, list_elem_of_In, Hk.
Qed.

Lemma reset_after_hits_restores_the_guards_witness :
  exists c1,
    hits [1; 2; 1]%nat
         (reset_edgeguards (Cov [0; 0; 0] (Some 0%nat) (Some 3%nat) (Some (Shmem 3 (fun _ => 0)))))
      = HitOk c1 /\
    guards c1 = [1; 0; 0] /\
    guards (reset_edgeguards c1) = [1; 2; 3].
Proof.
  eexists. split; [vm_compute; reflexivity|]. split; [reflexivity|].
  rewrite (reset_after_hits_restores_the_guards
             (Cov [0; 0; 0] (Some 0%nat) (Some 3%nat) (Some (Shmem 3 (fun _ => 0))))
             0 3 [1; 2; 1]%nat _ eq_refl eq_refl).
  - reflexivity.
  - cbn. lia.
  - repeat constructor; cbn; lia.
  - vm_compute. reflexivity.
Defined.

(** X13: a run only adds coverage: with a region mapped, the calls of
    [__sanitizer_cov_trace_pc_guard] leave the region mapped, leave its
    header [num_edges] as it is, and clear no bit that was set. *)
Theorem hits_only_add_coverage gs c c1 r :
  shmem c = Some r ->
  hits gs c = HitOk c1 ->
  exists r1,
    shmem c1 = Some r1 /\ num_edges r1 = num_edges r /\
    forall i, edge_bit r i = true -> edge_bit r1 i = true.
Proof.
  intros Hs Hrun. apply hits_frame in Hrun as (_ & _ & _ & _ & Hr). apply Hr, Hs.
Qed.

Lemma hits_only_add_coverage_witness :
  exists c1,
    hits [1; 1; 2]%nat
         (Cov [0; 2; 9] (Some 0%nat) (Some 3%nat)
              (Some (Shmem 3 (fun j => if j =? 0 then 2 else 0)))) = HitOk c1 /\
    exists r1,
      shmem c1 = Some r1 /\
      num_edges r1 = num_edges (Shmem 3 (fun j => if j =? 0 then 2 else 0)) /\
      forall i, edge_bit (Shmem 3 (fun j => if j =? 0 then 2 else 0)) i = true ->
                edge_bit r1 i = true.
Proof.
  eexists. split; [vm_compute; reflexivity|].
  apply (hits_only_add_coverage [1; 1; 2]%nat
           (Cov [0; 2; 9] (Some 0%nat) (Some 3%nat)
                (Some (Shmem 3 (fun j => if j =? 0 then 2 else 0))))).
  - reflexivity.
  - vm_compute. reflexivity.
Defined.

(** ** Initialization, again *)

Lemma init_outcome start stop w w1 :
  __sanitizer_cov_trace_pc_guard_init start stop w = Ok tt w1 ->
  w1 = w \/
  (start <> stop /\
   edges_start (cov w1) = Some start /\ edges_stop (cov w1) = Some stop /\
   guards (cov w1) = reset_loop (stop - start) start 0 (guards (cov w)) /\
   exists x, guards (cov w) !! start = Some x).
Proof.
  unfold __sanitizer_cov_trace_pc_guard_init, bind at 1, ask at 1.
  case_bool_decide as Hne; [intros [= <-]; left; reflexivity|].
  destruct (guards (cov w) !! start) as [first|] eqn:Hfirst; [|intros [=]].
  destruct (negb (first =? 0)); [intros [= <-]; left; reflexivity|].
  case_bool_decide as Hreg; [proc_unfold; intros [=]|].
  proc_unfold. cbv delta [map_shared_memory store_num_edges
                          __sanitizer_cov_reset_edgeguards id] beta.
  world_simpl.
  destruct (env w "SHM_ID") as [key|].
  - proc_unfold. world_simpl.
    destruct (shm_fd w key <=? -1); [proc_unfold; intros [=]|].
    proc_unfold. world_simpl.
    destruct (shm_map w (shm_fd w key)) as [r|]; [|proc_unfold; intros [=]].
    proc_unfold. world_simpl. rewrite (reset_registered _ start stop) by reflexivity. world_simpl.
    intros [= <-]. right. world_simpl. repeat split; eauto.
  - proc_unfold. world_simpl.
    rewrite (reset_registered _ start stop) by reflexivity. world_simpl.
    intros [= <-]. right. world_simpl. repeat split; eauto.
Qed.

(** X14: the initialization happens once.  After a call of
    [__sanitizer_cov_trace_pc_guard_init] that ran to its end, a second call
    for the same range returns at once: it changes no guard and no global,
    maps nothing and prints nothing. *)
Theorem initialization_happens_once start stop w w1 :
  (start <= stop)%nat ->
  __sanitizer_cov_trace_pc_guard_init start stop w = Ok tt w1 ->
  __sanitizer_cov_trace_pc_guard_init start stop w1 = Ok tt w1.
Proof.
  intros Hle H. pose proof H as H'.
  apply init_outcome in H' as [->|(Hne & Ha & Hb & Hg & x & Hx)]; [exact H|].
  unfold __sanitizer_cov_trace_pc_guard_init, bind at 1, ask at 1.
  rewrite bool_decide_eq_false_2 by exact Hne.
  rewrite Hg.
  rewrite (reset_loop_lookup_in (stop - start) start 0 (guards (cov w)) start);
    [rewrite Nat.sub_diag; reflexivity|lia|lia| |apply lookup_lt_is_Some; eauto].
  rewrite Nat.sub_diag, MAX_EDGES_value. lia.
Qed.

Lemma initialization_happens_once_witness :
  exists w1,
    __sanitizer_cov_trace_pc_guard_init 0 3 (Toy.world [] [] []) = Ok tt w1 /\
    guards (cov w1) = [1; 2; 3] /\
    __sanitizer_cov_trace_pc_guard_init 0 3 w1 = Ok tt w1.
Proof.
  eexists. split; [vm_compute; reflexivity|]. split; [reflexivity|].
  apply (initialization_happens_once 0 3 (Toy.world [] [] [])); [lia|].
  vm_compute. reflexivity.
Defined.

(** X15: with SHM_ID set, the region is the segment behind that name: when
    [shm_open] gives a descriptor and [mmap] a mapping, the initialization
    runs to its end with that mapping as the region (its bitmap untouched,
    its header set to the number of guards) and the guards numbered from 1;
    when [shm_open] fails, or [mmap], the process ends through [_exit(-1)]
    after the message on stderr. *)
Theorem init_uses_the_named_segment w (start stop : nat) key :
  start <> stop ->
  guards (cov w) !! start = Some 0 ->
  edges_start (cov w) = None -> edges_stop (cov w) = None ->
  env w "SHM_ID" = Some key ->
  let n := uint32 (Z.of_nat stop - Z.of_nat start) in
  let w0 := set_cov (set_range start stop (cov w)) w in
  (shm_fd w key <= -1 ->
     __sanitizer_cov_trace_pc_guard_init start stop w =
       Exited (-1)
         (emit (EvPrint stderr ("Failed to open shared memory region: %s" +:+ LF) [ArgErrno])
               w0)) /\
  (-1 < shm_fd w key -> shm_map w (shm_fd w key) = None ->
     __sanitizer_cov_trace_pc_guard_init start stop w =
       Exited (-1)
         (emit (EvPrint stderr ("Failed to mmap shared memory region" +:+ LF) []) w0)) /\
  (forall r,
     -1 < shm_fd w key -> shm_map w (shm_fd w key) = Some r ->
     exists w',
       __sanitizer_cov_trace_pc_guard_init start stop w = Ok tt w' /\
       shmem (cov w') = Some (Shmem n (edges r)) /\
       edges_start (cov w') = Some start /\ edges_stop (cov w') = Some stop /\
       guards (cov w') = reset_loop (stop - start) start 0 (guards (cov w)) /\
       trace w' = trace w ++
         [EvResetGuards;
          EvPrint stdout
            ("[COV] edge counters initialized. Shared memory: %s with %u edges" +:+ LF)
            [ArgS (Some key); ArgU n]]).
Proof.
  intros Hne Hfirst Hs He Hkey n w0. subst n w0.
  assert (Hrun : __sanitizer_cov_trace_pc_guard_init start stop w =
                 (map_shared_memory (Some key) ;;;
                  __sanitizer_cov_reset_edgeguards ;;;
                  store_num_edges (uint32 (Z.of_nat stop - Z.of_nat start)) ;;;
                  print stdout
                    ("[COV] edge counters initialized. Shared memory: %s with %u edges" +:+ LF)
                    [ArgS (Some key); ArgU (uint32 (Z.of_nat stop - Z.of_nat start))])%proc
                   (set_cov (set_range start stop (cov w)) w)).
  { unfold __sanitizer_cov_trace_pc_guard_init, bind at 1, ask at 1.
    rewrite bool_decide_eq_false_2 by exact Hne.
    rewrite Hfirst. change (negb (0 =? 0)) with false. cbv iota.
    rewrite bool_decide_eq_false_2 by (rewrite Hs, He; intros [?|?]; congruence).
    unfold bind at 1, act at 1. unfold bind at 1, ask at 1. world_simpl.
    rewrite Hkey. reflexivity. }
  rewrite Hrun. clear Hrun.
  proc_unfold. cbv delta [map_shared_memory store_num_edges
                          __sanitizer_cov_reset_edgeguards id] beta.
  proc_unfold. world_simpl.
  split; [|split].
  - intros Hfd. replace (shm_fd w key <=? -1) with true by (symmetry; apply Z.leb_le; lia).
    reflexivity.
  - intros Hfd Hmap.
    replace (shm_fd w key <=? -1) with false by (symmetry; apply Z.leb_gt; lia).
    cbv beta iota. world_simpl. rewrite Hmap. reflexivity.
  - intros r Hfd Hmap.
    replace (shm_fd w key <=? -1) with false by (symmetry; apply Z.leb_gt; lia).
    cbv beta iota. world_simpl. rewrite Hmap. cbv beta iota. world_simpl.
    rewrite (reset_registered _ start stop) by reflexivity. world_simpl.
    eexists. split; [reflexivity|]. world_simpl. repeat split.
    rewrite <- !app_assoc. reflexivity.
Qed.

Lemma init_uses_the_named_segment_witness :
  exists w',
    __sanitizer_cov_trace_pc_guard_init 0 3 supervised_world = Ok tt w' /\
    shmem (cov w') = Some (Shmem 3 (fun _ => 0)) /\
    guards (cov w') = [1; 2; 3].
Proof.
  destruct (init_uses_the_named_segment supervised_world 0 3 "shm_id_1_0")
    as (_ & _ & H); [lia|reflexivity|reflexivity|reflexivity|reflexivity|].
  destruct (H (Shmem 0 (fun _ => 0))) as (w' & H1 & H2 & _ & _ & H5 & _);
    [cbn; lia|reflexivity|].
  exists w'. split; [exact H1|]. split; [exact H2|exact H5].
Defined.

Lemma header_failures_are_fatal_witness :
  receive_header (Toy.world [Data [101; 120]; Data [101; 99]] [] []) =
    Exited (-1)
      (emit (EvPrint stderr (DQ +:+ "read(REPRL_CRFD, &action, 4) == 4" +:+ DQ
                               +:+ " failed" +:+ LF) [])
            (emit (EvRead REPRL_CRFD 4 2)
                  (set_crfd [Data [101; 99]]
                            (Toy.world [Data [101; 120]; Data [101; 99]] [] [])))) /\
  receive_header (Toy.world [Data [72; 69; 76; 79]] [] []) =
    Exited (-1)
      (emit (EvPrint stderr ("Unknown action: %u" +:+ LF) [ArgU (le_value [72; 69; 76; 79])])
            (emit (EvRead REPRL_CRFD 4 4)
                  (set_crfd [] (Toy.world [Data [72; 69; 76; 79]] [] [])))).
Proof.
  split.
  - apply (proj1 (header_failures_are_fatal
                    (Toy.world [Data [101; 120]; Data [101; 99]] [] []))
                 [101; 120] [Data [101; 99]]);
      [reflexivity|cbn; lia].
  - apply (proj2 (header_failures_are_fatal (Toy.world [Data [72; 69; 76; 79]] [] []))
                 [72; 69; 76; 79] []);
      [reflexivity|discriminate].
Defined.

(** ** Payloads as C strings *)

Lemma take_c_str s : take (Z.to_nat (strlen s)) s = c_str s.
Proof.
  unfold strlen. rewrite Nat2Z.id.
  induction s as [|b s IH]; [reflexivity|].
  cbn [c_str]. destruct (b =? 0); [reflexivity|].
  cbn [length take]. rewrite IH. reflexivity.
Qed.

Section Strings.

Context {lua_State : Type} {RT : LuaRuntime lua_State}.

(** X16: [dostring] hands the library the bytes of its argument before the
    first zero byte and nothing else ([strlen]): two buffers that agree up
    to their first zero are run in the same way, whatever follows it.  A
    payload of the fuzzing loop with a zero byte inside is therefore
    executed only up to that byte. *)
Theorem dostring_stops_at_the_first_zero (L : lua_State) s s' name :
  c_str s = c_str s' ->
  dostring L s name = dostring L s' name /\
  dostring L s name = dochunk (luaL_loadbuffer L (c_str s) name).
Proof.
  intros H. unfold dostring. rewrite !take_c_str, H. split; reflexivity.
Qed.

End Strings.

Lemma dostring_stops_at_the_first_zero_witness :
  dostring (RT := Toy.runtime) [] [112; 0; 101; 33; 0] "chunk" =
    dostring (RT := Toy.runtime) [] [112; 0] "chunk" /\
  dostring (RT := Toy.runtime) [] [112; 0; 101; 33; 0] "chunk" =
    dochunk (RT := Toy.runtime)
            (@luaL_loadbuffer _ Toy.runtime [] (c_str [112; 0; 101; 33; 0]) "chunk").
Proof.
  apply (dostring_stops_at_the_first_zero (RT := Toy.runtime)). reflexivity.
Defined.

(** ** The loop at work *)

Lemma returns_emitting_ret {A} (a : A) : returns_emitting (ret a).
Proof. intros w. exists a, []. unfold ret, emits. rewrite app_nil_r. destruct w; reflexivity. Qed.

Lemma returns_emitting_bind {A B} (m : M A) (k : A -> M B) :
  returns_emitting m -> (forall a, returns_emitting (k a)) -> returns_emitting (bind m k).
Proof.
  intros Hm Hk w. destruct (Hm w) as (a & es & E). destruct (Hk a (emits es w)) as (b & es' & E').
  exists b, (es ++ es'). unfold bind. rewrite E, E', emits_emits. reflexivity.
Qed.

Lemma returns_emitting_emits es : returns_emitting (act (emits es)).
Proof. intros w. exists tt, es. reflexivity. Qed.

Lemma returns_emitting_print st fmt args : returns_emitting (print st fmt args).
Proof. intros w. exists tt, [EvPrint st fmt args]. reflexivity. Qed.

Lemma returns_emitting_fflush st : returns_emitting (fflush st).
Proof. intros w. exists tt, [EvFlush st]. reflexivity. Qed.

Create HintDb going.

#[export] Hint Resolve returns_emitting_ret returns_emitting_emits returns_emitting_print
  returns_emitting_fflush : going.

Ltac going_step :=
  repeat first
    [ solve [auto with going]
    | apply returns_emitting_bind; [|intros ?]
    | match goal with
      | |- returns_emitting (if ?c then _ else _) => destruct c
      | |- returns_emitting (match ?x with _ => _ end) => destruct x
      end ].

(** A heap that refuses no buffer of at most [PTRDIFF_MAX] bytes. *)
Lemma malloc_grants_all w size :
  Forall (fun b => b = true) (heap w) -> size <= PTRDIFF_MAX ->
  malloc_grants w size = true.
Proof.
  intros Hh Hs. unfold malloc_grants.
  replace (size <=? PTRDIFF_MAX) with true by (symmetry; apply Z.leb_le; exact Hs).
  destruct Hh; [reflexivity|assumption].
Qed.

Lemma all_true_tail (l : list bool) :
  Forall (fun b => b = true) l -> Forall (fun b => b = true) (tail l).
Proof. destruct 1; [constructor|assumption]. Qed.

Lemma receive_payload_ok L w :
  0 <= L < SSIZE_MAX ->
  malloc_grants w (uint64 (L + 1)) = true ->
  L <= Z.of_nat (length (pending_bytes (drfd w))) ->
  exists s w',
    receive_payload L w = Ok s w' /\
    pending_bytes (drfd w') = drop (Z.to_nat L) (pending_bytes (drfd w)) /\
    heap w' = tail (heap w) /\
    crfd w' = crfd w /\ cwfd w' = cwfd w /\ cov w' = cov w /\ live w' = live w /\
    env w' = env w.
Proof.
  intros HL Hg Ha.
  assert (SM : SSIZE_MAX = 9223372036854775807) by reflexivity.
  rewrite receive_payload_run, Hg. cbn [negb andb].
  set (w0 := set_heap (tail (heap w)) w).
  rewrite uint64_small by lia.
  replace (Z.to_nat (L + 1)) with (S (Z.to_nat L)) by lia.
  destruct (receive_loop_complete (S (length (drfd w)))
              (replicate (S (Z.to_nat L)) 0) 0 L w0)
    as (w' & Hrun & Hpend & _ & _ & Hframe); try lia.
  { change (drfd w0) with (drfd w). lia. }
  { rewrite length_replicate. lia. }
  { change (drfd w0) with (drfd w). exact Ha. }
  pose proof (receive_loop_heap (S (length (drfd w)))
                (replicate (S (Z.to_nat L)) 0) 0 L w0) as Hheap.
  rewrite Hrun in Hheap. cbn [world_of] in Hheap.
  rewrite (bind_ok _ _ _ _ _ Hrun).
  rewrite store_in_range;
    [eexists _, w'; split; [reflexivity|split; [exact Hpend|split; [exact Hheap|exact Hframe]]]
    |lia|].
  rewrite !length_app, length_take, length_drop, length_take, length_replicate.
  change (drfd w0) with (drfd w). cbn [length]. lia.
Qed.

Lemma perform_handshake_run w rest :
  cwfd w = [] -> crfd w = Data HELO :: rest ->
  perform_handshake w =
    Ok tt (emit (EvRead REPRL_CRFD 4 4)
                (set_crfd rest (emit (EvWrite REPRL_CWFD HELO 4) (set_cwfd [] w)))).
Proof.
  intros Hw Hc. unfold perform_handshake.
  rewrite (bind_ok _ _ _ _ _ (sys_write_cwfd _ w)).
  unfold next_write. rewrite Hw. cbn [length take HELO app tail].
  change (negb (Z.of_nat 4 =? 4)) with false. cbv iota.
  rewrite (bind_ok _ _ _ _ _ (sys_read_crfd 4 _)). world_simpl. rewrite Hc.
  reflexivity.
Qed.

Section Progress.

Context {lua_State : Type} {RT : LuaRuntime lua_State}.

Hypothesis calls_return :
  forall (L : lua_State) narg nres base,
    exists status L' out, lua_pcall L narg nres base = PcallReturns status L' out.

Lemma returns_emitting_lua_writestringerror fmt p :
  returns_emitting (lua_writestringerror fmt p).
Proof. unfold lua_writestringerror. going_step. Qed.

Hint Resolve returns_emitting_lua_writestringerror : going.

Lemma returns_emitting_l_message pname msg : returns_emitting (l_message pname msg).
Proof. unfold l_message. going_step. Qed.

Hint Resolve returns_emitting_l_message : going.

Lemma returns_emitting_report (L : lua_State) status : returns_emitting (report L status).
Proof. unfold report. going_step. Qed.

Lemma returns_emitting_docall (L : lua_State) narg nres :
  returns_emitting (docall L narg nres).
Proof.
  unfold docall.
  destruct (calls_return (lua_insert (lua_pushcfunction L msghandler) (lua_gettop L - narg))
                         narg nres (lua_gettop L - narg)) as (st & L' & out & ->).
  going_step.
Qed.

Hint Resolve returns_emitting_report returns_emitting_docall : going.

Lemma returns_emitting_dostring (L : lua_State) s name :
  returns_emitting (dostring L s name).
Proof. unfold dostring, dochunk, call_loaded. going_step. Qed.

Lemma returns_emitting_l_print (L : lua_State) : returns_emitting (l_print L).
Proof.
  unfold l_print. destruct (lua_gettop L >? 0); [|going_step].
  match goal with
  | |- returns_emitting (match lua_pcall ?a ?b ?c ?d with _ => _ end) =>
      destruct (calls_return a b c d) as (st & L' & out & ->)
  end.
  going_step.
Qed.

Hint Resolve returns_emitting_dostring returns_emitting_l_print : going.

Lemma returns_emitting_print_or_report (r : Z * lua_State) status :
  returns_emitting (print_or_report r status).
Proof. unfold print_or_report. going_step. Qed.

Lemma create_state_run argc argv script (L0 : lua_State) w :
  luaL_newstate = Some L0 ->
  env w LUA_INITVARVERSION = None -> env w LUA_INIT_VAR = None ->
  exists L, create_state argc argv script w =
            Ok L (emit EvLuaNew (set_live (S (live w)) w)).
Proof.
  intros Hnew H1 H2. unfold create_state. rewrite Hnew.
  unfold handle_luainit. proc_unfold. unfold id. world_simpl. rewrite H1, H2.
  change (negb (LUA_OK =? LUA_OK)) with false. cbv iota. eexists. reflexivity.
Qed.

Lemma fuzz_iteration_run argc argv (L0 : lua_State) len rest w :
  luaL_newstate = Some L0 ->
  env w LUA_INITVARVERSION = None -> env w LUA_INIT_VAR = None ->
  cwfd w = [] ->
  crfd w = request_for len ++ rest ->
  Forall (fun b => b = true) (heap w) ->
  0 <= len < SSIZE_MAX ->
  len <= Z.of_nat (length (pending_bytes (drfd w))) ->
  exists w',
    fuzz_iteration (RT := RT) argc argv w = Ok tt w' /\
    crfd w' = rest /\ cwfd w' = [] /\ env w' = env w /\ live w' = live w /\
    pending_bytes (drfd w') = drop (Z.to_nat len) (pending_bytes (drfd w)) /\
    heap w' = tail (heap w).
Proof.
  intros Hnew H1 H2 Hw Hc Hheap Hlen Hdata.
  assert (SM : SSIZE_MAX = 9223372036854775807) by reflexivity.
  assert (PM : PTRDIFF_MAX = 9223372036854775807) by reflexivity.
  unfold fuzz_iteration, receive_script.
  assert (Hhead : receive_header w =
            Ok len (emit (EvRead REPRL_CRFD 8 8)
                      (set_crfd rest (emit (EvRead REPRL_CRFD 4 4)
                                           (set_crfd (Data (le_bytes 8 len) :: rest) w))))).
  { apply receive_header_run; [lia| |].
    - rewrite Hc. reflexivity.
    - unfold read_pending. change (SSIZE_MAX <? 8) with false. cbv iota.
      rewrite length_le_bytes. reflexivity. }
  set (w1 := emit (EvRead REPRL_CRFD 8 8) _) in Hhead.
  destruct (receive_payload_ok len w1)
    as (s & w2 & Hpay & Hpend & Hh2 & Hc2 & Hw2 & _ & Hl2 & He2);
    [lia|apply malloc_grants_all; [exact Hheap|rewrite uint64_small; lia]|exact Hdata|].
  rewrite (bind_ok _ _ w s w2)
    by (unfold bind; rewrite Hhead; exact Hpay).
  destruct (create_state_run argc argv 0 L0 w2 Hnew) as (L & Hcreate);
    [rewrite He2; exact H1|rewrite He2; exact H2|].
  rewrite (bind_ok _ _ _ _ _ Hcreate).
  set (w3 := emit EvLuaNew _).
  destruct (returns_emitting_dostring L s "chunk" w3) as (r & es & Hdo).
  destruct (returns_emitting_print_or_report r 0 (emits es w3)) as (L2 & es2 & Hpr).
  change (bind (execute L s) (fun result => send_status result) w3)
    with (bind (execute L s) send_status w3).
  rewrite (execute_and_respond L s w3 r _ L2 _ Hdo Hpr).
  rewrite send_status_run. subst w3. world_simpl.
  unfold next_write. world_simpl. rewrite Hw2. subst w1. world_simpl. rewrite Hw.
  cbn [tail]. change (4 =? 4) with true. cbv iota.
  eexists. split; [reflexivity|]. world_simpl.
  rewrite Hc2, He2, Hl2, Hpend, Hh2. world_simpl. repeat split; reflexivity.
Qed.

End Progress.

Lemma total_nonneg lens :
  Forall (fun len => 0 <= len < SSIZE_MAX) lens -> 0 <= total lens.
Proof. unfold total. induction 1 as [|len lens Hl _ IH]; cbn [foldr]; lia. Qed.

Section Service.

Context {lua_State : Type} {RT : LuaRuntime lua_State}.

Lemma fuzz_loop_run argc argv (L0 : lua_State) :
  (forall (L : lua_State) narg nres base,
     exists status L' out, lua_pcall L narg nres base = PcallReturns status L' out) ->
  luaL_newstate = Some L0 ->
  forall lens rest w,
    env w LUA_INITVARVERSION = None -> env w LUA_INIT_VAR = None ->
    cwfd w = [] ->
    crfd w = flat_map request_for lens ++ rest ->
    Forall (fun b => b = true) (heap w) ->
    Forall (fun len => 0 <= len < SSIZE_MAX) lens ->
    total lens <= Z.of_nat (length (pending_bytes (drfd w))) ->
    exists w',
      fuzz_loop (RT := RT) (length lens) argc argv w = Ok tt w' /\
      crfd w' = rest /\ cwfd w' = [] /\ env w' = env w /\ live w' = live w /\
      pending_bytes (drfd w') = drop (Z.to_nat (total lens)) (pending_bytes (drfd w)).
Proof.
  intros Hcalls Hnew lens.
  induction lens as [|len lens IH]; intros rest w H1 H2 Hw Hc Hheap Hlens Hd.
  - exists w. cbn. repeat split; auto.
  - apply Forall_cons in Hlens as [Hlen Hlens].
    pose proof (total_nonneg lens Hlens) as Hnn.
    cbn [total foldr] in Hd. fold (total lens) in Hd.
    cbn [flat_map] in Hc. rewrite <- app_assoc in Hc.
    destruct (fuzz_iteration_run Hcalls argc argv L0 len _ w Hnew H1 H2 Hw Hc Hheap Hlen)
      as (w1 & Hrun & Hc1 & Hw1 & He1 & Hl1 & Hp1 & Hh1); [lia|].
    destruct (IH rest w1) as (w2 & Hrun2 & Hc2 & Hw2 & He2 & Hl2 & Hp2); auto.
    { rewrite He1. exact H1. }
    { rewrite He1. exact H2. }
    { rewrite Hh1. apply all_true_tail, Hheap. }
    { rewrite Hp1, length_drop. lia. }
    exists w2. cbn [length fuzz_loop]. rewrite (bind_ok _ _ _ _ _ Hrun).
    split; [exact Hrun2|]. repeat split; auto; try congruence.
    rewrite Hp2, Hp1, drop_drop. cbn [total foldr]. fold (total lens).
    f_equal. lia.
Qed.

(** X17: the loop serves every request.  With a library that can allocate
    a state and whose calls return, a heap that refuses no buffer of at
    most [PTRDIFF_MAX] bytes, declared lengths below [SSIZE_MAX] (so that
    the buffer of one byte more is such a buffer), no initialization script
    in the environment and a supervisor that takes every answer,
    [do_Fuzzing] goes through the greeting and through as many turns as
    there are requests on the control pipe, whatever the payloads are and
    whether they fail or not: it takes from the control pipe exactly the
    greeting and the twelve bytes of each request, from the data pipe
    exactly the declared lengths, and no interpreter state outlives its
    turn. *)
Theorem loop_serves_every_request argc argv (L0 : lua_State) lens rest w :
  (forall (L : lua_State) narg nres base,
     exists status L' out, lua_pcall L narg nres base = PcallReturns status L' out) ->
  luaL_newstate = Some L0 ->
  env w LUA_INITVARVERSION = None -> env w LUA_INIT_VAR = None ->
  cwfd w = [] ->
  crfd w = Data HELO :: flat_map request_for lens ++ rest ->
  Forall (fun b => b = true) (heap w) ->
  Forall (fun len => 0 <= len < SSIZE_MAX) lens ->
  total lens <= Z.of_nat (length (pending_bytes (drfd w))) ->
  exists w',
    do_Fuzzing (RT := RT) (length lens) argc argv w = Ok tt w' /\
    crfd w' = rest /\
    pending_bytes (drfd w') = drop (Z.to_nat (total lens)) (pending_bytes (drfd w)) /\
    live w' = live w.
Proof.
  intros Hcalls Hnew H1 H2 Hw Hc Hheap Hlens Hd. unfold do_Fuzzing.
  rewrite (bind_ok _ _ _ _ _ (perform_handshake_run w _ Hw Hc)).
  destruct (fuzz_loop_run argc argv L0 Hcalls Hnew lens rest
              (emit (EvRead REPRL_CRFD 4 4)
                 (set_crfd (flat_map request_for lens ++ rest)
                    (emit (EvWrite REPRL_CWFD HELO 4) (set_cwfd [] w)))))
    as (w' & Hrun & Hc' & _ & _ & Hl' & Hp'); auto.
  exists w'. repeat split; auto.
Qed.

(** X18: the two ways in which [do_Fuzzing] gives up on creating a state.
    When the library has no memory for a state, the message goes to stderr
    under the name in [argv[0]] and the function returns [EXIT_FAILURE];
    when the initialization script of the environment ends with an error,
    the function returns [EXIT_FAILURE] as well, with the state it created
    still open. *)
Theorem create_state_failures argc argv script w :
  (luaL_newstate = None ->
   exists w',
     create_state (RT := RT) argc argv script w = Returned EXIT_FAILURE w' /\
     live w' = live w /\
     trace w' = trace w ++
       match argv !! 0%nat with
       | Some p => [EvPrint stderr "%s: " [ArgS (Some p)]; EvFlush stderr]
       | None => []
       end ++
       [EvPrint stderr ("%s" +:+ LF) [ArgS (Some "cannot create state: not enough memory")];
        EvFlush stderr]) /\
  (forall (L0 : lua_State) r w1,
     luaL_newstate = Some L0 ->
     handle_luainit
       (lua_gc (createargtable (luaL_openlibs (lua_register L0 "test_crash" test_crash))
                               argv argc script) LUA_GCGEN 0 0)
       (emit EvLuaNew (set_live (S (live w)) w)) = Ok r w1 ->
     r.1 <> LUA_OK ->
     create_state (RT := RT) argc argv script w = Returned EXIT_FAILURE w1 /\
     live w1 = S (live w)).
Proof.
  split.
  - intros Hnew. unfold create_state. rewrite Hnew.
    unfold l_message, lua_writestringerror. proc_unfold.
    destruct (argv !! 0%nat); eexists; (split; [reflexivity|]); world_simpl;
      repeat split; rewrite <- ?app_assoc; reflexivity.
  - intros L0 r w1 Hnew Hinit Hr. unfold create_state. rewrite Hnew.
    unfold bind at 1, act at 1. unfold bind. rewrite Hinit.
    replace (r.1 =? LUA_OK) with false by (symmetry; apply Z.eqb_neq; exact Hr).
    split; [reflexivity|].
    pose proof (keeps_live_handle_luainit
                  (lua_gc (createargtable (luaL_openlibs (lua_register L0 "test_crash" test_crash))
                                          argv argc script) LUA_GCGEN 0 0)
                  (emit EvLuaNew (set_live (S (live w)) w))) as Hl.
    rewrite Hinit in Hl. exact Hl.
Qed.

End Service.

Lemma calm_runtime_returns (L : Toy.state) narg nres base :
  exists status L' out,
    lua_pcall (LuaRuntime := calm_runtime) L narg nres base = PcallReturns status L' out.
Proof.
  cbn. unfold calm_pcall. destruct (Toy.pcall L narg); eauto.
Qed.

Lemma loop_serves_every_request_witness :
  exists w',
    do_Fuzzing (RT := calm_runtime) 3 1 ["lua"]
      (Toy.world (Data HELO :: flat_map request_for [10; 14; 3] ++ [Data [1]])
                 [Data (bytes_of_string Toy.sum);
                  Data (bytes_of_string Toy.boom ++ [99; 99; 99; 7; 7])] []) = Ok tt w' /\
    crfd w' = [Data [1]] /\
    pending_bytes (drfd w') = [7; 7] /\
    live w' = 0%nat.
Proof.
  destruct (loop_serves_every_request (RT := calm_runtime) 1 ["lua"] [] [10; 14; 3] [Data [1]]
              (Toy.world (Data HELO :: flat_map request_for [10; 14; 3] ++ [Data [1]])
                 [Data (bytes_of_string Toy.sum);
                  Data (bytes_of_string Toy.boom ++ [99; 99; 99; 7; 7])] []))
    as (w' & H1 & H2 & H3 & H4).
  - exact calm_runtime_returns.
  - reflexivity.
  - reflexivity.
  - reflexivity.
  - reflexivity.
  - reflexivity.
  - constructor.
  - repeat constructor; cbn; try lia; change SSIZE_MAX with 9223372036854775807; lia.
  - cbn. lia.
  - exists w'. split; [exact H1|]. split; [exact H2|]. split; [exact H3|exact H4].
Defined.

Lemma create_state_failures_witness :
  (exists w',
     create_state (RT := exhausted_runtime) 1 ["lua"] 0 (Toy.world [] [] []) =
       Returned EXIT_FAILURE w' /\
     trace w' =
       [EvPrint stderr "%s: " [ArgS (Some "lua")]; EvFlush stderr;
        EvPrint stderr ("%s" +:+ LF) [ArgS (Some "cannot create state: not enough memory")];
        EvFlush stderr]) /\
  (exists w1,
     create_state (RT := Toy.runtime) 1 ["lua"] 0 (world_with_init "error()" [] []) =
       Returned EXIT_FAILURE w1 /\
     live w1 = 1%nat).
Proof.
  split.
  - destruct (proj1 (create_state_failures (RT := exhausted_runtime) 1 ["lua"] 0
                       (Toy.world [] [] [])) eq_refl) as (w' & H1 & _ & H3).
    exists w'. split; [exact H1|exact H3].
  - eexists.
    eapply (proj2 (create_state_failures (RT := Toy.runtime) 1 ["lua"] 0
                     (world_with_init "error()" [] [])) []).
    + reflexivity.
    + vm_compute. reflexivity.
    + cbn. discriminate.
Defined.
